(** * psp-mouse-injector: the process-memory accessor and the MOHH1 camera
      injection of [mohh1-mouse-injector.py]

    The development embeds the class [ProcessMemory] of the script:
    - Python floats are IEEE-754 binary64 values, modelled by the Standard
      Library's executable specification [spec_float] at precision 53;
    - [struct.pack('f', _)] and [struct.unpack('f', _)] are the binary32
      encoding and decoding, written out on the bit fields;
    - the object's attributes are the fields of a record that is threaded
      through every method, methods return an outcome (a value, a raised
      exception, or a loop that does not come back);
    - the [/proc/<pid>/mem] file object is an interface ([MemStream]); every
      call that reaches it is recorded in the list [accesses].

    Beside the class, the development embeds the accounting of movement
    of [MouseTracker], the body of the loop of [main], [hexdump], and the
    text parsing of the first pass of [find_game_memory]. *)

From Stdlib Require Import ZArith Bool List Lia String.
From Stdlib Require Import Init.Byte Strings.Byte.
From Stdlib Require Import Floats.SpecFloat.
From Stdlib Require Reals Lra.
Import ListNotations.
Open Scope Z_scope.

(** ** Python floats *)

Definition float := spec_float.

Definition prec : Z := 53.
Definition emax : Z := 1024.

Definition fadd : float -> float -> float := SFadd prec emax.
Definition fsub : float -> float -> float := SFsub prec emax.
Definition fmul : float -> float -> float := SFmul prec emax.
Definition fdiv : float -> float -> float := SFdiv prec emax.
Definition fneg : float -> float := SFopp.

(** [a < b], [a > b] and [a == b] on floats: all three are false as soon as
    one side is NaN. *)
Definition flt (a b : float) : bool := SFltb a b.
Definition fgt (a b : float) : bool := SFltb b a.
Definition feq (a b : float) : bool := SFeqb a b.
Definition fle (a b : float) : bool := SFleb a b.

(** An integer seen as a float (the conversion Python applies to an [int]
    operand of a float operation), rounded to nearest even. *)
Definition float_of_Z (z : Z) : float := binary_normalize prec emax z 0 false.

(** A decimal literal [n / 10^k]: both operands are exact, so the correctly
    rounded quotient is the float nearest to the literal. *)
Definition decimal (n : Z) (k : Z) : float :=
  fdiv (float_of_Z n) (float_of_Z (10 ^ k)).

(** The builtins [min(a, b)] and [max(a, b)] keep the first argument unless
    the second one compares strictly below (above) it. *)
Definition py_min (a b : float) : float := if flt b a then b else a.
Definition py_max (a b : float) : float := if fgt b a then b else a.

Definition is_nan (x : float) : bool :=
  match x with S754_nan => true | _ => false end.

Definition is_finite (x : float) : bool :=
  match x with S754_zero _ | S754_finite _ _ _ => true | _ => false end.

(** A value of the binary64 format: the mantissa and exponent of a finite
    number are the canonical ones. *)
Definition valid (x : float) : bool := valid_binary prec emax x.

(** ** Module constants *)

(** [TAU = 6.2831853] *)
Definition TAU : float := Eval vm_compute in decimal 62831853 7.

Definition MOHH1_CAMBASE_PTR : Z := 0xD8361C.
Definition MOHH1_CAMY : Z := 0x188.
Definition MOHH1_CAMX : Z := 0x1A4.
Definition MOHH1_FOV : Z := 0x1E8.

(** The literals of [psp_mohh1_inject]. *)
Definition f_20 : float := Eval vm_compute in float_of_Z 20.
Definition f_20000 : float := Eval vm_compute in float_of_Z 20000.
Definition f_2 : float := Eval vm_compute in float_of_Z 2.
Definition f_0 : float := S754_zero false.
Definition PITCH_LIMIT : float := Eval vm_compute in decimal 1483529806 9.

(** ** Bytes, [int.from_bytes], [int.to_bytes] *)

Definition bytes := list byte.

Definition Z_of_byte (b : byte) : Z := Z.of_N (Byte.to_N b).

Definition byte_of_Z (z : Z) : byte :=
  match Byte.of_N (Z.to_N (z mod 256)) with
  | Some b => b
  | None => x00
  end.

(** [int.from_bytes(data, byteorder='little')], for any length of [data]. *)
Fixpoint int_from_bytes (data : bytes) : Z :=
  match data with
  | [] => 0
  | b :: rest => Z_of_byte b + 256 * int_from_bytes rest
  end.

Fixpoint le_bytes (n : nat) (z : Z) : bytes :=
  match n with
  | O => []
  | S n' => byte_of_Z z :: le_bytes n' (z / 256)
  end.

(** ** [struct.unpack('f', data)[0]] and [struct.pack('f', value)] *)

(** The binary32 value of a 32-bit pattern, as the float it denotes. *)
Definition float_of_bits32 (bits : Z) : float :=
  let s := Z.testbit bits 31 in
  let e := Z.land (Z.shiftr bits 23) 255 in
  let m := Z.land bits (2 ^ 23 - 1) in
  if e =? 255 then (if m =? 0 then S754_infinity s else S754_nan)
  else if e =? 0 then
    match m with
    | Zpos p => binary_round prec emax s p (-149)
    | _ => S754_zero s
    end
  else
    match m + 2 ^ 23 with
    | Zpos p => binary_round prec emax s p (e - 150)
    | _ => S754_zero s
    end.

Definition sign_bit (s : bool) : Z := if s then 2 ^ 31 else 0.

(** The 32-bit pattern of a float rounded to binary32 (to nearest even);
    [None] when a finite value rounds beyond the binary32 range, where
    [struct.pack] raises [OverflowError]. *)
Definition bits32_of_float (x : float) : option Z :=
  match x with
  | S754_nan => Some 0x7FC00000
  | S754_infinity s => Some (sign_bit s + 0x7F800000)
  | S754_zero s => Some (sign_bit s)
  | S754_finite s m e =>
    match binary_round 24 128 s m e with
    | S754_finite s' m' e' =>
      if Zpos m' <? 2 ^ 23 then Some (sign_bit s' + Zpos m')
      else Some (sign_bit s' + (e' + 150) * 2 ^ 23 + (Zpos m' - 2 ^ 23))
    | S754_zero s' => Some (sign_bit s')
    | _ => None
    end
  end.

Definition unpack_f (data : bytes) : option float :=
  if Nat.eqb (List.length data) 4 then Some (float_of_bits32 (int_from_bytes data))
  else None.

Definition pack_f (value : float) : option bytes :=
  option_map (le_bytes 4) (bits32_of_float value).

(** ** The process-memory object *)

(** The exceptions the modelled methods can meet. *)
Inductive exn : Type :=
| RuntimeError   (* "Process not found or memory file not opened" *)
| OSError        (* raised by the file object *)
| StructError    (* [struct.unpack] on a buffer that is not 4 bytes long *)
| IndexError     (* [test_data[1]] on a 1-byte buffer *)
| OverflowError. (* [to_bytes], [struct.pack] out of range *)

(** How a call ends: it returns, it raises, or it is still inside one of
    the [while] loops when the iteration budget is used up. *)
Inductive outcome (A : Type) : Type :=
| Return (a : A)
| Raise (e : exn)
| Spinning.
Arguments Return {A} a.
Arguments Raise {A} e.
Arguments Spinning {A}.

(** The file object opened on [/proc/<pid>/mem]: [seek(address)] followed by
    [read(size)], which yields up to [size] bytes or raises, and
    [seek(address)] followed by [write(data)]. *)
Class MemStream (F : Type) : Type := {
  stream_read : F -> Z -> Z -> exn + bytes;
  stream_write : F -> Z -> bytes -> F * option exn
}.

(** One row of the table built by the first pass of [find_game_memory]. *)
Record region : Type := mkRegion {
  start : Z;
  size : Z;
  perms : string;
  path : string
}.

(** A call that reached the memory file. *)
Inductive event : Type :=
| EvRead (address : Z) (size : Z)
| EvWrite (address : Z) (data : bytes).

(** The lines the methods print, with the data they interpolate. *)
Inductive message : Type :=
| MsgBaseNotEstablished
| MsgScanning
| MsgPotentialRegion (start size : Z)
| MsgNonZeroContent (start : Z) (first : bytes)
| MsgSignature
| MsgReadError (e : exn)
| MsgNoRegion.

Section ProcessMemory.

Context {F : Type} `{MemStream F}.

(** The attributes of a [ProcessMemory] object that the accessors use.
    [maps_file] holds the rows that the first pass of [find_game_memory]
    parses out of [/proc/<pid>/maps]; [accesses] and [stdout] record what
    reached the memory file and what was printed. *)
Record ProcessMemory : Type := mkPM {
  mem_file : option F;
  maps_file : option (list region);
  game_memory_base : option Z;
  accesses : list event;
  stdout : list message
}.

Definition M (A : Type) : Type := ProcessMemory -> outcome A * ProcessMemory.

Definition ret {A} (a : A) : M A := fun st => (Return a, st).
Definition raise {A} (e : exn) : M A := fun st => (Raise e, st).
Definition bind {A B} (m : M A) (k : A -> M B) : M B :=
  fun st =>
    match m st with
    | (Return a, st') => k a st'
    | (Raise e, st') => (Raise e, st')
    | (Spinning, st') => (Spinning, st')
    end.

Notation "x <- m ;; k" := (bind m (fun x => k))
  (at level 61, m at next level, right associativity).
Notation "m ;;; k" := (bind m (fun _ => k))
  (at level 61, right associativity).

Definition print (msg : message) : M unit :=
  fun st => (Return tt,
             mkPM (mem_file st) (maps_file st) (game_memory_base st)
                  (accesses st) (stdout st ++ [msg])).

Definition log_access (ev : event) (st : ProcessMemory) : ProcessMemory :=
  mkPM (mem_file st) (maps_file st) (game_memory_base st)
       (accesses st ++ [ev]) (stdout st).

Definition set_base (b : Z) : M unit :=
  fun st => (Return tt,
             mkPM (mem_file st) (maps_file st) (Some b)
                  (accesses st) (stdout st)).

(** [try: body except Exception as e: handler(e)] *)
Definition try_except {A} (body : M A) (handler : exn -> M A) : M A :=
  fun st =>
    match body st with
    | (Raise e, st') => handler e st'
    | r => r
    end.

(** The truth value of [self.game_memory_base]: [None] and [0] are false. *)
Definition base_of (st : ProcessMemory) : option Z :=
  match game_memory_base st with
  | Some b => if b =? 0 then None else Some b
  | None => None
  end.

Definition read_memory (address size : Z) : M bytes :=
  fun st =>
    match mem_file st with
    | None => (Raise RuntimeError, st)
    | Some f =>
      match stream_read f address size with
      | inl e => (Raise e, log_access (EvRead address size) st)
      | inr data => (Return data, log_access (EvRead address size) st)
      end
    end.

Definition write_memory (address : Z) (data : bytes) : M unit :=
  fun st =>
    match mem_file st with
    | None => (Raise RuntimeError, st)
    | Some f =>
      let (f', err) := stream_write f address data in
      let st' := mkPM (Some f') (maps_file st) (game_memory_base st)
                      (accesses st ++ [EvWrite address data]) (stdout st) in
      match err with
      | Some e => (Raise e, st')
      | None => (Return tt, st')
      end
    end.

Definition read_int (address size : Z) : M Z :=
  data <- read_memory address size ;;
  ret (int_from_bytes data).

(** [value.to_bytes(size, byteorder='little')] *)
Definition to_bytes (value : Z) (size : nat) : M bytes :=
  if (0 <=? value) && (value <? 256 ^ Z.of_nat size)
  then ret (le_bytes size value)
  else raise OverflowError.

Definition write_int (address value : Z) (size : nat) : M unit :=
  data <- to_bytes value size ;;
  write_memory address data.

(** *** Accessors relative to [game_memory_base] *)

(** [if not self.game_memory_base: <absent> ... <present>], the guard that
    opens every accessor. *)
Definition guarded {A} (absent : M A) (present : Z -> M A) : M A :=
  fun st =>
    match base_of st with
    | None => absent st
    | Some base => present base st
    end.

Definition read_uint32 (address : Z) : M Z :=
  guarded (print MsgBaseNotEstablished ;;; ret 0)
    (fun base => read_int (base + address) 4).

Definition read_uint16 (address : Z) : M Z :=
  guarded (print MsgBaseNotEstablished ;;; ret 0)
    (fun base =>
       data <- read_memory (base + address) 2 ;;
       ret (int_from_bytes data)).

Definition read_float (address : Z) : M float :=
  guarded (print MsgBaseNotEstablished ;;; ret f_0)
    (fun base =>
       data <- read_memory (base + address) 4 ;;
       match unpack_f data with
       | Some v => ret v
       | None => raise StructError
       end).

Definition write_uint16 (address value : Z) : M unit :=
  guarded (print MsgBaseNotEstablished)
    (fun base =>
       data <- to_bytes value 2 ;;
       write_memory (base + address) data).

Definition write_float (address : Z) (value : float) : M unit :=
  guarded (print MsgBaseNotEstablished)
    (fun base =>
       match pack_f value with
       | Some data => write_memory (base + address) data
       | None => raise OverflowError
       end).

Definition read_pointer (address : Z) : M Z :=
  guarded (print MsgBaseNotEstablished ;;; ret 0)
    (fun _ =>
       val <- read_uint32 address ;;
       if val =? 0 then ret 0 else ret (val - 0x8000000)).

(** *** [find_game_memory] *)

Definition TARGET_SIZE : Z := 32 * 1024 * 1024.
Definition MIN_SIZE : Z := 1 * 1024 * 1024.

(** [abs(size - TARGET_SIZE) / TARGET_SIZE <= SIZE_TOLERANCE], where
    [SIZE_TOLERANCE = 0.1] is the float [3602879701896397 / 2^55].  The
    true division of an [int] by [2^25] is exact below [2^53] and far above
    the tolerance beyond, so the test is the comparison of the exact
    quotient with that float. *)
Definition size_close (sz : Z) : bool :=
  Z.abs (sz - TARGET_SIZE) * 2 ^ 55 <=? 3602879701896397 * TARGET_SIZE.

(** [data[i]] *)
Definition getitem (data : bytes) (i : nat) : M byte :=
  match nth_error data i with
  | Some b => ret b
  | None => raise IndexError
  end.

Definition nonzero (b : byte) : bool := negb (Z_of_byte b =? 0).

(** [any(data)] *)
Definition any_byte (data : bytes) : bool := existsb nonzero data.

(** The [try] block run on a region of suitable size: [Some start] when
    the region is taken (the method returns), [None] when the [for] loop
    goes on. *)
Definition probe (r : region) : M (option Z) :=
  try_except
    (test_data <- read_memory (start r) 4 ;;
     if any_byte test_data then
       print (MsgNonZeroContent (start r) test_data) ;;;
       b0 <- getitem test_data 0 ;;
       if nonzero b0 then
         b1 <- getitem test_data 1 ;;
         if nonzero b1 then
           print MsgSignature ;;;
           set_base (start r) ;;;
           ret (Some (start r))
         else ret None
       else ret None
     else ret None)
    (fun e => print (MsgReadError e) ;;; ret None).

(** The second pass. *)
Fixpoint scan (regions : list region) : M (option Z) :=
  match regions with
  | [] => print MsgNoRegion ;;; ret None
  | r :: rest =>
    if (size r >=? MIN_SIZE) && size_close (size r) then
      print (MsgPotentialRegion (start r) (size r)) ;;;
      found <- probe r ;;
      match found with
      | Some a => ret (Some a)
      | None => scan rest
      end
    else scan rest
  end.

Definition find_game_memory : M (option Z) :=
  fun st =>
    match maps_file st with
    | None => ret None st
    | Some regions => (print MsgScanning ;;; scan regions) st
    end.

(** *** [psp_mohh1_inject] *)

(** [mouse * look_sensitivity / scale * fov] with
    [look_sensitivity = sensitivity / 20.0] and [scale = 20000.0]. *)
Definition look_delta (mouse sensitivity fov : float) : float :=
  fmul (fdiv (fmul mouse (fdiv sensitivity f_20)) f_20000) fov.

(** The two augmented assignments to [cam_x] and [cam_y]. *)
Definition new_cam_x (xmouse sensitivity fov cam_x : float) : float :=
  fsub cam_x (look_delta xmouse sensitivity fov).

Definition new_cam_y (ymouse sensitivity : float) (invertpitch : bool)
    (fov cam_y : float) : float :=
  fsub cam_y
    (if negb invertpitch then look_delta ymouse sensitivity fov
     else look_delta (fneg ymouse) sensitivity fov).

(** [while cam_x > TAU / 2: cam_x -= TAU], given an iteration budget. *)
Fixpoint wrap_down (fuel : nat) (cam_x : float) : option float :=
  if fgt cam_x (fdiv TAU f_2) then
    match fuel with
    | O => None
    | Datatypes.S n => wrap_down n (fsub cam_x TAU)
    end
  else Some cam_x.

(** [while cam_x < -TAU / 2: cam_x += TAU] *)
Fixpoint wrap_up (fuel : nat) (cam_x : float) : option float :=
  if flt cam_x (fdiv (fneg TAU) f_2) then
    match fuel with
    | O => None
    | Datatypes.S n => wrap_up n (fadd cam_x TAU)
    end
  else Some cam_x.

Definition normalize_yaw (fuel : nat) (cam_x : float) : option float :=
  match wrap_down fuel cam_x with
  | Some x => wrap_up fuel x
  | None => None
  end.

(** [max(min(cam_y, 1.483529806), -1.483529806)] *)
Definition clamp_pitch (cam_y : float) : float :=
  py_max (py_min cam_y PITCH_LIMIT) (fneg PITCH_LIMIT).

Definition spin {A} : M A := fun st => (Spinning, st).

Definition psp_mohh1_inject (fuel : nat) (xmouse ymouse sensitivity : float)
    (invertpitch : bool) : M unit :=
  guarded (print MsgBaseNotEstablished)
    (fun _ =>
       cam_base <- read_pointer MOHH1_CAMBASE_PTR ;;
       if cam_base =? 0 then ret tt else
       fov <- read_float (cam_base + MOHH1_FOV) ;;
       if feq xmouse f_0 && feq ymouse f_0 then ret tt else
       cam_x <- read_float (cam_base + MOHH1_CAMX) ;;
       cam_y <- read_float (cam_base + MOHH1_CAMY) ;;
       let cam_x := new_cam_x xmouse sensitivity fov cam_x in
       let cam_y := new_cam_y ymouse sensitivity invertpitch fov cam_y in
       match normalize_yaw fuel cam_x with
       | None => spin
       | Some cam_x =>
         let cam_y := clamp_pitch cam_y in
         write_float (cam_base + MOHH1_CAMX) cam_x ;;;
         write_float (cam_base + MOHH1_CAMY) cam_y
       end).

End ProcessMemory.

Arguments ProcessMemory F : clear implicits.
Arguments M F A : clear implicits.

(** ** A concrete memory file

    A sparse image of the target's address space: [read] hands back the
    mapped bytes from [address] on, up to [size] of them, and raises when
    the first one is not mapped; [write] raises, writing nothing, unless the
    whole range is mapped. *)

Definition image : Type := Z -> option byte.

Definition empty_image : image := fun _ => None.

Fixpoint store (img : image) (address : Z) (data : bytes) : image :=
  match data with
  | [] => img
  | b :: rest =>
    store (fun a => if a =? address then Some b else img a) (address + 1) rest
  end.

Fixpoint fetch (img : image) (address : Z) (n : nat) : bytes :=
  match n with
  | O => []
  | Datatypes.S n' =>
    match img address with
    | Some b => b :: fetch img (address + 1) n'
    | None => []
    end
  end.

Fixpoint mapped (img : image) (address : Z) (n : nat) : bool :=
  match n with
  | O => true
  | Datatypes.S n' =>
    match img address with
    | Some _ => mapped img (address + 1) n'
    | None => false
    end
  end.

Definition image_read (img : image) (address size : Z) : exn + bytes :=
  if address <? 0 then inl OSError
  else if size <=? 0 then inr []
  else match fetch img address (Z.to_nat size) with
       | [] => inl OSError
       | data => inr data
       end.

Definition image_write (img : image) (address : Z) (data : bytes)
    : image * option exn :=
  if (0 <=? address) && mapped img address (List.length data)
  then (store img address data, None)
  else (img, Some OSError).

#[export] Instance image_stream : MemStream image := {
  stream_read := image_read;
  stream_write := image_write
}.

Definition attached (img : image) (table : list region) (base : option Z)
    : ProcessMemory image :=
  mkPM (Some img) (Some table) base [] [].

(** ** Concrete states *)

(** A target whose guest RAM is mapped at [0x10000000]: the camera pointer
    holds [0x08001000], the camera block has fov 75.0, yaw 0.0 and
    pitch 1.0. *)
Definition guest_base : Z := 0x10000000.

Definition guest_image : image :=
  store (store (store (store (store empty_image
    guest_base (le_bytes 4 0x464C457F))
    (guest_base + MOHH1_CAMBASE_PTR) (le_bytes 4 0x08001000))
    (guest_base + 0x1000 + MOHH1_FOV) (le_bytes 4 0x42960000))
    (guest_base + 0x1000 + MOHH1_CAMX) (le_bytes 4 0))
    (guest_base + 0x1000 + MOHH1_CAMY) (le_bytes 4 0x3F800000).

(** A mapping table with decoys around the guest RAM: a region that is too
    small, a 32 MiB region that is not readable, one whose first bytes are
    zero, the guest RAM, and a later region that would pass as well. *)
Definition guest_table : list region :=
  [ mkRegion 0x00400000 0x1000 "r-xp" "/usr/bin/PPSSPPSDL";
    mkRegion 0x00001000 TARGET_SIZE "---p" "/dev/zero";
    mkRegion (guest_base + 0x1000 + MOHH1_CAMX) TARGET_SIZE "rw-s" "/dev/shm/a";
    mkRegion guest_base TARGET_SIZE "rw-s" "/dev/shm/ppsspp";
    mkRegion (guest_base + MOHH1_CAMBASE_PTR) TARGET_SIZE "rw-s" "/dev/shm/b" ].

Definition fresh : ProcessMemory image :=
  attached guest_image guest_table None.

Definition ready : ProcessMemory image :=
  attached guest_image guest_table (Some guest_base).

(** The same target with the yaw [2^60] in the camera block (a binary32
    value, [0x5D800000]). *)
Definition spinning_image : image :=
  store guest_image (guest_base + 0x1000 + MOHH1_CAMX) (le_bytes 4 0x5D800000).

(** ** What the properties speak of *)

Section Observations.

Context {F : Type} `{MemStream F}.

Definition is_read (ev : event) : bool :=
  match ev with EvRead _ _ => true | EvWrite _ _ => false end.

(** [st'] comes from [st] by calls that only read the memory file: the
    file and the base are the same and the new accesses are all reads. *)
Definition reads_only (st st' : ProcessMemory F) : Prop :=
  mem_file st' = mem_file st /\
  maps_file st' = maps_file st /\
  game_memory_base st' = game_memory_base st /\
  exists evs, accesses st' = accesses st ++ evs /\ forallb is_read evs = true.

(** [st'] has the base of [st]. *)
Definition same_base (st st' : ProcessMemory F) : Prop :=
  game_memory_base st' = game_memory_base st.

Definition preserves (R : ProcessMemory F -> ProcessMemory F -> Prop)
    {A} (m : M F A) : Prop :=
  forall st, R st (snd (m st)).

(** The content test in the words of the specification: the first four
    bytes read at the start of the region are not all zero and the first
    two are both nonzero.  A region whose start cannot be read fails it. *)
Definition nonzero_at (data : bytes) (i : nat) : bool :=
  match nth_error data i with
  | Some b => nonzero b
  | None => false
  end.

Definition first_bytes (mf : option F) (r : region) : option bytes :=
  match mf with
  | Some f =>
    match stream_read f (start r) 4 with
    | inr data => Some data
    | inl _ => None
    end
  | None => None
  end.

Definition content_ok (mf : option F) (r : region) : bool :=
  match first_bytes mf r with
  | Some data => any_byte data && (nonzero_at data 0 && nonzero_at data 1)
  | None => false
  end.

(** The size test in the words of the specification: at least 1 MiB and
    within 10% of 32 MiB. *)
Definition size_ok (r : region) : bool :=
  (1024 * 1024 <=? size r) &&
  (10 * Z.abs (size r - 32 * 1024 * 1024) <=? 32 * 1024 * 1024).

Definition qualifies (mf : option F) (r : region) : bool :=
  size_ok r && content_ok mf r.

(** The rows of a table up to and including the first that satisfies [p]. *)
Fixpoint upto {A} (p : A -> bool) (l : list A) : list A :=
  match l with
  | [] => []
  | x :: rest => if p x then [x] else x :: upto p rest
  end.

(** The reads a scan performs: one 4-byte read at the start of every region
    of suitable size, as far as the accepted region; none without a memory
    file, where [read_memory] raises before reaching it. *)
Definition probes (mf : option F) (regions : list region) : list event :=
  match mf with
  | Some _ =>
    map (fun r => EvRead (start r) 4)
        (filter size_ok (upto (qualifies mf) regions))
  | None => []
  end.

End Observations.

(** ** Rounding to 53 bits, for the yaw loops *)

(** What [n] right shifts leave of a nonnegative mantissa [M]: the quotient
    by [2^n], the round bit and the sticky bit. *)
Definition shr_after (M : Z) (n : Z) : shr_record :=
  let q := M / 2 ^ n in
  let rho := M mod 2 ^ n in
  Build_shr_record q (2 ^ n <=? 2 * rho)
    (negb (rho =? 0) && negb (2 * rho =? 2 ^ n)).

(** The quotient of [M] by [2^n] rounded to nearest, ties to even. *)
Definition rne (M n : Z) : Z :=
  let q := M / 2 ^ n in
  let rho := M mod 2 ^ n in
  if rho =? 0 then q
  else match 2 * rho ?= 2 ^ n with
       | Lt => q
       | Eq => if Z.even q then q else q + 1
       | Gt => q + 1
       end.

(** The float with integer mantissa [c] in [2^52, 2^53] at exponent [e]. *)
Definition pack (s : bool) (c e : Z) : float :=
  if c =? 2 ^ 53 then S754_finite s (2 ^ 52)%positive (e + 1)
  else S754_finite s (Z.to_pos c) e.

(** The value of a finite float in units of [2^-103] (an integer when the
    exponent is at least [-103]). *)
Definition scaled (x : float) : Z :=
  match x with
  | S754_finite s m e => cond_Zopp s (Zpos m * 2 ^ (e + 103))
  | _ => 0
  end.

(** Floats the loops meet: a zero, or a normal number of exponent at least
    [-103], so that [scaled] is its value in units of [2^-103]. *)
Definition nice (x : float) : Prop :=
  match x with
  | S754_zero _ => True
  | S754_finite _ m e => 2 ^ 52 <= Zpos m < 2 ^ 53 /\ -103 <= e <= 971
  | _ => False
  end.

(** The real number a finite float stands for. *)
Definition F2R (x : float) : Rdefinitions.R :=
  match x with
  | S754_finite s m e =>
    Rdefinitions.Rmult (Rdefinitions.IZR (cond_Zopp s (Zpos m)))
                       (Rfunctions.powerRZ (Rdefinitions.IZR 2) e)
  | _ => Rdefinitions.IZR 0
  end.

(** Half a turn and its opposite, as the loop tests compute them. *)
Definition HALF_TAU : float := S754_finite false 7074237743944945 (-51).
Definition NEG_HALF_TAU : float := S754_finite true 7074237743944945 (-51).

(** [2^56], beyond which subtracting [TAU] is absorbed by rounding. *)
Definition YAW_MAX : float := S754_finite false 4503599627370496 4.

(** [TAU] and half of it in units of [2^-103]. *)
Definition tauV : Z := 7074237743944945 * 2 ^ 53.
Definition etaV : Z := 7074237743944945 * 2 ^ 52.


(** ** [close] and [psp_mohh1_status] *)

(** [data == b'...'] on bytes objects. *)
Fixpoint bytes_eqb (a b : bytes) : bool :=
  match a, b with
  | [], [] => true
  | x :: a', y :: b' => Byte.eqb x y && bytes_eqb a' b'
  | _, _ => false
  end.

(** The literal [b'ULUS-1014'] of [psp_mohh1_status]: nine bytes. *)
Definition ULUS_1014 : bytes := [x55; x4c; x55; x53; x2d; x31; x30; x31; x34].

Section OtherMethods.

Context {F : Type} `{MemStream F}.


(** The loop of [psp_mohh1_status] with [count] values of [i] still to
    visit, the next one being [i]. *)
Fixpoint status_from (count : nat) (i : Z) : M F bool :=
  match count with
  | O => ret false
  | Datatypes.S n =>
    bind (read_memory i 8)
      (fun data =>
         if bytes_eqb data ULUS_1014 then ret true
         else status_from n (i + 0x1000))
  end.

(** [for i in range(0, 0x10000000, 0x1000): ...; return False] *)
Definition psp_mohh1_status : M F bool :=
  status_from (Z.to_nat (0x10000000 / 0x1000)) 0.

End OtherMethods.

(** ** The mouse tracker

    The attributes of a [MouseTracker] that [on_move] and
    [get_and_reset_deltas] use.  Both methods run under the object's lock,
    so the calls of the listener thread and of the main loop happen one
    after the other, in some order. *)
Record MouseTracker : Type := mkTracker {
  prev_x : Z;
  prev_y : Z;
  delta_x : Z;
  delta_y : Z;
  is_tracking : bool
}.

(** [__init__] *)
Definition new_tracker : MouseTracker := mkTracker 0 0 0 0 false.

Definition on_move (x y : Z) (t : MouseTracker) : MouseTracker :=
  mkTracker x y (delta_x t + (x - prev_x t)) (delta_y t + (y - prev_y t))
            (is_tracking t).

(** [start_tracking], given the pointer position that [self.mouse.position]
    reports. *)
Definition start_tracking (position : Z * Z) (t : MouseTracker)
    : MouseTracker :=
  if is_tracking t then t
  else mkTracker (fst position) (snd position) (delta_x t) (delta_y t) true.

Definition stop_tracking (t : MouseTracker) : MouseTracker :=
  mkTracker (prev_x t) (prev_y t) (delta_x t) (delta_y t) false.

Definition get_and_reset_deltas (t : MouseTracker) : (Z * Z) * MouseTracker :=
  ((delta_x t, delta_y t),
   mkTracker (prev_x t) (prev_y t) 0 0 (is_tracking t)).

(** What reaches a tracker: a callback of the listener or a call of the
    main loop. *)
Inductive tracker_call : Type :=
| Move (x y : Z)
| Drain.

(** A sequence of calls; the result lists what the [Drain] calls returned,
    in order. *)
Fixpoint run_tracker (calls : list tracker_call) (t : MouseTracker)
    : list (Z * Z) * MouseTracker :=
  match calls with
  | [] => ([], t)
  | Move x y :: rest => run_tracker rest (on_move x y t)
  | Drain :: rest =>
    let (d, t') := get_and_reset_deltas t in
    let (ds, t'') := run_tracker rest t' in
    (d :: ds, t'')
  end.

Definition total (l : list Z) : Z := fold_right Z.add 0 l.

(** The largest float that is not above three half turns. *)
Definition THREE_HALF_TAU : float := S754_finite false 5305678307958708 (-49).

(** ** The main loop *)

(** [sensitivity = 50.0], the setting of [main]. *)
Definition main_sensitivity : float := Eval vm_compute in float_of_Z 50.

(** How one pass through the body of the main loop ends: with the short
    sleep, with the exception it caught (printed, then a sleep of one
    second), or inside [psp_mohh1_inject] for good. *)
Inductive pass_end : Type :=
| Slept
| Retried (e : exn)
| Hung.

Section MainLoop.

Context {F : Type} `{MemStream F}.

(** [psp_mohh1_inject] on [int] deltas that do not fit a float: the
    conversion that the first product applies to its [int] operand raises
    [OverflowError], after the four reads. *)
Definition reads_then_overflow : M F unit :=
  guarded (print MsgBaseNotEstablished)
    (fun _ =>
       bind (read_pointer MOHH1_CAMBASE_PTR) (fun cam_base =>
       if cam_base =? 0 then ret tt else
       bind (read_float (cam_base + MOHH1_FOV)) (fun _ =>
       bind (read_float (cam_base + MOHH1_CAMX)) (fun _ =>
       bind (read_float (cam_base + MOHH1_CAMY)) (fun _ =>
       raise OverflowError))))).

(** [psp_mohh1_inject(dx, dy, sensitivity, False)] as [main] calls it, with
    the [int] deltas of the tracker: where they enter a float product they
    are converted to the nearest float. *)
Definition inject_ints (fuel : nat) (dx dy : Z) (sensitivity : float)
    : M F unit :=
  if is_finite (float_of_Z dx) && is_finite (float_of_Z dy)
  then psp_mohh1_inject fuel (float_of_Z dx) (float_of_Z dy) sensitivity false
  else reads_then_overflow.

(** The body of [while running:]. *)
Definition main_pass (fuel : nat) (t : MouseTracker) (st : ProcessMemory F)
    : pass_end * MouseTracker * ProcessMemory F :=
  let (d, t') := get_and_reset_deltas t in
  if negb (fst d =? 0) || negb (snd d =? 0) then
    match inject_ints fuel (fst d) (snd d) main_sensitivity st with
    | (Return _, st') => (Slept, t', st')
    | (Raise e, st') => (Retried e, t', st')
    | (Spinning, st') => (Hung, t', st')
    end
  else (Slept, t', st).

(** The loop under a schedule of listener callbacks ([Move]) and passes
    ([Drain]); a pass that hangs is the last one. *)
Fixpoint main_loop (fuel : nat) (calls : list tracker_call)
    (t : MouseTracker) (st : ProcessMemory F)
    : list pass_end * MouseTracker * ProcessMemory F :=
  match calls with
  | [] => ([], t, st)
  | Move x y :: rest => main_loop fuel rest (on_move x y t) st
  | Drain :: rest =>
    match main_pass fuel t st with
    | (Hung, t', st') => ([Hung], t', st')
    | (r, t', st') =>
      let '(rs, t'', st'') := main_loop fuel rest t' st' in
      (r :: rs, t'', st'')
    end
  end.

End MainLoop.

(** The passes of a schedule. *)
Definition passes (calls : list tracker_call) : nat :=
  List.length (filter (fun c => match c with Drain => true | _ => false end)
                 calls).

(** ** [hexdump] *)

Section Hexdump.

Import Ascii.

(** The digits of [format(_, 'x')]. *)
Definition hex_digit (d : Z) : ascii :=
  nth (Z.to_nat d)
    ["0"; "1"; "2"; "3"; "4"; "5"; "6"; "7"; "8"; "9";
     "a"; "b"; "c"; "d"; "e"; "f"]%char "0"%char.

Fixpoint hex_digits (fuel : nat) (n : Z) (acc : string) : string :=
  match fuel with
  | O => acc
  | Datatypes.S k =>
    let acc' := String (hex_digit (n mod 16)) acc in
    if n / 16 =? 0 then acc' else hex_digits k (n / 16) acc'
  end.

(** [format(n, 'x')] for [0 <= n]. *)
Definition hex (n : Z) : string :=
  hex_digits (Datatypes.S (Z.to_nat (Z.log2 n))) n EmptyString.

Fixpoint repeat_char (c : ascii) (k : nat) : string :=
  match k with
  | O => EmptyString
  | Datatypes.S k' => String c (repeat_char c k')
  end.

(** [format(n, '0<width>x')]: the sign, then zeros, then the digits. *)
Definition format_0x (width : nat) (n : Z) : string :=
  if n <? 0 then
    String "-"%char
      (repeat_char "0"%char (width - 1 - String.length (hex (- n)))
       ++ hex (- n))%string
  else
    (repeat_char "0"%char (width - String.length (hex n)) ++ hex n)%string.

(** [format(s, '<<width>')] *)
Definition ljust (width : nat) (s : string) : string :=
  (s ++ repeat_char " "%char (width - String.length s))%string.

(** [chr(b) if 32 <= b <= 126 else '.'] *)
Definition printable (b : byte) : ascii :=
  if (32 <=? Z_of_byte b) && (Z_of_byte b <=? 126) then ascii_of_byte b
  else "."%char.

(** [''.join(...)] of single characters. *)
Definition string_of_chars (l : list ascii) : string :=
  fold_right String EmptyString l.

(** One line of the dump: [f"{address + i:08x}  {hex_str:<48}  {ascii_str}"]. *)
Definition hexdump_line (chunk : bytes) (address : Z) : string :=
  let hex_str :=
    String.concat " " (map (fun b => format_0x 2 (Z_of_byte b)) chunk) in
  let ascii_str := string_of_chars (map printable chunk) in
  (format_0x 8 address ++ "  " ++ ljust 48 hex_str ++ "  " ++ ascii_str)%string.

(** The lines for [i] in [range(0, len(data), 16)], from the chunk at
    [data] on, which is shown at [address]. *)
Fixpoint hexdump_lines (fuel : nat) (data : bytes) (address : Z)
    : list string :=
  match fuel with
  | O => []
  | Datatypes.S k =>
    match data with
    | [] => []
    | _ =>
      hexdump_line (firstn 16 data) address
        :: hexdump_lines k (skipn 16 data) (address + 16)
    end
  end.

Definition hexdump (data : bytes) (address : Z) : string :=
  String.concat (String "010"%char EmptyString)
    (hexdump_lines (List.length data) data address).

(** The number a string of hexadecimal digits spells. *)
Definition hex_digit_value (c : ascii) : Z :=
  let n := Z.of_N (N_of_ascii c) in
  if (48 <=? n) && (n <=? 57) then n - 48
  else if (97 <=? n) && (n <=? 102) then n - 87
  else 0.

Fixpoint hex_value_from (acc : Z) (s : string) : Z :=
  match s with
  | EmptyString => acc
  | String c rest => hex_value_from (16 * acc + hex_digit_value c) rest
  end.

Definition hex_value (s : string) : Z := hex_value_from 0 s.

End Hexdump.

(** ** The first pass of [find_game_memory]

    The lines of [/proc/<pid>/maps] as the file object yields them, for text
    whose characters are below U+0100. *)

Section MapsText.

Import Ascii.























End MapsText.

(** * Properties *)

(** ** Frames: what a call leaves alone *)

Section Frames.

Context {F : Type} `{MemStream F}.

Lemma reads_only_refl (st : ProcessMemory F) : reads_only st st.
Proof.
  repeat split; exists []; rewrite app_nil_r; auto.
Qed.

Lemma reads_only_trans (st1 st2 st3 : ProcessMemory F) :
  reads_only st1 st2 -> reads_only st2 st3 -> reads_only st1 st3.
Proof.
  intros (m1 & t1 & b1 & e1 & a1 & r1) (m2 & t2 & b2 & e2 & a2 & r2).
  repeat split; try congruence.
  exists (e1 ++ e2). rewrite a2, a1, app_assoc, forallb_app, r1, r2. auto.
Qed.

Lemma same_base_refl (st : ProcessMemory F) : same_base st st.
Proof. reflexivity. Qed.

Lemma same_base_trans (st1 st2 st3 : ProcessMemory F) :
  same_base st1 st2 -> same_base st2 st3 -> same_base st1 st3.
Proof. unfold same_base; congruence. Qed.

Lemma reads_only_same_base (st st' : ProcessMemory F) :
  reads_only st st' -> same_base st st'.
Proof. intros (_ & _ & b & _); exact b. Qed.

Section Closure.

Variable R : ProcessMemory F -> ProcessMemory F -> Prop.
Hypothesis R_refl : forall st, R st st.
Hypothesis R_trans : forall a b c, R a b -> R b c -> R a c.

Lemma preserves_ret {A} (a : A) : preserves R (ret a).
Proof. intro st; apply R_refl. Qed.

Lemma preserves_raise {A} (e : exn) : preserves R (@raise F A e).
Proof. intro st; apply R_refl. Qed.

Lemma preserves_bind {A B} (m : M F A) (k : A -> M F B) :
  preserves R m -> (forall a, preserves R (k a)) -> preserves R (bind m k).
Proof.
  intros Hm Hk st. unfold bind. specialize (Hm st).
  destruct (m st) as [[a | e |] st1]; simpl in *; auto.
  eapply R_trans; [exact Hm | apply Hk].
Qed.

Lemma preserves_try {A} (m : M F A) (h : exn -> M F A) :
  preserves R m -> (forall e, preserves R (h e)) -> preserves R (try_except m h).
Proof.
  intros Hm Hh st. unfold try_except. specialize (Hm st).
  destruct (m st) as [[a | e |] st1]; simpl in *; auto.
  eapply R_trans; [exact Hm | apply Hh].
Qed.

Lemma preserves_if {A} (c : bool) (m1 m2 : M F A) :
  preserves R m1 -> preserves R m2 -> preserves R (if c then m1 else m2).
Proof. destruct c; auto. Qed.

End Closure.

Lemma reads_only_print msg : preserves reads_only (@print F msg).
Proof.
  intro st; simpl. repeat split. exists []. rewrite app_nil_r; auto.
Qed.

Lemma reads_only_read_memory address size :
  preserves reads_only (read_memory address size).
Proof.
  intro st. unfold read_memory.
  destruct (mem_file st); [| apply reads_only_refl].
  destruct (stream_read f address size); simpl;
    repeat split; exists [EvRead address size]; auto.
Qed.

Lemma same_base_write_memory address data :
  preserves same_base (write_memory address data).
Proof.
  intro st. unfold write_memory.
  destruct (mem_file st); [| reflexivity].
  destruct (stream_write f address data) as [f' [e |]]; reflexivity.
Qed.

Lemma base_of_same (st st' : ProcessMemory F) :
  same_base st st' -> base_of st' = base_of st.
Proof. unfold same_base, base_of. intros ->. reflexivity. Qed.

Lemma preserves_guarded R {A} (absent : M F A) (present : Z -> M F A) :
  preserves R absent -> (forall b, preserves R (present b)) ->
  preserves R (guarded absent present).
Proof.
  intros Ha Hp st. unfold guarded. destruct (base_of st); [apply Hp | apply Ha].
Qed.

Lemma preserves_weaken (R R' : ProcessMemory F -> ProcessMemory F -> Prop)
    {A} (m : M F A) :
  (forall st st', R st st' -> R' st st') -> preserves R m -> preserves R' m.
Proof. intros HR Hm st; apply HR, Hm. Qed.

End Frames.

Create HintDb frames.

#[export] Hint Resolve reads_only_refl reads_only_trans same_base_refl
  same_base_trans : frames.

Ltac frame_step :=
  first
    [ apply preserves_guarded
    | apply preserves_bind
    | apply preserves_try
    | apply preserves_ret
    | apply preserves_raise
    | apply reads_only_print
    | apply reads_only_read_memory
    | apply same_base_write_memory
    | apply preserves_if
    | match goal with |- preserves _ (match ?x with _ => _ end) => destruct x end
    | intro ];
  eauto with frames.

Ltac frames := repeat frame_step.

Section Accessors.

Context {F : Type} `{MemStream F}.

Lemma reads_only_read_int a n : preserves reads_only (read_int a n).
Proof. unfold read_int; frames. Qed.

Lemma reads_only_read_uint32 a : preserves reads_only (read_uint32 a).
Proof. unfold read_uint32; frames. Qed.

Lemma reads_only_read_uint16 a : preserves reads_only (read_uint16 a).
Proof. unfold read_uint16; frames. Qed.

Lemma reads_only_read_float a : preserves reads_only (read_float a).
Proof. unfold read_float; frames. Qed.

Lemma reads_only_read_pointer a : preserves reads_only (read_pointer a).
Proof. unfold read_pointer; frames. Qed.

Lemma same_base_print msg : preserves same_base (@print F msg).
Proof. intro st; reflexivity. Qed.

Lemma same_base_of_reads {A} (m : M F A) :
  preserves reads_only m -> preserves same_base m.
Proof. apply preserves_weaken, reads_only_same_base. Qed.

Lemma same_base_write_int a v n : preserves same_base (write_int a v n).
Proof. unfold write_int, to_bytes; frames. Qed.

Lemma same_base_write_uint16 a v : preserves same_base (write_uint16 a v).
Proof.
  unfold write_uint16, to_bytes; frames; apply same_base_print.
Qed.

Lemma same_base_write_float a v : preserves same_base (write_float a v).
Proof.
  unfold write_float; frames; apply same_base_print.
Qed.

(** ** The region scanner *)

Lemma size_test_agrees r :
  (size r >=? MIN_SIZE) && size_close (size r) = size_ok r.
Proof.
  unfold size_ok, size_close, MIN_SIZE, TARGET_SIZE.
  rewrite Z.geb_leb. f_equal.
  apply Bool.eq_true_iff_eq. rewrite !Z.leb_le. lia.
Qed.

Lemma probe_spec r st :
  let accepted := content_ok (mem_file st) r in
  let st' := snd (probe r st) in
  fst (probe r st) = Return (if accepted then Some (start r) else None) /\
  mem_file st' = mem_file st /\
  maps_file st' = maps_file st /\
  game_memory_base st' =
    (if accepted then Some (start r) else game_memory_base st) /\
  accesses st' =
    accesses st ++
      match mem_file st with Some _ => [EvRead (start r) 4] | None => [] end.
Proof.
  unfold probe, try_except, bind, read_memory, content_ok, first_bytes.
  destruct (mem_file st) as [f |] eqn:Hf; simpl;
    [| rewrite app_nil_r; auto].
  destruct (stream_read f (start r) 4) as [e | data]; simpl; [auto |].
  destruct data as [| b0 [| b1 rest]]; simpl; [auto | |].
  - unfold nonzero_at; simpl. rewrite orb_false_r, andb_false_r.
    destruct (nonzero b0); simpl; auto.
  - unfold nonzero_at; simpl.
    destruct (nonzero b0); simpl.
    + destruct (nonzero b1); simpl; auto.
    + destruct (nonzero b1 || any_byte rest); simpl; auto.
Qed.

Lemma scan_cons r rest st :
  scan (r :: rest) st =
  if size_ok r then
    let st1 := snd (print (MsgPotentialRegion (start r) (size r)) st) in
    match probe r st1 with
    | (Return (Some a), st2) => (Return (Some a), st2)
    | (Return None, st2) => scan rest st2
    | (Raise e, st2) => (Raise e, st2)
    | (Spinning, st2) => (Spinning, st2)
    end
  else scan rest st.
Proof.
  simpl. rewrite (size_test_agrees r). destruct (size_ok r); [| reflexivity].
  unfold bind; simpl. destruct (probe r _) as [[[a |] | e |] st2]; reflexivity.
Qed.

Lemma scan_spec regions : forall st,
  let hit := find (qualifies (mem_file st)) regions in
  let st' := snd (scan regions st) in
  fst (scan regions st) = Return (option_map start hit) /\
  mem_file st' = mem_file st /\
  maps_file st' = maps_file st /\
  game_memory_base st' =
    match hit with
    | Some r => Some (start r)
    | None => game_memory_base st
    end /\
  accesses st' = accesses st ++ probes (mem_file st) regions.
Proof.
  induction regions as [| r rest IH]; intro st.
  - simpl. unfold probes; destruct (mem_file st); simpl; rewrite app_nil_r; auto.
  - rewrite scan_cons. cbv zeta. unfold probes. simpl find. simpl upto.
    assert (Hq : qualifies (mem_file st) r
                 = size_ok r && content_ok (mem_file st) r) by reflexivity.
    rewrite !Hq. clear Hq.
    destruct (size_ok r) eqn:Hs; cbn [andb].
    + set (st1 := snd (print (MsgPotentialRegion (start r) (size r)) st)).
      assert (Hm1 : mem_file st1 = mem_file st) by reflexivity.
      assert (Ht1 : maps_file st1 = maps_file st) by reflexivity.
      assert (Hb1 : game_memory_base st1 = game_memory_base st) by reflexivity.
      assert (Ha1 : accesses st1 = accesses st) by reflexivity.
      destruct (probe_spec r st1) as (Hr & Hm & Ht & Hb & Ha).
      rewrite Hm1, ?Hb1, ?Ha1, ?Ht1 in *. clearbody st1.
      destruct (probe r st1) as [res st2]; cbn [fst snd] in *.
      subst res.
      destruct (content_ok (mem_file st) r) eqn:Hc; cbn [fst snd option_map].
      * repeat split; auto. rewrite Ha.
        destruct (mem_file st); simpl; auto.
        rewrite Hs. reflexivity.
      * specialize (IH st2). cbv zeta in IH. rewrite Hm in IH.
        destruct IH as (Ir & Im & It & Ib & Ia).
        repeat split; auto; try congruence.
        { rewrite Ib, Hb. reflexivity. }
        rewrite Ia, Ha, <- app_assoc. f_equal. unfold probes.
        destruct (mem_file st); simpl; auto.
        rewrite Hs. reflexivity.
    + specialize (IH st). destruct IH as (Ir & Im & It & Ib & Ia).
      repeat split; auto. rewrite Ia. f_equal. unfold probes.
      destruct (mem_file st); simpl; auto.
      rewrite Hs. reflexivity.
Qed.


Lemma same_base_find_miss st :
  match fst (find_game_memory st) with
  | Return (Some a) => game_memory_base (snd (find_game_memory st)) = Some a
  | _ => same_base st (snd (find_game_memory st))
  end.
Proof.
  unfold find_game_memory.
  destruct (maps_file st) as [regions |]; [| reflexivity].
  set (st1 := snd (print MsgScanning st)).
  change (bind (print MsgScanning) (fun _ => scan regions) st)
    with (scan regions st1).
  destruct (scan_spec regions st1) as (Hr & _ & _ & Hb & _).
  rewrite Hr.
  destruct (find (qualifies (mem_file st1)) regions); simpl;
    unfold same_base; rewrite Hb; reflexivity.
Qed.


Lemma same_base_inject fuel xmouse ymouse sensitivity invertpitch :
  preserves same_base
    (psp_mohh1_inject fuel xmouse ymouse sensitivity invertpitch).
Proof.
  unfold psp_mohh1_inject. apply preserves_guarded; [apply same_base_print |].
  intros _. apply preserves_bind; eauto with frames.
  { apply same_base_of_reads, reads_only_read_pointer. }
  intro cam_base. destruct (cam_base =? 0).
  { apply preserves_ret; eauto with frames. }
  apply preserves_bind; eauto with frames.
  { apply same_base_of_reads, reads_only_read_float. }
  intro fov. destruct (feq xmouse f_0 && feq ymouse f_0).
  { apply preserves_ret; eauto with frames. }
  apply preserves_bind; eauto with frames.
  { apply same_base_of_reads, reads_only_read_float. }
  intro cam_x. apply preserves_bind; eauto with frames.
  { apply same_base_of_reads, reads_only_read_float. }
  intro cam_y. cbv zeta.
  destruct (normalize_yaw _ _); [| intro st; reflexivity].
  apply preserves_bind; eauto with frames; intros; apply same_base_write_float.
Qed.

(** ** The accessors *)

(** C5.  With the base established, [read_pointer] at an offset whose four
    bytes are [data] returns 0 when they decode to 0 and the decoded value
    minus [0x08000000] otherwise, after one 4-byte read at base + offset. *)
Theorem read_pointer_rebases :
  forall (st : ProcessMemory F) (f : F) (base address : Z) (data : bytes),
    mem_file st = Some f ->
    game_memory_base st = Some base ->
    base <> 0 ->
    stream_read f (base + address) 4 = inr data ->
    let raw := int_from_bytes data in
    read_uint32 address st
      = (Return raw, log_access (EvRead (base + address) 4) st) /\
    read_pointer address st
      = (Return (if raw =? 0 then 0 else raw - 0x08000000),
         log_access (EvRead (base + address) 4) st).
Proof.
  intros st f base address data Hf Hb Hnz Hrd raw.
  assert (Hbase : base_of st = Some base).
  { unfold base_of. rewrite Hb. destruct (Z.eqb_spec base 0); congruence. }
  assert (Hu : read_uint32 address st
               = (Return raw, log_access (EvRead (base + address) 4) st)).
  { unfold read_uint32, guarded. rewrite Hbase.
    unfold read_int, bind, read_memory. rewrite Hf, Hrd. reflexivity. }
  split; [exact Hu |].
  unfold read_pointer, guarded. rewrite Hbase. unfold bind. rewrite Hu.
  destruct (raw =? 0); reflexivity.
Qed.


(** C7.  While the base is not established ([None], or the falsy 0), every
    accessor and the injection engine print the error line and return their
    default without raising; nothing reaches the memory file. *)
Theorem unestablished_base_is_noop :
  forall (st : ProcessMemory F) (address value : Z) (v : float)
         (fuel : nat) (dx dy sensitivity : float) (invertpitch : bool),
    base_of st = None ->
    let st' := snd (print MsgBaseNotEstablished st) in
    read_uint32 address st = (Return 0, st') /\
    read_uint16 address st = (Return 0, st') /\
    read_pointer address st = (Return 0, st') /\
    read_float address st = (Return f_0, st') /\
    write_uint16 address value st = (Return tt, st') /\
    write_float address v st = (Return tt, st') /\
    psp_mohh1_inject fuel dx dy sensitivity invertpitch st = (Return tt, st') /\
    accesses st' = accesses st /\
    mem_file st' = mem_file st /\
    stdout st' = stdout st ++ [MsgBaseNotEstablished].
Proof.
  intros st address value v fuel dx dy sensitivity invertpitch Hb st'.
  unfold read_uint32, read_uint16, read_pointer, read_float, write_uint16,
    write_float, psp_mohh1_inject, guarded.
  rewrite Hb. repeat split.
Qed.


(** C9.  No failure path touches the base.  [find_game_memory] sets it to
    the address it returns and leaves it as it was when it returns
    not-found; the raw and typed reads and writes, the pointer dereference
    and the injection tick leave it as it was, however they end. *)
Theorem base_only_set_by_discovery :
  (forall st : ProcessMemory F,
     match fst (find_game_memory st) with
     | Return (Some a) =>
       game_memory_base (snd (find_game_memory st)) = Some a
     | _ => game_memory_base (snd (find_game_memory st)) = game_memory_base st
     end) /\
  (forall (st : ProcessMemory F) (address count value : Z) (n : nat)
          (data : bytes) (v : float) (fuel : nat)
          (dx dy sensitivity : float) (invertpitch : bool),
     let unchanged {A} (m : M F A) :=
       game_memory_base (snd (m st)) = game_memory_base st in
     unchanged (read_memory address count) /\
     unchanged (write_memory address data) /\
     unchanged (read_int address count) /\
     unchanged (write_int address value n) /\
     unchanged (read_uint32 address) /\
     unchanged (read_uint16 address) /\
     unchanged (read_float address) /\
     unchanged (write_uint16 address value) /\
     unchanged (write_float address v) /\
     unchanged (read_pointer address) /\
     unchanged (psp_mohh1_inject fuel dx dy sensitivity invertpitch)).
Proof.
  split.
  - intro st. apply same_base_find_miss.
  - intros. subst unchanged. cbv beta.
    repeat split.
    + apply (same_base_of_reads _ (reads_only_read_memory address count)).
    + apply same_base_write_memory.
    + apply (same_base_of_reads _ (reads_only_read_int address count)).
    + apply same_base_write_int.
    + apply (same_base_of_reads _ (reads_only_read_uint32 address)).
    + apply (same_base_of_reads _ (reads_only_read_uint16 address)).
    + apply (same_base_of_reads _ (reads_only_read_float address)).
    + apply same_base_write_uint16.
    + apply same_base_write_float.
    + apply (same_base_of_reads _ (reads_only_read_pointer address)).
    + apply same_base_inject.
Qed.

End Accessors.

(** ** Float facts used by the camera update *)

Lemma binary_round_aux_negb s m e l :
  binary_round_aux prec emax (negb s) m e l
  = SFopp (binary_round_aux prec emax s m e l).
Proof.
  unfold binary_round_aux.
  destruct (shr_fexp prec emax m e l) as [mrs e'].
  destruct (shr_fexp prec emax _ e' loc_Exact) as [mrs' e''].
  destruct (shr_m mrs'); try reflexivity.
  destruct (e'' <=? emax - prec); reflexivity.
Qed.

Lemma fmul_fneg_l x y : fmul (fneg x) y = fneg (fmul x y).
Proof.
  destruct x as [sx | sx | | sx mx ex], y as [sy | sy | | sy my ey];
    simpl; try reflexivity;
    try (destruct sx, sy; reflexivity).
  rewrite <- binary_round_aux_negb. f_equal. destruct sx, sy; reflexivity.
Qed.

Lemma fdiv_fneg_l x y : fdiv (fneg x) y = fneg (fdiv x y).
Proof.
  destruct x as [sx | sx | | sx mx ex], y as [sy | sy | | sy my ey];
    simpl; try reflexivity;
    try (destruct sx, sy; reflexivity).
  destruct (SFdiv_core_binary prec emax (Z.pos mx) ex (Z.pos my) ey)
    as [[mz ez] lz].
  rewrite <- binary_round_aux_negb. f_equal. destruct sx, sy; reflexivity.
Qed.

Lemma fsub_fneg_r x y : fsub x (fneg y) = fadd x y.
Proof.
  destruct x as [sx | sx | | sx mx ex], y as [sy | sy | | sy my ey];
    simpl; try reflexivity;
    try (destruct sx, sy; reflexivity);
    try (destruct sy; reflexivity).
Qed.

Lemma look_delta_fneg mouse sensitivity fov :
  look_delta (fneg mouse) sensitivity fov
  = fneg (look_delta mouse sensitivity fov).
Proof.
  unfold look_delta. rewrite !fmul_fneg_l, fdiv_fneg_l, fmul_fneg_l.
  reflexivity.
Qed.

(** ** The camera update *)

(** The two assignments in closed form: the yaw loses
    [dx * (sensitivity / 20.0) / 20000.0 * fov]; the pitch loses the same
    expression in [dy], or gains it under [invertpitch], where the code
    subtracts the expression in [-dy].  The scenario of the specification
    evaluates to the float -0.9375, already inside the normalization
    range. *)
Lemma camera_update_formulas :
  (forall dx dy sensitivity fov yaw pitch : float,
     let step d := fmul (fdiv (fmul d (fdiv sensitivity f_20)) f_20000) fov in
     new_cam_x dx sensitivity fov yaw = fsub yaw (step dx) /\
     new_cam_y dy sensitivity false fov pitch = fsub pitch (step dy) /\
     new_cam_y dy sensitivity true fov pitch = fadd pitch (step dy)) /\
  new_cam_x (float_of_Z 100) (float_of_Z 50) (float_of_Z 75) f_0
  = fneg (decimal 9375 4) /\
  normalize_yaw 0 (fneg (decimal 9375 4)) = Some (fneg (decimal 9375 4)).
Proof.
  split; [| split; vm_compute; reflexivity].
  intros dx dy sensitivity fov yaw pitch step. repeat split.
  unfold new_cam_y. simpl negb. cbv iota.
  rewrite look_delta_fneg, fsub_fneg_r. reflexivity.
Qed.

(** ** Ordering of floats and the pitch clamp *)

Lemma SFcompare_antisym x y :
  SFcompare y x = option_map CompOpp (SFcompare x y).
Proof.
  destruct x as [sx | sx | | sx mx ex], y as [sy | sy | | sy my ey];
    simpl; try reflexivity;
    try (destruct sx; reflexivity);
    try (destruct sy; reflexivity);
    try (destruct sx, sy; reflexivity).
  f_equal. rewrite (Z.compare_antisym ex ey).
  pose proof (Pos.compare_cont_antisym mx my Eq) as Ha. simpl in Ha.
  destruct sx, sy; try reflexivity;
    destruct (ex ?= ey); simpl; try reflexivity;
    rewrite <- Ha; try rewrite CompOpp_involutive; reflexivity.
Qed.

Lemma SFcompare_none x y :
  SFcompare x y = None -> is_nan x = true \/ is_nan y = true.
Proof.
  destruct x, y; simpl; auto; discriminate.
Qed.

(** Without NaN, "not above" is "below or equal". *)
Lemma not_flt_fle x y :
  is_nan x = false -> is_nan y = false -> flt y x = false -> fle x y = true.
Proof.
  unfold flt, fle, SFltb, SFleb. intros Hx Hy.
  rewrite (SFcompare_antisym x y).
  destruct (SFcompare x y) as [[| |] |] eqn:Hc; simpl; auto.
  destruct (SFcompare_none _ _ Hc); congruence.
Qed.

(** C3, as the code has it.  For a pre-clamp pitch that is not NaN the
    value the engine hands to [write_float] lies between [-1.483529806] and
    [1.483529806], both included; 2.0 becomes the float 1.483529806 itself
    and a value inside the range is left as it is.  A NaN pitch is not
    clamped: it stays NaN. *)
Theorem clamp_pitch_bounds :
  (forall cam_y : float,
     is_nan cam_y = false ->
     fle (fneg PITCH_LIMIT) (clamp_pitch cam_y) = true /\
     fle (clamp_pitch cam_y) PITCH_LIMIT = true /\
     (fle (fneg PITCH_LIMIT) cam_y = true ->
      fle cam_y PITCH_LIMIT = true -> clamp_pitch cam_y = cam_y)) /\
  clamp_pitch (float_of_Z 2) = PITCH_LIMIT /\
  clamp_pitch S754_nan = S754_nan.
Proof.
  split; [| split; reflexivity].
  intros y Hy. unfold clamp_pitch, py_min, py_max, fgt.
  destruct (flt PITCH_LIMIT y) eqn:Hhi.
  - repeat split; try reflexivity.
    intros _ Hle. exfalso. revert Hhi Hle. unfold flt, fle, SFltb, SFleb.
    rewrite (SFcompare_antisym y PITCH_LIMIT).
    destruct (SFcompare y PITCH_LIMIT) as [[| |] |]; simpl; discriminate.
  - destruct (SFltb y (fneg PITCH_LIMIT)) eqn:Hlo.
    + repeat split; try reflexivity.
      intros Hge _. exfalso. revert Hlo Hge. unfold fle, SFltb, SFleb.
      rewrite (SFcompare_antisym y (fneg PITCH_LIMIT)).
      destruct (SFcompare y (fneg PITCH_LIMIT)) as [[| |] |]; simpl;
        discriminate.
    + repeat split.
      * apply not_flt_fle; auto.
      * apply not_flt_fle; auto.
Qed.

(** ** One tick of the engine, end to end *)

Section Tick.

Context {F : Type} `{MemStream F}.

(** A tick whose four reads succeed and whose deltas are not both zero:
    what enters the normalization and what is written. *)
Lemma inject_run :
  forall (st st1 st2 st3 st4 : ProcessMemory F) (fuel : nat)
         (dx dy sensitivity : float) (invertpitch : bool)
         (cam_base : Z) (fov yaw pitch : float),
    base_of st <> None ->
    read_pointer MOHH1_CAMBASE_PTR st = (Return cam_base, st1) ->
    cam_base <> 0 ->
    read_float (cam_base + MOHH1_FOV) st1 = (Return fov, st2) ->
    feq dx f_0 && feq dy f_0 = false ->
    read_float (cam_base + MOHH1_CAMX) st2 = (Return yaw, st3) ->
    read_float (cam_base + MOHH1_CAMY) st3 = (Return pitch, st4) ->
    let step d := fmul (fdiv (fmul d (fdiv sensitivity f_20)) f_20000) fov in
    let new_yaw := fsub yaw (step dx) in
    let new_pitch :=
      if invertpitch then fadd pitch (step dy) else fsub pitch (step dy) in
    psp_mohh1_inject fuel dx dy sensitivity invertpitch st =
      match normalize_yaw fuel new_yaw with
      | None => (Spinning, st4)
      | Some cam_x =>
        bind (write_float (cam_base + MOHH1_CAMX) cam_x)
             (fun _ => write_float (cam_base + MOHH1_CAMY)
                         (clamp_pitch new_pitch)) st4
      end.
Proof.
  intros st st1 st2 st3 st4 fuel dx dy sensitivity invertpitch cam_base
    fov yaw pitch Hb Hp Hc Hf Hd Hx Hy step new_yaw new_pitch.
  destruct camera_update_formulas as (Hform & _ & _).
  destruct (Hform dx dy sensitivity fov yaw pitch) as (Ex & Ey & Ei).
  unfold psp_mohh1_inject, guarded.
  destruct (base_of st); [| congruence].
  unfold bind at 1. rewrite Hp. cbv beta iota.
  destruct (Z.eqb_spec cam_base 0) as [| _]; [contradiction |].
  unfold bind at 1. rewrite Hf. cbv beta iota. rewrite Hd.
  unfold bind at 1. rewrite Hx. cbv beta iota.
  unfold bind at 1. rewrite Hy. cbv beta iota zeta.
  rewrite Ex.
  replace (new_cam_y dy sensitivity invertpitch fov pitch) with new_pitch
    by (subst new_pitch; destruct invertpitch; [rewrite Ei | rewrite Ey];
        reflexivity).
  subst new_yaw step. cbv beta.
  destruct (normalize_yaw fuel _); reflexivity.
Qed.

(** C1.  When the camera pointer, the field of view, the yaw and the pitch
    are read successfully and the deltas are not both zero, a tick goes on
    with yaw [yaw - dx * (sensitivity / 20.0) / 20000.0 * fov] into the
    normalization and writes the clamp of
    [pitch - dy * (sensitivity / 20.0) / 20000.0 * fov], or of
    [pitch + ...] under [invert_pitch]; every operation is rounded as
    Python rounds it.  With sensitivity 50.0, fov 75.0, dx 100 and yaw 0.0
    the yaw before normalization is the float -0.9375, which the
    normalization leaves as it is. *)
Theorem inject_computes_update :
  forall (st st1 st2 st3 st4 : ProcessMemory F) (fuel : nat)
         (dx dy sensitivity : float) (invertpitch : bool)
         (cam_base : Z) (fov yaw pitch : float),
    base_of st <> None ->
    read_pointer MOHH1_CAMBASE_PTR st = (Return cam_base, st1) ->
    cam_base <> 0 ->
    read_float (cam_base + MOHH1_FOV) st1 = (Return fov, st2) ->
    feq dx f_0 && feq dy f_0 = false ->
    read_float (cam_base + MOHH1_CAMX) st2 = (Return yaw, st3) ->
    read_float (cam_base + MOHH1_CAMY) st3 = (Return pitch, st4) ->
    let step d := fmul (fdiv (fmul d (fdiv sensitivity f_20)) f_20000) fov in
    let new_yaw := fsub yaw (step dx) in
    let new_pitch :=
      if invertpitch then fadd pitch (step dy) else fsub pitch (step dy) in
    psp_mohh1_inject fuel dx dy sensitivity invertpitch st =
      match normalize_yaw fuel new_yaw with
      | None => (Spinning, st4)
      | Some cam_x =>
        bind (write_float (cam_base + MOHH1_CAMX) cam_x)
             (fun _ => write_float (cam_base + MOHH1_CAMY)
                         (clamp_pitch new_pitch)) st4
      end /\
    (sensitivity = float_of_Z 50 -> fov = float_of_Z 75 ->
     dx = float_of_Z 100 -> yaw = f_0 ->
     new_yaw = fneg (decimal 9375 4) /\
     normalize_yaw fuel new_yaw = Some new_yaw).
Proof.
  intros st st1 st2 st3 st4 fuel dx dy sensitivity invertpitch cam_base
    fov yaw pitch Hb Hp Hc Hf Hd Hx Hy step new_yaw new_pitch.
  split.
  - exact (inject_run st st1 st2 st3 st4 fuel dx dy sensitivity invertpitch
             cam_base fov yaw pitch Hb Hp Hc Hf Hd Hx Hy).
  - intros -> -> -> ->. subst new_yaw step. cbv beta.
    destruct camera_update_formulas as (Hform & Hx0 & _).
    destruct (Hform (float_of_Z 100) dy (float_of_Z 50) (float_of_Z 75)
                f_0 pitch) as (Ex & _).
    cbv zeta in Ex. rewrite <- Ex, Hx0.
    split; [reflexivity |].
    destruct fuel; vm_compute; reflexivity.
Qed.

End Tick.

(** ** Rounding to 53 bits *)

Lemma digits2_pos_size p : digits2_pos p = Pos.size p.
Proof. induction p; simpl; congruence. Qed.

Lemma digits2_bounds p :
  2 ^ (Zpos (digits2_pos p) - 1) <= Zpos p < 2 ^ Zpos (digits2_pos p).
Proof.
  rewrite digits2_pos_size.
  pose proof (Pos.size_gt p) as Hgt. pose proof (Pos.size_le p) as Hle.
  split.
  - assert (2 ^ Zpos (Pos.size p) <= 2 * Zpos p).
    { change (2 * Zpos p) with (Zpos p~0). rewrite <- Pos2Z.inj_pow.
      apply Pos2Z.pos_le_pos. exact Hle. }
    replace (Zpos (Pos.size p)) with (Z.succ (Zpos (Pos.size p) - 1)) in H by lia.
    rewrite Z.pow_succ_r in H by lia. lia.
  - rewrite <- Pos2Z.inj_pow. apply Pos2Z.pos_lt_pos. exact Hgt.
Qed.

(** The digit count is determined by the two bounds. *)
Lemma digits2_unique p d :
  2 ^ (d - 1) <= Zpos p < 2 ^ d -> Zpos (digits2_pos p) = d.
Proof.
  intros [Hlo Hhi]. pose proof (digits2_bounds p) as [Plo Phi].
  set (d' := Zpos (digits2_pos p)) in *.
  assert (0 < d) by (destruct d; try lia; simpl in Hhi; lia).
  destruct (Z.lt_trichotomy d d') as [Hlt | [Heq | Hgt]]; [| lia |].
  - assert (2 ^ d <= 2 ^ (d' - 1)) by (apply Z.pow_le_mono_r; lia). lia.
  - assert (2 ^ d' <= 2 ^ (d - 1)) by (apply Z.pow_le_mono_r; lia). lia.
Qed.

Lemma iter_pos_nat {A} (f : A -> A) p : forall x,
  iter_pos f p x = Nat.iter (Pos.to_nat p) f x.
Proof.
  induction p as [p IH | p IH |]; intro x.
  - rewrite Pos2Nat.inj_xI.
    replace (Datatypes.S (2 * Pos.to_nat p))%nat
      with (Pos.to_nat p + (Pos.to_nat p + 1))%nat by lia.
    rewrite !Nat.iter_add. simpl. rewrite !IH. reflexivity.
  - rewrite Pos2Nat.inj_xO.
    replace (2 * Pos.to_nat p)%nat with (Pos.to_nat p + Pos.to_nat p)%nat by lia.
    rewrite Nat.iter_add. simpl. rewrite !IH. reflexivity.
  - reflexivity.
Qed.

Lemma shr_1_nonneg q r s :
  0 <= q ->
  shr_1 (Build_shr_record q r s) = Build_shr_record (q / 2) (Z.odd q) (r || s).
Proof.
  intro Hq. rewrite <- Z.div2_div.
  destruct q as [| p | p]; [reflexivity | | lia].
  destruct p; reflexivity.
Qed.

Lemma shr_after_succ M n :
  0 <= M -> 0 <= n ->
  shr_1 (shr_after M n) = shr_after M (n + 1).
Proof.
  intros HM Hn. unfold shr_after.
  assert (HP : 0 < 2 ^ n) by (apply Z.pow_pos_nonneg; lia).
  rewrite Z.pow_add_r, Z.pow_1_r by lia.
  set (P := 2 ^ n) in *.
  pose proof (Z.div_mod M P ltac:(lia)) as HMq.
  pose proof (Z.mod_pos_bound M P HP) as Hrho.
  assert (Hq0 : 0 <= M / P) by (apply Z.div_pos; lia).
  set (q := M / P) in *. set (rho := M mod P) in *.
  rewrite shr_1_nonneg by exact Hq0.
  pose proof (Z.div_mod q 2 ltac:(lia)) as Hq2.
  pose proof (Zmod_odd q) as Hodd.
  assert (Hdiv : M / (P * 2) = q / 2).
  { unfold q. rewrite Z.div_div by lia. reflexivity. }
  assert (Hmod : M mod (P * 2) = (q mod 2) * P + rho).
  { symmetry. apply (Z.mod_unique_pos M (P * 2) (q / 2)).
    - destruct (Z.odd q); nia.
    - nia. }
  rewrite Hdiv, Hmod. clearbody q rho P.
  f_equal.
  - destruct (Z.odd q); rewrite Hodd; symmetry.
    + apply Z.leb_le. lia.
    + apply Z.leb_gt. lia.
  - apply Bool.eq_true_iff_eq.
    rewrite orb_true_iff, !andb_true_iff, !negb_true_iff, !Z.eqb_neq, Z.leb_le.
    destruct (Z.odd q); rewrite Hodd; lia.
Qed.

Lemma shr_iter M (n : nat) :
  0 <= M ->
  Nat.iter n shr_1 (Build_shr_record M false false)
  = shr_after M (Z.of_nat n).
Proof.
  intro HM. induction n as [| n IH].
  - simpl. unfold shr_after. simpl.
    rewrite Z.div_1_r, Z.mod_1_r. reflexivity.
  - rewrite Nat2Z.inj_succ, Nat.iter_succ, IH.
    rewrite shr_after_succ by lia. f_equal.
Qed.

Lemma round_shr_after M n :
  0 <= n ->
  round_nearest_even (shr_m (shr_after M n))
    (loc_of_shr_record (shr_after M n)) = rne M n.
Proof.
  intro Hn. unfold shr_after, rne. cbn [shr_m loc_of_shr_record].
  assert (HP : 0 < 2 ^ n) by (apply Z.pow_pos_nonneg; lia).
  set (q := M / 2 ^ n). set (rho := M mod 2 ^ n). set (P := 2 ^ n) in *.
  clearbody q rho P.
  destruct (Z.eqb_spec rho 0) as [E0 | N0].
  - replace (P <=? 2 * rho) with false by (symmetry; apply Z.leb_gt; lia).
    reflexivity.
  - destruct (Z.compare_spec (2 * rho) P) as [E | L | G].
    + replace (P <=? 2 * rho) with true by (symmetry; apply Z.leb_le; lia).
      replace (2 * rho =? P) with true by (symmetry; apply Z.eqb_eq; lia).
      reflexivity.
    + replace (P <=? 2 * rho) with false by (symmetry; apply Z.leb_gt; lia).
      replace (2 * rho =? P) with false by (symmetry; apply Z.eqb_neq; lia).
      reflexivity.
    + replace (P <=? 2 * rho) with true by (symmetry; apply Z.leb_le; lia).
      replace (2 * rho =? P) with false by (symmetry; apply Z.eqb_neq; lia).
      reflexivity.
Qed.

(** [rne M n] is the quotient or its successor, within half a unit. *)
Lemma rne_bounds M n :
  0 <= n ->
  M / 2 ^ n <= rne M n <= M / 2 ^ n + 1 /\
  2 * Z.abs (rne M n * 2 ^ n - M) <= 2 ^ n.
Proof.
  intro Hn. unfold rne.
  assert (HP : 0 < 2 ^ n) by (apply Z.pow_pos_nonneg; lia).
  set (P := 2 ^ n) in *.
  pose proof (Z.div_mod M P ltac:(lia)) as HMq.
  pose proof (Z.mod_pos_bound M P HP) as Hrho.
  set (q := M / P) in *. set (rho := M mod P) in *. clearbody q rho P.
  destruct (Z.eqb_spec rho 0).
  - split; [lia |]. subst rho. nia.
  - destruct (Z.compare_spec (2 * rho) P).
    + destruct (Z.even q); split; try lia; nia.
    + split; [lia | nia].
    + split; [lia | nia].
Qed.

(** A multiple of [2^n] closer than half a unit is what [rne] picks. *)
Lemma rne_near M n k :
  0 <= n -> 2 * Z.abs (k * 2 ^ n - M) < 2 ^ n -> rne M n = k.
Proof.
  intros Hn Hk. destruct (rne_bounds M n Hn) as [_ Hb].
  assert (HP : 0 < 2 ^ n) by (apply Z.pow_pos_nonneg; lia).
  set (P := 2 ^ n) in *. set (c := rne M n) in *. clearbody c P.
  assert (Z.abs ((c - k) * P) < P) by lia.
  assert (Z.abs (c - k) < 1) by nia. lia.
Qed.

Lemma rne_exact M n k : 0 <= n -> M = k * 2 ^ n -> rne M n = k.
Proof.
  intros Hn ->. apply rne_near; [exact Hn |].
  assert (HP : 0 < 2 ^ n) by (apply Z.pow_pos_nonneg; lia).
  replace (k * 2 ^ n - k * 2 ^ n) with 0 by lia. simpl. lia.
Qed.

Lemma fexp_normal z : -1074 <= z - 53 -> fexp prec emax z = z - 53.
Proof. unfold fexp, SpecFloat.emin, prec, emax. lia. Qed.

(** A mantissa of exactly 53 bits passes through the rounding function. *)
Lemma binary_round_aux_canonical s m e :
  Zpos (digits2_pos m) = 53 -> -1074 <= e <= 971 ->
  binary_round_aux prec emax s (Zpos m) e loc_Exact = S754_finite s m e.
Proof.
  intros Hd He. unfold binary_round_aux, shr_fexp.
  cbn [Zdigits2 shr_record_of_loc]. rewrite Hd.
  rewrite fexp_normal by lia.
  replace (53 + e - 53 - e) with 0 by lia.
  cbn [shr shr_m loc_of_shr_record round_nearest_even Zdigits2
       shr_record_of_loc].
  rewrite Hd, fexp_normal by lia.
  replace (53 + e - 53 - e) with 0 by lia.
  cbn [shr shr_m].
  replace (e <=? emax - prec) with true
    by (symmetry; apply Z.leb_le; unfold emax, prec; lia).
  reflexivity.
Qed.

(** A mantissa of [53 + n] bits loses its [n] low bits, rounded to nearest
    even. *)
Lemma binary_round_aux_shift s m e n :
  Zpos (digits2_pos m) = 53 + n -> 0 < n ->
  -1074 <= e + n -> e + n <= 971 ->
  (rne (Zpos m) n = 2 ^ 53 -> e + n + 1 <= 971) ->
  binary_round_aux prec emax s (Zpos m) e loc_Exact
  = pack s (rne (Zpos m) n) (e + n).
Proof.
  intros Hd Hn Hlo Hhi Htop.
  pose proof (digits2_bounds m) as Hm. rewrite Hd in Hm.
  assert (HP : 0 < 2 ^ n) by (apply Z.pow_pos_nonneg; lia).
  assert (Hq : 2 ^ 52 <= Zpos m / 2 ^ n < 2 ^ 53).
  { replace (53 + n - 1) with (52 + n) in Hm by lia.
    rewrite !Z.pow_add_r in Hm by lia. split.
    - apply Z.div_le_lower_bound; lia.
    - apply Z.div_lt_upper_bound; lia. }
  destruct (rne_bounds (Zpos m) n ltac:(lia)) as [Hc _].
  set (c := rne (Zpos m) n) in *.
  unfold binary_round_aux, shr_fexp.
  cbn [Zdigits2 shr_record_of_loc]. rewrite Hd.
  rewrite fexp_normal by lia.
  replace (53 + n + e - 53 - e) with n by lia.
  destruct n as [| p | p]; try lia.
  cbn [shr]. rewrite iter_pos_nat, shr_iter by lia.
  rewrite positive_nat_Z, round_shr_after by lia. fold c.
  unfold pack.
  destruct (Z.eqb_spec c (2 ^ 53)) as [E | N].
  - specialize (Htop E). rewrite E. vm_compute (Zdigits2 (2 ^ 53)).
    rewrite fexp_normal by lia.
    replace (54 + (e + Z.pos p) - 53 - (e + Z.pos p)) with 1 by lia.
    cbn [shr iter_pos shr_record_of_loc].
    vm_compute (shr_1 _). cbn [shr_m].
    replace (e + Z.pos p + 1 <=? emax - prec) with true
      by (symmetry; apply Z.leb_le; unfold emax, prec; lia).
    reflexivity.
  - destruct c as [| cp | cp]; try lia.
    assert (Hcd : Zpos (digits2_pos cp) = 53).
    { apply digits2_unique. simpl (53 - 1). lia. }
    cbn [Zdigits2]. rewrite Hcd, fexp_normal by lia.
    replace (53 + (e + Z.pos p) - 53 - (e + Z.pos p)) with 0 by lia.
    cbn [shr shr_record_of_loc shr_m].
    replace (e + Z.pos p <=? emax - prec) with true
      by (symmetry; apply Z.leb_le; unfold emax, prec; lia).
    reflexivity.
Qed.

Lemma iter_xO_pow m d : Zpos (Pos.iter xO m d) = Zpos m * 2 ^ Zpos d.
Proof.
  induction d as [| d IH] using Pos.peano_ind.
  - simpl. lia.
  - rewrite Pos.iter_succ, Pos2Z.inj_xO, IH, Pos2Z.inj_succ, Z.pow_succ_r by lia.
    lia.
Qed.

Lemma shl_align_fst m e e' :
  e' <= e -> Zpos (fst (shl_align m e e')) = Zpos m * 2 ^ (e - e').
Proof.
  intro Hle. unfold shl_align.
  destruct (e' - e) as [| d | d] eqn:Hd; try lia; cbn [fst].
  - replace (e - e') with 0 by lia. lia.
  - rewrite iter_xO_pow. f_equal. f_equal. lia.
Qed.

Lemma digits2_shift m k :
  0 <= k ->
  forall m', Zpos m' = Zpos m * 2 ^ k ->
  Zpos (digits2_pos m') = Zpos (digits2_pos m) + k.
Proof.
  intros Hk m' Hm'. apply digits2_unique. rewrite Hm'.
  pose proof (digits2_bounds m) as [Hlo Hhi].
  assert (HP : 0 < 2 ^ k) by (apply Z.pow_pos_nonneg; lia).
  replace (Zpos (digits2_pos m) + k - 1) with (Zpos (digits2_pos m) - 1 + k)
    by lia.
  assert (0 < Zpos (digits2_pos m)) by lia.
  rewrite !Z.pow_add_r by lia. nia.
Qed.

Lemma nice_pack s c e :
  2 ^ 52 <= c <= 2 ^ 53 -> -103 <= e -> e <= 971 ->
  (c = 2 ^ 53 -> e + 1 <= 971) ->
  nice (pack s c e) /\ scaled (pack s c e) = cond_Zopp s (c * 2 ^ (e + 103)).
Proof.
  intros Hc Hlo Hhi Htop. unfold pack.
  destruct (Z.eqb_spec c (2 ^ 53)) as [-> | N]; cbn [nice scaled].
  - specialize (Htop eq_refl). split; [split; [vm_compute; split; [discriminate | reflexivity] | lia] |].
    f_equal. replace (e + 1 + 103) with (e + 103 + 1) by lia.
    rewrite Z.pow_add_r by lia. change (Zpos (2 ^ 52)) with (2 ^ 52). lia.
  - assert (0 < c) by lia. rewrite Z2Pos.id by lia.
    split; [split; lia | reflexivity].
Qed.

(** [binary_round] in the normal range. *)
Lemma binary_round_spec s m e :
  let d := Zpos (digits2_pos m) in
  -51 <= e -> d + e <= 1024 ->
  (53 < d -> rne (Zpos m) (d - 53) = 2 ^ 53 -> d + e <= 1023) ->
  let r := binary_round prec emax s m e in
  nice r /\
  (d <= 53 -> scaled r = cond_Zopp s (Zpos m * 2 ^ (e + 103))) /\
  (53 < d ->
   scaled r = cond_Zopp s (rne (Zpos m) (d - 53) * 2 ^ (e + (d - 53) + 103))).
Proof.
  intros d He Hd Htop r. subst r. unfold binary_round.
  assert (Hd0 : 0 < d) by (unfold d; lia).
  fold d. rewrite fexp_normal by lia.
  destruct (Z_le_gt_dec d 53) as [Hle | Hgt].
  - (* the mantissa is widened to 53 bits, exactly *)
    pose proof (shl_align_fst m e (d + e - 53) ltac:(lia)) as Hm'.
    assert (Hsnd : snd (shl_align m e (d + e - 53)) = d + e - 53).
    { unfold shl_align. destruct (d + e - 53 - e) eqn:E; cbn [snd]; lia. }
    destruct (shl_align m e (d + e - 53)) as [m' e']. cbn [fst snd] in *.
    subst e'. replace (e - (d + e - 53)) with (53 - d) in Hm' by lia.
    assert (Hd' : Zpos (digits2_pos m') = 53).
    { rewrite (digits2_shift m (53 - d) ltac:(lia) m' Hm'). fold d. lia. }
    rewrite binary_round_aux_canonical by lia.
    cbn [nice scaled]. pose proof (digits2_bounds m') as Hb. rewrite Hd' in Hb.
    split; [split; [exact Hb | lia] |].
    split; [| lia]. intros _. f_equal. rewrite Hm'.
    rewrite <- Z.mul_assoc, <- Z.pow_add_r by lia. f_equal. f_equal. lia.
  - (* the low bits are rounded away *)
    assert (Hsh : shl_align m e (d + e - 53) = (m, e)).
    { unfold shl_align. destruct (d + e - 53 - e) eqn:E; try lia; reflexivity. }
    rewrite Hsh.
    rewrite (binary_round_aux_shift s m e (d - 53))
      by (fold d; try lia; intro Hc; specialize (Htop ltac:(lia) Hc); lia).
    pose proof (digits2_bounds m) as Hm. fold d in Hm.
    assert (HP : 0 < 2 ^ (d - 53)) by (apply Z.pow_pos_nonneg; lia).
    assert (Hq : 2 ^ 52 <= Zpos m / 2 ^ (d - 53) < 2 ^ 53).
    { replace (d - 1) with (52 + (d - 53)) in Hm by lia.
      replace d with (53 + (d - 53)) in Hm at 2 by lia.
      rewrite !Z.pow_add_r in Hm by lia. split.
      - apply Z.div_le_lower_bound; lia.
      - apply Z.div_lt_upper_bound; lia. }
    destruct (rne_bounds (Zpos m) (d - 53) ltac:(lia)) as [Hc _].
    destruct (nice_pack s (rne (Zpos m) (d - 53)) (e + (d - 53)))
      as [Hn Hs]; try lia.
    split; [exact Hn |]. split; [lia |]. intros _. exact Hs.
Qed.

Lemma Zdigits2_bounds Mz :
  Mz <> 0 -> 2 ^ (Zdigits2 Mz - 1) <= Z.abs Mz < 2 ^ Zdigits2 Mz.
Proof.
  destruct Mz as [| p | p]; [congruence | |]; intros _; apply digits2_bounds.
Qed.

(** [binary_normalize] on a signed integer, in the normal range. *)
Lemma binary_normalize_spec Mz e :
  let d := Zdigits2 Mz in
  -51 <= e -> d + e <= 1024 ->
  (53 < d -> rne (Z.abs Mz) (d - 53) = 2 ^ 53 -> d + e <= 1023) ->
  let r := binary_normalize prec emax Mz e false in
  nice r /\
  (d <= 53 -> scaled r = Mz * 2 ^ (e + 103)) /\
  (53 < d ->
   scaled r
   = Z.sgn Mz * (rne (Z.abs Mz) (d - 53) * 2 ^ (e + (d - 53) + 103))).
Proof.
  intros d He Hd Htop r. subst r d.
  destruct Mz as [| p | p]; cbn [binary_normalize Zdigits2 Z.abs Z.sgn] in *.
  - cbn [nice scaled]. split; [exact I |]. split; intros; lia.
  - destruct (binary_round_spec false p e He Hd Htop) as (Hn & Hx & Hr).
    cbn [cond_Zopp] in *. split; [exact Hn |]. split; [exact Hx |].
    intro H. rewrite (Hr H). lia.
  - destruct (binary_round_spec true p e He Hd Htop) as (Hn & Hx & Hr).
    cbn [cond_Zopp] in *. split; [exact Hn |]. split.
    + intro H. rewrite (Hx H). lia.
    + intro H. rewrite (Hr H). lia.
Qed.

(** What one rounded addition or subtraction does to a value of magnitude
    below [2^159] (in units of [2^-103]): the result is within [2^105] of
    the exact value [N], on the same side of zero, and equal to it when
    [N] is small. *)
Lemma binary_normalize_near Mz e :
  -51 <= e ->
  let N := Mz * 2 ^ (e + 103) in
  Z.abs N < 2 ^ 159 ->
  let r := binary_normalize prec emax Mz e false in
  nice r /\
  Z.abs (scaled r - N) <= 2 ^ 105 /\
  (0 <= N -> 0 <= scaled r) /\
  (N <= 0 -> scaled r <= 0) /\
  (Z.abs N < 2 ^ 105 -> scaled r = N).
Proof.
  intros He N HN r.
  assert (HP : 0 < 2 ^ (e + 103)) by (apply Z.pow_pos_nonneg; lia).
  destruct (Z.eq_dec Mz 0) as [-> | Hnz].
  { subst r N. cbn. repeat split; lia. }
  pose proof (Zdigits2_bounds Mz Hnz) as [Dlo Dhi].
  set (d := Zdigits2 Mz) in *.
  assert (Hd0 : 0 < d).
  { destruct (Z_lt_le_dec 0 d); [assumption |].
    assert (2 ^ d <= 2 ^ 0) by (apply Z.pow_le_mono_r; lia).
    simpl in *. lia. }
  assert (HabsN : Z.abs N = Z.abs Mz * 2 ^ (e + 103)).
  { subst N. rewrite Z.abs_mul. f_equal. lia. }
  (* the digit count of [Mz] is bounded through [N] *)
  assert (Hde : d + e <= 56).
  { destruct (Z_le_gt_dec (d + e) 56); [assumption | exfalso].
    assert (2 ^ 159 <= 2 ^ (d - 1) * 2 ^ (e + 103)).
    { rewrite <- Z.pow_add_r by lia. apply Z.pow_le_mono_r; lia. }
    nia. }
  destruct (binary_normalize_spec Mz e He ltac:(fold d; lia)
              ltac:(fold d; lia))
    as (Hn & Hx & Hr).
  fold d in Hx, Hr. fold r in Hn, Hx, Hr.
  split; [exact Hn |].
  destruct (Z_le_gt_dec d 53) as [Hle | Hgt].
  - rewrite (Hx Hle). fold N.
    replace (N - N) with 0 by lia. simpl Z.abs.
    repeat split; try lia.
  - rewrite (Hr ltac:(lia)).
    destruct (rne_bounds (Z.abs Mz) (d - 53) ltac:(lia)) as [Hq Herr].
    set (c := rne (Z.abs Mz) (d - 53)) in *.
    assert (HQ : 0 < 2 ^ (d - 53)) by (apply Z.pow_pos_nonneg; lia).
    assert (Hq0 : 0 <= Z.abs Mz / 2 ^ (d - 53)) by (apply Z.div_pos; lia).
    replace (e + (d - 53) + 103) with ((d - 53) + (e + 103)) by lia.
    rewrite Z.pow_add_r by lia.
    assert (HN' : N = Z.sgn Mz * (Z.abs Mz * 2 ^ (e + 103))).
    { subst N. rewrite <- (Z.abs_sgn Mz) at 1. ring. }
    assert (Hbig : 2 ^ 53 <= Z.abs Mz).
    { assert (2 ^ 53 <= 2 ^ (d - 1)) by (apply Z.pow_le_mono_r; lia). lia. }
    (* the rounding error, scaled *)
    assert (Hhalf : 2 ^ (d - 53) * 2 ^ (e + 103) <= 2 ^ 106).
    { rewrite <- !Z.pow_add_r by lia. apply Z.pow_le_mono_r; lia. }
    assert (Hunit : 2 ^ 52 <= 2 ^ (e + 103)) by (apply Z.pow_le_mono_r; lia).
    set (Q := 2 ^ (d - 53)) in *. set (U := 2 ^ (e + 103)) in *.
    clearbody Q U c.
    assert (Herr' : 2 * Z.abs ((c * Q - Z.abs Mz) * U) <= Q * U).
    { rewrite Z.abs_mul, (Z.abs_eq U) by lia. nia. }
    assert (Hc0 : 0 <= c) by lia.
    change (2 ^ 106) with (2 * 2 ^ 105) in Hhalf.
    destruct (Z.sgn_spec Mz) as [[Hs ->] | [[Hs ->] | [Hs ->]]]; lia.
Qed.

(** Among [nice] floats the order is the order of the scaled values. *)
Lemma mant_exp_lt m1 e1 m2 e2 :
  2 ^ 52 <= m1 < 2 ^ 53 -> 2 ^ 52 <= m2 < 2 ^ 53 -> -103 <= e1 < e2 ->
  m1 * 2 ^ (e1 + 103) < m2 * 2 ^ (e2 + 103).
Proof.
  intros H1 H2 He.
  replace (e2 + 103) with ((e1 + 103) + (e2 - e1)) by lia.
  rewrite (Z.pow_add_r 2 (e1 + 103) (e2 - e1)) by lia.
  assert (0 < 2 ^ (e1 + 103)) by (apply Z.pow_pos_nonneg; lia).
  assert (2 ^ 1 <= 2 ^ (e2 - e1)) by (apply Z.pow_le_mono_r; lia).
  set (A := 2 ^ (e1 + 103)) in *. set (B := 2 ^ (e2 - e1)) in *.
  change (2 ^ 1) with 2 in *. clearbody A B.
  assert (m1 * A < 2 ^ 53 * A) by (apply Z.mul_lt_mono_pos_r; lia).
  assert (2 ^ 53 <= m2 * B).
  { change (2 ^ 53) with (2 ^ 52 * 2). apply Z.mul_le_mono_nonneg; lia. }
  assert (2 ^ 53 * A <= m2 * B * A) by (apply Z.mul_le_mono_nonneg_r; lia).
  lia.
Qed.

Lemma compare_scaled a b :
  nice a -> nice b -> SFcompare a b = Some (scaled a ?= scaled b).
Proof.
  destruct a as [sa | sa | | sa ma ea], b as [sb | sb | | sb mb eb];
    cbn [nice]; try contradiction; intros Ha Hb.
  - reflexivity.
  - cbn [SFcompare scaled].
    assert (0 < Zpos mb * 2 ^ (eb + 103))
      by (apply Z.mul_pos_pos; [lia | apply Z.pow_pos_nonneg; lia]).
    destruct sb; cbn [cond_Zopp]; f_equal; symmetry;
      [apply Z.compare_gt_iff | apply Z.compare_lt_iff]; lia.
  - cbn [SFcompare scaled].
    assert (0 < Zpos ma * 2 ^ (ea + 103))
      by (apply Z.mul_pos_pos; [lia | apply Z.pow_pos_nonneg; lia]).
    destruct sa; cbn [cond_Zopp]; f_equal; symmetry;
      [apply Z.compare_lt_iff | apply Z.compare_gt_iff]; lia.
  - cbn [SFcompare scaled].
    assert (Pa : 0 < Zpos ma * 2 ^ (ea + 103))
      by (apply Z.mul_pos_pos; [lia | apply Z.pow_pos_nonneg; lia]).
    assert (Pb : 0 < Zpos mb * 2 ^ (eb + 103))
      by (apply Z.mul_pos_pos; [lia | apply Z.pow_pos_nonneg; lia]).
    assert (Hcmp :
      (Zpos ma * 2 ^ (ea + 103) ?= Zpos mb * 2 ^ (eb + 103))
      = match ea ?= eb with
        | Lt => Lt
        | Gt => Gt
        | Eq => Pos.compare_cont Eq ma mb
        end).
    { destruct (Z.compare_spec ea eb) as [E | L | G].
      - subst eb. rewrite <- Zmult_compare_compat_r
          by (apply Z.lt_gt, Z.pow_pos_nonneg; lia).
        reflexivity.
      - apply Z.compare_lt_iff. apply mant_exp_lt; lia.
      - apply Z.compare_gt_iff. apply mant_exp_lt; lia. }
    destruct sa, sb; cbn [cond_Zopp]; f_equal; symmetry.
    + rewrite Z.compare_opp, Z.compare_antisym, Hcmp.
      destruct (ea ?= eb); reflexivity.
    + apply Z.compare_lt_iff. lia.
    + apply Z.compare_gt_iff. lia.
    + exact Hcmp.
Qed.

(** The operands of an addition or subtraction, aligned on the smaller
    exponent, carry the scaled values. *)
Lemma aligned_scaled s m e ez :
  ez <= e -> -103 <= ez ->
  cond_Zopp s (Zpos (fst (shl_align m e ez))) * 2 ^ (ez + 103)
  = scaled (S754_finite s m e).
Proof.
  intros Hle Hez. rewrite shl_align_fst by exact Hle. cbn [scaled].
  replace (e + 103) with ((e - ez) + (ez + 103)) by lia.
  rewrite (Z.pow_add_r 2 (e - ez) (ez + 103)) by lia.
  destruct s; cbn [cond_Zopp]; ring.
Qed.

Lemma fsub_scaled sx mx ex sy my ey :
  -51 <= ex -> -51 <= ey ->
  let x := S754_finite sx mx ex in
  let y := S754_finite sy my ey in
  exists Mz e,
    -51 <= e /\ Mz * 2 ^ (e + 103) = scaled x - scaled y /\
    fsub x y = binary_normalize prec emax Mz e false.
Proof.
  intros Hx Hy x y. subst x y.
  eexists. exists (Z.min ex ey). split; [lia |]. split; [| reflexivity].
  rewrite Z.mul_sub_distr_r, !aligned_scaled by lia. reflexivity.
Qed.

Lemma fadd_scaled sx mx ex sy my ey :
  -51 <= ex -> -51 <= ey ->
  let x := S754_finite sx mx ex in
  let y := S754_finite sy my ey in
  exists Mz e,
    -51 <= e /\ Mz * 2 ^ (e + 103) = scaled x + scaled y /\
    fadd x y = binary_normalize prec emax Mz e false.
Proof.
  intros Hx Hy x y. subst x y.
  eexists. exists (Z.min ex ey). split; [lia |]. split; [| reflexivity].
  rewrite Z.mul_add_distr_r, !aligned_scaled by lia. reflexivity.
Qed.

(** ** The yaw loops *)

Lemma TAU_eq : TAU = S754_finite false 7074237743944945 (-50).
Proof. reflexivity. Qed.

Lemma half_tau_eq : fdiv TAU f_2 = HALF_TAU.
Proof. vm_compute. reflexivity. Qed.

Lemma neg_half_tau_eq : fdiv (fneg TAU) f_2 = NEG_HALF_TAU.
Proof. vm_compute. reflexivity. Qed.

Lemma nice_half : nice HALF_TAU /\ scaled HALF_TAU = etaV.
Proof. split; [split; vm_compute; split; congruence | reflexivity]. Qed.

Lemma nice_neg_half : nice NEG_HALF_TAU /\ scaled NEG_HALF_TAU = - etaV.
Proof. split; [split; vm_compute; split; congruence | reflexivity]. Qed.

Lemma nice_yaw_max : nice YAW_MAX /\ scaled YAW_MAX = 2 ^ 159.
Proof. split; [split; vm_compute; split; congruence | reflexivity]. Qed.

Lemma YAW_MAX_eq : YAW_MAX = float_of_Z (2 ^ 56).
Proof. reflexivity. Qed.

Lemma fgt_scaled x y : nice x -> nice y -> fgt x y = (scaled y <? scaled x).
Proof.
  intros Hx Hy. unfold fgt, SFltb. rewrite (compare_scaled y x Hy Hx).
  unfold Z.ltb. destruct (scaled y ?= scaled x); reflexivity.
Qed.

Lemma flt_scaled x y : nice x -> nice y -> flt x y = (scaled x <? scaled y).
Proof.
  intros Hx Hy. unfold flt, SFltb. rewrite (compare_scaled x y Hx Hy).
  unfold Z.ltb. destruct (scaled x ?= scaled y); reflexivity.
Qed.

Lemma fle_scaled x y : nice x -> nice y -> fle x y = (scaled x <=? scaled y).
Proof.
  intros Hx Hy. unfold fle, SFleb. rewrite (compare_scaled x y Hx Hy).
  unfold Z.leb. destruct (scaled x ?= scaled y); reflexivity.
Qed.

(** A [nice] float beyond half a turn has exponent at least [-51]. *)
Lemma beyond_half_exponent s m e :
  nice (S754_finite s m e) ->
  etaV < Z.abs (scaled (S754_finite s m e)) -> -51 <= e.
Proof.
  cbn [nice scaled]. intros [Hm He] Hv.
  destruct (Z_le_gt_dec (-51) e) as [| Hlt]; [assumption | exfalso].
  pose proof (mant_exp_lt (Zpos m) e 7074237743944945 (-51)
                Hm ltac:(lia) ltac:(lia)) as Hlt'.
  change (7074237743944945 * 2 ^ (-51 + 103)) with etaV in Hlt'.
  assert (0 < 2 ^ (e + 103)) by (apply Z.pow_pos_nonneg; lia).
  destruct s; cbn [cond_Zopp] in Hv; lia.
Qed.

(** One turn down: from a value above half a turn and at most [2^56] the
    subtraction gives a strictly smaller value, still above minus half a
    turn. *)
Lemma down_step x :
  nice x -> etaV < scaled x <= 2 ^ 159 ->
  nice (fsub x TAU) /\ - etaV < scaled (fsub x TAU) < scaled x.
Proof.
  intros Hn Hv. destruct x as [s | s | | s m e]; cbn [nice] in Hn;
    try contradiction; [cbn [scaled] in Hv; unfold etaV in Hv; lia |].
  assert (He : -51 <= e) by (apply (beyond_half_exponent s m); [exact Hn | lia]).
  rewrite TAU_eq.
  destruct (fsub_scaled s m e false 7074237743944945 (-50) He ltac:(lia))
    as (Mz & ez & Hez & HN & ->).
  change (scaled (S754_finite false 7074237743944945 (-50))) with tauV in HN.
  destruct (binary_normalize_near Mz ez Hez) as (Hr & Herr & Hpos & Hneg & Hex).
  { rewrite HN. unfold tauV, etaV in *. lia. }
  rewrite HN in *. split; [exact Hr |].
  unfold tauV, etaV in *. lia.
Qed.

(** One turn up, symmetrically. *)
Lemma up_step x :
  nice x -> - 2 ^ 159 <= scaled x < - etaV ->
  nice (fadd x TAU) /\ scaled x < scaled (fadd x TAU) < etaV.
Proof.
  intros Hn Hv. destruct x as [s | s | | s m e]; cbn [nice] in Hn;
    try contradiction; [cbn [scaled] in Hv; unfold etaV in Hv; lia |].
  assert (He : -51 <= e) by (apply (beyond_half_exponent s m); [exact Hn | lia]).
  rewrite TAU_eq.
  destruct (fadd_scaled s m e false 7074237743944945 (-50) He ltac:(lia))
    as (Mz & ez & Hez & HN & ->).
  change (scaled (S754_finite false 7074237743944945 (-50))) with tauV in HN.
  destruct (binary_normalize_near Mz ez Hez) as (Hr & Herr & Hpos & Hneg & Hex).
  { rewrite HN. unfold tauV, etaV in *. lia. }
  rewrite HN in *. split; [exact Hr |].
  unfold tauV, etaV in *. lia.
Qed.

Lemma wrap_down_nice_eq fuel x :
  nice x ->
  wrap_down fuel x =
  if etaV <? scaled x then
    match fuel with
    | O => None
    | Datatypes.S n => wrap_down n (fsub x TAU)
    end
  else Some x.
Proof.
  intro Hn. destruct fuel; cbn [wrap_down];
    rewrite half_tau_eq, (fgt_scaled x HALF_TAU Hn (proj1 nice_half)),
      (proj2 nice_half); reflexivity.
Qed.

Lemma wrap_up_nice_eq fuel x :
  nice x ->
  wrap_up fuel x =
  if scaled x <? - etaV then
    match fuel with
    | O => None
    | Datatypes.S n => wrap_up n (fadd x TAU)
    end
  else Some x.
Proof.
  intro Hn. destruct fuel; cbn [wrap_up];
    rewrite neg_half_tau_eq,
      (flt_scaled x NEG_HALF_TAU Hn (proj1 nice_neg_half)),
      (proj2 nice_neg_half); reflexivity.
Qed.

(** The first loop ends from any value up to [2^56]. *)
Lemma wrap_down_terminates (n : nat) : forall x,
  nice x -> scaled x <= 2 ^ 159 -> scaled x - etaV < Z.of_nat n ->
  exists fuel r,
    wrap_down fuel x = Some r /\ nice r /\
    scaled r <= etaV /\
    (etaV < scaled x -> - etaV < scaled r) /\
    (scaled x <= etaV -> r = x).
Proof.
  induction n as [| n IH]; intros x Hn Hmax Hmeas.
  - exists O, x. rewrite wrap_down_nice_eq by exact Hn.
    replace (etaV <? scaled x) with false by (symmetry; apply Z.ltb_ge; lia).
    repeat split; auto; lia.
  - destruct (Z.ltb_spec etaV (scaled x)) as [Hgt | Hle].
    + destruct (down_step x Hn ltac:(lia)) as (Hn1 & Hlo & Hlt).
      destruct (IH (fsub x TAU) Hn1 ltac:(lia) ltac:(lia))
        as (fuel & r & Hw & Hnr & Hr & Hkeep & Hsame).
      exists (Datatypes.S fuel), r. rewrite wrap_down_nice_eq by exact Hn.
      replace (etaV <? scaled x) with true by (symmetry; apply Z.ltb_lt; lia).
      repeat split; auto; try lia.
      intros _. destruct (Z.ltb_spec etaV (scaled (fsub x TAU))).
      * apply Hkeep. lia.
      * rewrite (Hsame ltac:(lia)). lia.
    + exists O, x. rewrite wrap_down_nice_eq by exact Hn.
      replace (etaV <? scaled x) with false by (symmetry; apply Z.ltb_ge; lia).
      repeat split; auto; lia.
Qed.

(** The second loop ends from any value down to [-2^56]. *)
Lemma wrap_up_terminates (n : nat) : forall x,
  nice x -> - 2 ^ 159 <= scaled x -> - etaV - scaled x < Z.of_nat n ->
  exists fuel r,
    wrap_up fuel x = Some r /\ nice r /\
    - etaV <= scaled r /\
    (scaled x < - etaV -> scaled r < etaV) /\
    (- etaV <= scaled x -> r = x).
Proof.
  induction n as [| n IH]; intros x Hn Hmax Hmeas.
  - exists O, x. rewrite wrap_up_nice_eq by exact Hn.
    replace (scaled x <? - etaV) with false by (symmetry; apply Z.ltb_ge; lia).
    repeat split; auto; lia.
  - destruct (Z.ltb_spec (scaled x) (- etaV)) as [Hlt | Hge].
    + destruct (up_step x Hn ltac:(lia)) as (Hn1 & Hgt & Hhi).
      destruct (IH (fadd x TAU) Hn1 ltac:(lia) ltac:(lia))
        as (fuel & r & Hw & Hnr & Hr & Hkeep & Hsame).
      exists (Datatypes.S fuel), r. rewrite wrap_up_nice_eq by exact Hn.
      replace (scaled x <? - etaV) with true by (symmetry; apply Z.ltb_lt; lia).
      repeat split; auto; try lia.
      intros _. destruct (Z.ltb_spec (scaled (fadd x TAU)) (- etaV)).
      * apply Hkeep. lia.
      * rewrite (Hsame ltac:(lia)). lia.
    + exists O, x. rewrite wrap_up_nice_eq by exact Hn.
      replace (scaled x <? - etaV) with false by (symmetry; apply Z.ltb_ge; lia).
      repeat split; auto; lia.
Qed.

(** *** Every float of the format in the range is covered *)

Lemma valid_nice s m e :
  valid (S754_finite s m e) = true -> -103 <= e -> nice (S754_finite s m e).
Proof.
  unfold valid, valid_binary, bounded, canonical_mantissa.
  rewrite andb_true_iff, Z.eqb_eq, Z.leb_le.
  unfold fexp, SpecFloat.emin, prec, emax. intros [Hc He] Hlo.
  pose proof (digits2_bounds m) as Hb.
  assert (Hd : Zpos (digits2_pos m) = 53) by lia.
  rewrite Hd in Hb. cbn [nice]. simpl (53 - 1) in Hb. lia.
Qed.

(** A finite float of exponent below [-103] is tiny: neither loop runs. *)
Lemma tiny_in_range s m e :
  e < -103 ->
  let x := S754_finite s m e in
  fgt x HALF_TAU = false /\ flt x NEG_HALF_TAU = false /\
  fle NEG_HALF_TAU x = true /\ fle x HALF_TAU = true.
Proof.
  intros He x. subst x.
  unfold fgt, flt, fle, SFltb, SFleb, HALF_TAU, NEG_HALF_TAU.
  cbn [SFcompare].
  assert (E1 : (-51 ?= e) = Gt) by (apply Z.compare_gt_iff; lia).
  assert (E2 : (e ?= -51) = Lt) by (apply Z.compare_lt_iff; lia).
  rewrite E1, E2. destruct s; repeat split.
Qed.

Lemma wrap_down_mono fuel : forall x r,
  wrap_down fuel x = Some r -> wrap_down (Datatypes.S fuel) x = Some r.
Proof.
  induction fuel as [| fuel IH]; intros x r.
  - cbn [wrap_down]. destruct (fgt x (fdiv TAU f_2)); [discriminate | auto].
  - intro Hw. cbn [wrap_down] in Hw.
    change (wrap_down (Datatypes.S (Datatypes.S fuel)) x)
      with (if fgt x (fdiv TAU f_2)
            then wrap_down (Datatypes.S fuel) (fsub x TAU) else Some x).
    destruct (fgt x (fdiv TAU f_2)); [apply IH; exact Hw | exact Hw].
Qed.

Lemma wrap_up_mono fuel : forall x r,
  wrap_up fuel x = Some r -> wrap_up (Datatypes.S fuel) x = Some r.
Proof.
  induction fuel as [| fuel IH]; intros x r.
  - cbn [wrap_up]. destruct (flt x (fdiv (fneg TAU) f_2)); [discriminate | auto].
  - intro Hw. cbn [wrap_up] in Hw.
    change (wrap_up (Datatypes.S (Datatypes.S fuel)) x)
      with (if flt x (fdiv (fneg TAU) f_2)
            then wrap_up (Datatypes.S fuel) (fadd x TAU) else Some x).
    destruct (flt x (fdiv (fneg TAU) f_2)); [apply IH; exact Hw | exact Hw].
Qed.

Lemma normalize_yaw_mono fuel fuel' x r :
  normalize_yaw fuel x = Some r -> (fuel <= fuel')%nat ->
  normalize_yaw fuel' x = Some r.
Proof.
  intros Hn Hle. induction Hle as [| fuel' _ IH]; [exact Hn |].
  revert IH. unfold normalize_yaw.
  destruct (wrap_down fuel' x) as [y |] eqn:Hd; [| discriminate].
  rewrite (wrap_down_mono _ _ _ Hd). apply wrap_up_mono.
Qed.

(** Termination and range of the normalization on nice floats. *)
Lemma normalize_yaw_nice x :
  nice x -> - 2 ^ 159 <= scaled x <= 2 ^ 159 ->
  exists fuel r,
    normalize_yaw fuel x = Some r /\ nice r /\ - etaV <= scaled r <= etaV.
Proof.
  intros Hn Hv.
  destruct (Z.ltb_spec etaV (scaled x)) as [Hhi | Hnhi].
  - destruct (wrap_down_terminates (Z.to_nat (scaled x - etaV + 1)) x Hn
                ltac:(lia) ltac:(lia))
      as (fuel & r & Hw & Hr & Hle & Hge & _).
    exists fuel, r. unfold normalize_yaw. rewrite Hw.
    rewrite wrap_up_nice_eq by exact Hr.
    specialize (Hge Hhi).
    replace (scaled r <? - etaV) with false by (symmetry; apply Z.ltb_ge; lia).
    repeat split; auto; lia.
  - destruct (wrap_up_terminates (Z.to_nat (- etaV - scaled x + 1)) x Hn
                ltac:(lia) ltac:(lia))
      as (fuel & r & Hw & Hr & Hge & Hlt & Hsame).
    exists fuel, r. unfold normalize_yaw.
    rewrite wrap_down_nice_eq by exact Hn.
    replace (etaV <? scaled x) with false by (symmetry; apply Z.ltb_ge; lia).
    rewrite Hw. repeat split; auto.
    destruct (Z.ltb_spec (scaled x) (- etaV)).
    + specialize (Hlt ltac:(lia)). lia.
    + rewrite (Hsame ltac:(lia)). lia.
Qed.

Lemma nice_valid x : nice x -> valid x = true /\ is_finite x = true.
Proof.
  destruct x as [s | s | | s m e]; cbn [nice]; try contradiction;
    [split; reflexivity |].
  intros [Hm He]. split; [| reflexivity].
  unfold valid, valid_binary, bounded, canonical_mantissa.
  assert (Hd : Zpos (digits2_pos m) = 53)
    by (apply digits2_unique; simpl (53 - 1); lia).
  rewrite Hd, andb_true_iff, Z.eqb_eq, Z.leb_le.
  unfold fexp, SpecFloat.emin, prec, emax. lia.
Qed.

(** The normalization of every finite float between [-2^56] and [2^56]
    ends, from some iteration budget on, with a value between minus half a
    turn and half a turn. *)
Lemma normalize_yaw_total x :
  valid x = true -> is_finite x = true ->
  fle (fneg YAW_MAX) x = true -> fle x YAW_MAX = true ->
  exists fuel r,
    (forall fuel', (fuel <= fuel')%nat -> normalize_yaw fuel' x = Some r) /\
    valid r = true /\ is_finite r = true /\
    fle (fdiv (fneg TAU) f_2) r = true /\ fle r (fdiv TAU f_2) = true.
Proof.
  intros Hv Hf Hlo Hhi. rewrite half_tau_eq, neg_half_tau_eq.
  assert (Hnice : nice x ->
    exists fuel r,
      (forall fuel', (fuel <= fuel')%nat -> normalize_yaw fuel' x = Some r) /\
      valid r = true /\ is_finite r = true /\
      fle NEG_HALF_TAU r = true /\ fle r HALF_TAU = true).
  { intro Hn.
    rewrite (fle_scaled _ _ Hn (proj1 nice_yaw_max)), (proj2 nice_yaw_max),
      Z.leb_le in Hhi.
    assert (Hny : nice (fneg YAW_MAX)) by (exact (proj1 nice_yaw_max)).
    rewrite (fle_scaled _ _ Hny Hn), Z.leb_le in Hlo.
    change (scaled (fneg YAW_MAX)) with (- 2 ^ 159) in Hlo.
    destruct (normalize_yaw_nice x Hn ltac:(lia)) as (fuel & r & Hw & Hr & Hb).
    exists fuel, r. split; [intros; eapply normalize_yaw_mono; eauto |].
    destruct (nice_valid r Hr) as [Hvr Hfr].
    rewrite (fle_scaled _ _ (proj1 nice_neg_half) Hr), (proj2 nice_neg_half).
    rewrite (fle_scaled _ _ Hr (proj1 nice_half)), (proj2 nice_half).
    repeat split; auto; apply Z.leb_le; lia. }
  destruct x as [s | s | | s m e]; try discriminate.
  - apply Hnice. exact I.
  - destruct (Z_le_gt_dec (-103) e) as [He | He].
    + apply Hnice, valid_nice; assumption.
    + destruct (tiny_in_range s m e ltac:(lia)) as (Hg & Hl & Hge & Hle).
      exists O, (S754_finite s m e). repeat split; auto.
      intros fuel' _. unfold normalize_yaw.
      assert (Hd : wrap_down fuel' (S754_finite s m e)
                   = Some (S754_finite s m e)).
      { destruct fuel'; cbn [wrap_down]; rewrite half_tau_eq, Hg; reflexivity. }
      rewrite Hd.
      destruct fuel'; cbn [wrap_up]; rewrite neg_half_tau_eq, Hl; reflexivity.
Qed.

(** *** Beyond [2^56] the turn is absorbed by rounding *)

Lemma scaled_inj a b :
  nice a -> nice b -> scaled a = scaled b -> scaled a <> 0 -> a = b.
Proof.
  intros Ha Hb Heq Hnz.
  pose proof (compare_scaled a b Ha Hb) as Hc.
  rewrite Heq, Z.compare_refl in Hc.
  destruct a as [sa | sa | | sa ma ea], b as [sb | sb | | sb mb eb];
    cbn [nice scaled] in *; try contradiction; try congruence.
  cbn [SFcompare] in Hc.
  destruct sa, sb; try discriminate;
    destruct (Z.compare_spec ea eb) as [E | L | G]; try discriminate;
    subst eb; injection Hc as Hc;
    try (apply (f_equal CompOpp) in Hc; rewrite CompOpp_involutive in Hc;
         simpl in Hc);
    apply Pos.compare_eq in Hc; subst; reflexivity.
Qed.

Lemma Zdigits2_cond_Zopp s z : Zdigits2 (cond_Zopp s z) = Zdigits2 z.
Proof. destruct s, z; reflexivity. Qed.

Lemma beyond_max_exponent s m e :
  nice (S754_finite s m e) -> 2 ^ 159 < Zpos m * 2 ^ (e + 103) -> 4 <= e.
Proof.
  intros [Hm He] Hbig.
  destruct (Z_le_gt_dec 4 e); [assumption | exfalso].
  assert (2 ^ (e + 103) <= 2 ^ 106) by (apply Z.pow_le_mono_r; lia).
  assert (Zpos m * 2 ^ (e + 103) <= 2 ^ 53 * 2 ^ 106)
    by (apply Z.mul_le_mono_nonneg; lia).
  change (2 ^ 53 * 2 ^ 106) with (2 ^ 159) in *. lia.
Qed.

Lemma absorbed s m e :
  nice (S754_finite s m e) ->
  2 ^ 159 < Zpos m * 2 ^ (e + 103) ->
  binary_normalize prec emax
    (cond_Zopp s (Zpos m * 2 ^ (e + 50) - 7074237743944945)) (-50) false
  = S754_finite s m e.
Proof.
  intros Hn Hbig. pose proof Hn as [Hm He]. cbn [nice] in Hm, He.
  (* the exponent is at least 4 *)
  assert (He4 : 4 <= e) by (apply (beyond_max_exponent s m); assumption).
  set (K := Zpos m * 2 ^ (e + 50)).
  set (Mz := K - 7074237743944945).
  (* [K] is a multiple of [2^54] above [2^106] *)
  assert (HK : 2 ^ 106 + 2 ^ 54 <= K).
  { unfold K. replace (e + 50) with ((e - 4) + 54) by lia.
    rewrite Z.pow_add_r by lia.
    replace (e + 103) with ((e - 4) + 107) in Hbig by lia.
    rewrite Z.pow_add_r in Hbig by lia.
    assert (0 < 2 ^ (e - 4)) by (apply Z.pow_pos_nonneg; lia).
    set (j := Zpos m * 2 ^ (e - 4)).
    assert (Hj : 2 ^ 52 < j).
    { unfold j. change (2 ^ 159) with (2 ^ 52 * 2 ^ 107) in Hbig.
      rewrite Z.mul_assoc in Hbig.
      apply Z.mul_lt_mono_pos_r in Hbig; lia. }
    replace (Zpos m * (2 ^ (e - 4) * 2 ^ 54)) with (j * 2 ^ 54)
      by (unfold j; ring).
    change (2 ^ 106) with (2 ^ 52 * 2 ^ 54). lia. }
  assert (HMz : 2 ^ 106 < Mz) by (unfold Mz; lia).
  assert (HKhi : K < 2 ^ (e + 103)).
  { unfold K. replace (e + 103) with (53 + (e + 50)) by lia.
    rewrite (Z.pow_add_r 2 53 (e + 50)) by lia.
    apply Z.mul_lt_mono_pos_r; [apply Z.pow_pos_nonneg; lia | lia]. }
  pose proof (Zdigits2_bounds Mz ltac:(lia)) as [Dlo Dhi].
  rewrite Z.abs_eq in Dlo, Dhi by lia.
  set (d := Zdigits2 Mz) in *.
  assert (Hd107 : 107 <= d).
  { destruct (Z_le_gt_dec 107 d); [assumption | exfalso].
    assert (2 ^ d <= 2 ^ 106) by (apply Z.pow_le_mono_r; lia). lia. }
  assert (Hdhi : d <= e + 103).
  { destruct (Z_le_gt_dec d (e + 103)); [assumption | exfalso].
    assert (2 ^ (e + 103) <= 2 ^ (d - 1)) by (apply Z.pow_le_mono_r; lia).
    unfold Mz in *. lia. }
  set (n := d - 53).
  set (k := Zpos m * 2 ^ (e + 50 - n)).
  assert (Hk : K = k * 2 ^ n).
  { unfold K, k. rewrite <- Z.mul_assoc, <- Z.pow_add_r by (unfold n; lia).
    f_equal. f_equal. lia. }
  assert (Hc : rne Mz n = k).
  { apply rne_near; [unfold n; lia |].
    rewrite <- Hk. unfold Mz.
    replace (K - (K - 7074237743944945)) with 7074237743944945 by lia.
    assert (2 ^ 54 <= 2 ^ n) by (apply Z.pow_le_mono_r; unfold n; lia).
    simpl Z.abs. lia. }
  assert (Habs : Z.abs (cond_Zopp s Mz) = Mz)
    by (destruct s; cbn [cond_Zopp]; lia).
  destruct (binary_normalize_spec (cond_Zopp s Mz) (-50) ltac:(lia))
    as (Hr & _ & Hround).
  { rewrite Zdigits2_cond_Zopp. fold d. lia. }
  { rewrite Zdigits2_cond_Zopp, Habs. fold d. fold n. rewrite Hc.
    intros _ Hk53.
    (* a mantissa of [2^53] means the shift is at most [e + 49] *)
    assert (e + 50 - n <> 0).
    { intro E0. unfold k in Hk53. rewrite E0 in Hk53. simpl in Hk53. lia. }
    unfold n in *. lia. }
  rewrite Zdigits2_cond_Zopp, Habs in Hround. fold d in Hround.
  fold n in Hround. rewrite Hc in Hround. specialize (Hround ltac:(lia)).
  apply scaled_inj; [exact Hr | exact Hn | |].
  - rewrite Hround. cbn [scaled].
    replace (-50 + n + 103) with (n + 53) by lia.
    rewrite (Z.pow_add_r 2 n 53) by (unfold n; lia).
    replace (k * (2 ^ n * 2 ^ 53)) with (K * 2 ^ 53) by (rewrite Hk; ring).
    unfold K. replace (e + 103) with ((e + 50) + 53) by lia.
    rewrite (Z.pow_add_r 2 (e + 50) 53) by lia.
    destruct s; cbn [cond_Zopp].
    + replace (Z.sgn (- Mz)) with (-1) by (symmetry; apply Z.sgn_neg; lia). ring.
    + replace (Z.sgn Mz) with 1 by (symmetry; apply Z.sgn_pos; lia). ring.
  - rewrite Hround.
    assert (0 < k * 2 ^ (-50 + n + 103)).
    { apply Z.mul_pos_pos.
      - unfold k. apply Z.mul_pos_pos; [lia |].
        apply Z.pow_pos_nonneg; unfold n; lia.
      - apply Z.pow_pos_nonneg; unfold n; lia. }
    destruct s; cbn [cond_Zopp].
    + replace (Z.sgn (- Mz)) with (-1) by (symmetry; apply Z.sgn_neg; lia). lia.
    + replace (Z.sgn Mz) with 1 by (symmetry; apply Z.sgn_pos; lia). lia.
Qed.

Lemma fsub_absorbed m e :
  nice (S754_finite false m e) ->
  2 ^ 159 < scaled (S754_finite false m e) ->
  fsub (S754_finite false m e) TAU = S754_finite false m e.
Proof.
  intros Hn Hbig. cbn [scaled cond_Zopp] in Hbig.
  pose proof (absorbed false m e Hn Hbig) as Ha. cbn [cond_Zopp] in Ha.
  assert (He : 4 <= e) by (apply (beyond_max_exponent false m); assumption).
  rewrite TAU_eq. unfold fsub. cbn [SFsub cond_Zopp].
  replace (Z.min e (-50)) with (-50) by lia.
  rewrite !shl_align_fst by lia.
  replace (e - -50) with (e + 50) by lia.
  change (2 ^ (-50 - -50)) with 1. rewrite Z.mul_1_r. exact Ha.
Qed.

Lemma fadd_absorbed m e :
  nice (S754_finite true m e) ->
  scaled (S754_finite true m e) < - 2 ^ 159 ->
  fadd (S754_finite true m e) TAU = S754_finite true m e.
Proof.
  intros Hn Hbig. cbn [scaled cond_Zopp] in Hbig.
  pose proof (absorbed true m e Hn ltac:(lia)) as Ha. cbn [cond_Zopp] in Ha.
  assert (He : 4 <= e) by (apply (beyond_max_exponent true m); [assumption | lia]).
  rewrite TAU_eq. unfold fadd. cbn [SFadd cond_Zopp].
  replace (Z.min e (-50)) with (-50) by lia.
  rewrite !shl_align_fst by lia.
  replace (e - -50) with (e + 50) by lia.
  change (2 ^ (-50 - -50)) with 1. rewrite Z.mul_1_r.
  rewrite <- Ha. f_equal. lia.
Qed.

(** Above [2^56] the first loop never ends; this covers plus infinity. *)
Lemma wrap_down_diverges x :
  valid x = true -> flt YAW_MAX x = true ->
  forall fuel, wrap_down fuel x = None.
Proof.
  intros Hv Hgt.
  destruct x as [s | s | | s m e].
  - discriminate.
  - destruct s; [discriminate |].
    induction fuel as [| fuel IH]; [reflexivity | exact IH].
  - discriminate.
  - assert (Hs : s = false /\ 4 <= e).
    { revert Hgt. unfold flt, SFltb, YAW_MAX. cbn [SFcompare].
      destruct s; [discriminate |].
      destruct (Z.compare_spec 4 e); try discriminate; intros _; split; lia. }
    destruct Hs as [-> He].
    assert (Hn : nice (S754_finite false m e)) by (apply valid_nice; [assumption | lia]).
    rewrite (flt_scaled _ _ (proj1 nice_yaw_max) Hn), (proj2 nice_yaw_max),
      Z.ltb_lt in Hgt.
    induction fuel as [| fuel IH]; rewrite wrap_down_nice_eq by exact Hn;
      (replace (etaV <? scaled (S754_finite false m e)) with true
         by (symmetry; apply Z.ltb_lt; unfold etaV; lia)); [reflexivity |].
    rewrite fsub_absorbed by assumption. exact IH.
Qed.

(** Below [-2^56] the second loop never ends; this covers minus
    infinity. *)
Lemma wrap_up_diverges x :
  valid x = true -> flt x (fneg YAW_MAX) = true ->
  forall fuel, wrap_up fuel x = None.
Proof.
  intros Hv Hlt.
  destruct x as [s | s | | s m e].
  - discriminate.
  - destruct s; [| discriminate].
    induction fuel as [| fuel IH]; [reflexivity | exact IH].
  - discriminate.
  - assert (Hs : s = true /\ 4 <= e).
    { revert Hlt. unfold flt, SFltb, YAW_MAX. cbn [SFcompare fneg SFopp negb].
      destruct s; [| discriminate].
      destruct (Z.compare_spec e 4); try discriminate; intros _; split; lia. }
    destruct Hs as [-> He].
    assert (Hn : nice (S754_finite true m e)) by (apply valid_nice; [assumption | lia]).
    assert (Hny : nice (fneg YAW_MAX)) by (exact (proj1 nice_yaw_max)).
    rewrite (flt_scaled _ _ Hn Hny), Z.ltb_lt in Hlt.
    change (scaled (fneg YAW_MAX)) with (- 2 ^ 159) in Hlt.
    induction fuel as [| fuel IH]; rewrite wrap_up_nice_eq by exact Hn;
      (replace (scaled (S754_finite true m e) <? - etaV) with true
         by (symmetry; apply Z.ltb_lt; unfold etaV; lia)); [reflexivity |].
    rewrite fadd_absorbed by assumption. exact IH.
Qed.

Lemma below_not_above x :
  flt x (fneg YAW_MAX) = true -> fgt x (fdiv TAU f_2) = false.
Proof.
  rewrite half_tau_eq. unfold flt, fgt, SFltb, YAW_MAX, HALF_TAU.
  destruct x as [s | s | | s m e]; cbn [SFcompare fneg SFopp negb];
    try discriminate; destruct s; try discriminate; reflexivity.
Qed.

Lemma normalize_yaw_diverges x :
  valid x = true ->
  flt YAW_MAX x = true \/ flt x (fneg YAW_MAX) = true ->
  forall fuel, normalize_yaw fuel x = None.
Proof.
  intros Hv [Hgt | Hlt] fuel; unfold normalize_yaw.
  - rewrite (wrap_down_diverges x Hv Hgt). reflexivity.
  - assert (Hd : wrap_down fuel x = Some x).
    { destruct fuel; cbn [wrap_down]; rewrite (below_not_above x Hlt);
        reflexivity. }
    rewrite Hd. apply wrap_up_diverges; assumption.
Qed.

(** What a finished normalization has done: some number of rounded
    subtractions of [TAU] followed by some number of rounded additions. *)
Lemma wrap_down_iter fuel : forall x r,
  wrap_down fuel x = Some r ->
  exists k, (k <= fuel)%nat /\ r = Nat.iter k (fun y => fsub y TAU) x.
Proof.
  induction fuel as [| fuel IH]; intros x r; cbn [wrap_down];
    destruct (fgt x (fdiv TAU f_2)); try discriminate.
  - intros [= <-]. exists O. split; [lia | reflexivity].
  - intro Hw. destruct (IH _ _ Hw) as (k & Hk & ->).
    exists (Datatypes.S k). split; [lia |].
    rewrite Nat.iter_succ_r. reflexivity.
  - intros [= <-]. exists O. split; [lia | reflexivity].
Qed.

Lemma wrap_up_iter fuel : forall x r,
  wrap_up fuel x = Some r ->
  exists k, (k <= fuel)%nat /\ r = Nat.iter k (fun y => fadd y TAU) x.
Proof.
  induction fuel as [| fuel IH]; intros x r; cbn [wrap_up];
    destruct (flt x (fdiv (fneg TAU) f_2)); try discriminate.
  - intros [= <-]. exists O. split; [lia | reflexivity].
  - intro Hw. destruct (IH _ _ Hw) as (k & Hk & ->).
    exists (Datatypes.S k). split; [lia |].
    rewrite Nat.iter_succ_r. reflexivity.
  - intros [= <-]. exists O. split; [lia | reflexivity].
Qed.

Lemma normalize_yaw_iter fuel x r :
  normalize_yaw fuel x = Some r ->
  exists k1 k2,
    r = Nat.iter k2 (fun y => fadd y TAU)
          (Nat.iter k1 (fun y => fsub y TAU) x).
Proof.
  unfold normalize_yaw.
  destruct (wrap_down fuel x) as [y |] eqn:Hd; [| discriminate].
  intro Hu. destruct (wrap_down_iter _ _ _ Hd) as (k1 & _ & ->).
  destruct (wrap_up_iter _ _ _ Hu) as (k2 & _ & ->).
  exists k1, k2. reflexivity.
Qed.

(** ** Concrete runs *)


Lemma read_pointer_rebases_witness :
  read_pointer MOHH1_CAMBASE_PTR ready
  = (Return 0x1000,
     log_access (EvRead (guest_base + MOHH1_CAMBASE_PTR) 4) ready).
Proof.
  refine (proj2 (read_pointer_rebases ready guest_image guest_base
                   MOHH1_CAMBASE_PTR (le_bytes 4 0x08001000)
                   eq_refl eq_refl _ eq_refl)).
  discriminate.
Defined.

Lemma unestablished_base_is_noop_witness :
  read_uint32 MOHH1_CAMBASE_PTR fresh
  = (Return 0, snd (print MsgBaseNotEstablished fresh)) /\
  psp_mohh1_inject 0 (float_of_Z 100) f_0 (float_of_Z 50) false fresh
  = (Return tt, snd (print MsgBaseNotEstablished fresh)).
Proof.
  destruct (unestablished_base_is_noop fresh MOHH1_CAMBASE_PTR 0 f_0 0%nat
              (float_of_Z 100) f_0 (float_of_Z 50) false eq_refl)
    as (Hu & _ & _ & _ & _ & _ & Hi & _).
  split; [exact Hu | exact Hi].
Defined.

Lemma clamp_pitch_bounds_witness :
  fle (fneg PITCH_LIMIT) (clamp_pitch (float_of_Z 2)) = true /\
  fle (clamp_pitch (float_of_Z 2)) PITCH_LIMIT = true.
Proof.
  destruct clamp_pitch_bounds as (Hb & _).
  destruct (Hb (float_of_Z 2) eq_refl) as (Hlo & Hhi & _).
  split; [exact Hlo | exact Hhi].
Defined.

(** The spec's second scenario run through the engine: dx 100, dy 50,
    sensitivity 50.0, [invert_pitch], on fov 75.0, yaw 0.0, pitch 1.0. *)
Lemma inject_computes_update_witness :
  let st4 :=
    snd (read_float (0x1000 + MOHH1_CAMY)
      (snd (read_float (0x1000 + MOHH1_CAMX)
        (snd (read_float (0x1000 + MOHH1_FOV)
          (snd (read_pointer MOHH1_CAMBASE_PTR ready))))))) in
  psp_mohh1_inject 0 (float_of_Z 100) (float_of_Z 50) (float_of_Z 50) true
    ready
  = bind (write_float (0x1000 + MOHH1_CAMX) (fneg (decimal 9375 4)))
         (fun _ => write_float (0x1000 + MOHH1_CAMY) (decimal 146875 5)) st4.
Proof.
  intro st4.
  refine (proj1 (inject_computes_update ready _ _ _ st4 0%nat
                   (float_of_Z 100) (float_of_Z 50) (float_of_Z 50) true
                   0x1000 (float_of_Z 75) f_0 (float_of_Z 1)
                   _ eq_refl _ eq_refl eq_refl eq_refl eq_refl));
    discriminate.
Defined.


(** The short buffer travels on: [read_uint32] decodes the two bytes as if
    they were four. *)
Lemma read_uint32_short_read :
  let short := store empty_image 0x2000 (le_bytes 2 0x4241) in
  fst (read_uint32 0x1000 (attached short [] (Some 0x1000))) = Return 0x4241.
Proof. reflexivity. Qed.

(** C3 fails on the code for a NaN pitch (for instance fov = infinity with
    dy = 0): [min] and [max] keep a NaN first argument, so NaN is what
    [write_float] receives. *)
Lemma clamp_pitch_nan :
  clamp_pitch S754_nan = S754_nan /\
  fle (clamp_pitch S754_nan) PITCH_LIMIT = false /\
  fle (fneg PITCH_LIMIT) (clamp_pitch S754_nan) = false /\
  new_cam_y f_0 (float_of_Z 50) false (S754_infinity false) (float_of_Z 1)
  = S754_nan.
Proof. repeat split. Qed.

(** The four bytes written for a clamped pitch hold the binary32 nearest to
    the limit, [0x3FBDE44E], which reads back as a float just above the
    float 1.483529806. *)
Lemma clamp_pitch_stored_bytes :
  pack_f (clamp_pitch (float_of_Z 2)) = Some (le_bytes 4 0x3FBDE44E) /\
  unpack_f (le_bytes 4 0x3FBDE44E)
  = Some (S754_finite false 6681224282112000 (-52)) /\
  PITCH_LIMIT = S754_finite false 6681224281494624 (-52) /\
  flt PITCH_LIMIT (S754_finite false 6681224282112000 (-52)) = true.
Proof. repeat split. Qed.

(** ** The yaw normalization *)

(** *** Half a turn is below pi *)

Section RealRange.

Import Reals Lra.
Local Open Scope R_scope.

(** Ten terms of Machin's series for [atan (1/3)] and [atan (1/7)]. *)
Lemma PI_lower : 3141592653 / 1000000000 < PI.
Proof.
  pose proof (PI_2_3_7_ineq 4) as [Hlow _].
  unfold PI_2_3_7_tg, Ratan_seq, tg_alt in Hlow.
  simpl sum_f_R0 in Hlow. simpl INR in Hlow. simpl pow in Hlow.
  lra.
Qed.

Lemma IZR_pow2 k : (0 <= k)%Z -> IZR (2 ^ k) = powerRZ 2 k.
Proof.
  destruct k as [| p | p]; [reflexivity | | lia]. intros _.
  change (2 ^ Z.pos p)%Z with (Z.pow_pos 2 p). apply Zpower_pos_powerRZ.
Qed.

Lemma F2R_scaled x : nice x -> F2R x * IZR (2 ^ 103) = IZR (scaled x).
Proof.
  destruct x as [s | s | | s m e]; cbn [nice F2R scaled]; try contradiction.
  - intros _. lra.
  - intros [_ He].
    replace (cond_Zopp s (Z.pos m * 2 ^ (e + 103)))
      with (cond_Zopp s (Z.pos m) * 2 ^ (e + 103))%Z
      by (destruct s; cbn [cond_Zopp]; lia).
    rewrite mult_IZR, !IZR_pow2 by lia.
    rewrite powerRZ_add by lra. ring.
Qed.

Lemma F2R_tiny s m e :
  valid (S754_finite s m e) = true -> (e < -103)%Z ->
  -1 < F2R (S754_finite s m e) < 1.
Proof.
  unfold valid, valid_binary, SpecFloat.bounded, canonical_mantissa.
  rewrite andb_true_iff, Z.eqb_eq. intros [Hc _] He.
  unfold fexp, SpecFloat.emin, prec, emax in Hc.
  pose proof (digits2_bounds m) as [_ Hm].
  assert (Hm53 : (Z.pos m < 2 ^ 53)%Z).
  { apply Z.lt_le_trans with (1 := Hm). apply Z.pow_le_mono_r; lia. }
  cbn [F2R].
  assert (Hinv : powerRZ 2 e * IZR (2 ^ (- e)) = 1).
  { rewrite IZR_pow2 by lia. rewrite <- powerRZ_add by lra.
    replace (e + - e)%Z with 0%Z by lia. reflexivity. }
  assert (Hbig : IZR (2 ^ 104) <= IZR (2 ^ (- e)))
    by (apply IZR_le, Z.pow_le_mono_r; lia).
  assert (Hpos : 0 < powerRZ 2 e) by (apply powerRZ_lt; lra).
  assert (Hm' : 0 < IZR (Z.pos m) < IZR (2 ^ 53))
    by (split; apply IZR_lt; lia).
  change (2 ^ 104)%Z with 20282409603651670423947251286016%Z in Hbig.
  change (2 ^ 53)%Z with 9007199254740992%Z in Hm'.
  set (u := powerRZ 2 e) in *. set (b := IZR (2 ^ (- e))) in *.
  set (a := IZR (Z.pos m)) in *.
  assert (Hu : u * 20282409603651670423947251286016 <= 1) by nra.
  destruct s; cbn [cond_Zopp].
  - change (IZR (- Z.pos m)) with (IZR (Z.opp (Z.pos m))).
    rewrite opp_IZR. fold a. nra.
  - fold a. nra.
Qed.

(** A finite float between minus half a turn and half a turn stands for a
    real number in the half-open interval from [-PI] to [PI]. *)
Lemma half_turn_within_PI r :
  valid r = true -> is_finite r = true ->
  fle NEG_HALF_TAU r = true -> fle r HALF_TAU = true ->
  - PI < F2R r <= PI.
Proof.
  intros Hv Hf Hge Hle. pose proof PI_lower as Hpi.
  assert (Hnice : nice r -> - PI < F2R r <= PI).
  { intro Hn.
    rewrite (fle_scaled _ _ (proj1 nice_neg_half) Hn), (proj2 nice_neg_half),
      Z.leb_le in Hge.
    rewrite (fle_scaled _ _ Hn (proj1 nice_half)), (proj2 nice_half),
      Z.leb_le in Hle.
    pose proof (F2R_scaled r Hn) as Hs.
    apply IZR_le in Hge, Hle. rewrite <- Hs in Hge, Hle.
    rewrite opp_IZR in Hge.
    change etaV with 31859534467560752597716141342720%Z in Hge, Hle.
    change (2 ^ 103)%Z with 10141204801825835211973625643008%Z in Hge, Hle.
    lra. }
  destruct r as [s | s | | s m e]; try discriminate.
  - apply Hnice. exact I.
  - destruct (Z_le_gt_dec (-103) e) as [He | He].
    + apply Hnice, valid_nice; assumption.
    + pose proof (F2R_tiny s m e Hv ltac:(lia)). lra.
Qed.

(** C2, as the code has it.  For every finite yaw between [-2^56] and
    [2^56] the normalization ends (from some iteration budget on) with a
    finite value between [-TAU/2] and [TAU/2], both included, which as a
    real number lies in the interval from [-PI], excluded, to [PI]; the
    value is the input after some number of rounded subtractions of [TAU]
    followed by some number of rounded additions. *)
Theorem normalize_yaw_range :
  forall x : float,
    valid x = true -> is_finite x = true ->
    fle (fneg YAW_MAX) x = true -> fle x YAW_MAX = true ->
    exists fuel r,
      (forall fuel', (fuel <= fuel')%nat -> normalize_yaw fuel' x = Some r) /\
      valid r = true /\ is_finite r = true /\
      fle (fdiv (fneg TAU) f_2) r = true /\ fle r (fdiv TAU f_2) = true /\
      - PI < F2R r <= PI /\
      exists k1 k2,
        r = Nat.iter k2 (fun y => fadd y TAU)
              (Nat.iter k1 (fun y => fsub y TAU) x).
Proof.
  intros x Hv Hf Hlo Hhi.
  destruct (normalize_yaw_total x Hv Hf Hlo Hhi)
    as (fuel & r & Hn & Hvr & Hfr & Hge & Hle).
  assert (Hreal : - PI < F2R r <= PI).
  { apply half_turn_within_PI; auto. }
  exists fuel, r. repeat split; auto; try apply Hreal.
  apply (normalize_yaw_iter fuel x r), Hn. lia.
Qed.

Lemma normalize_yaw_range_witness :
  exists fuel r,
    (forall fuel', (fuel <= fuel')%nat ->
       normalize_yaw fuel' (float_of_Z 100) = Some r) /\
    valid r = true /\ is_finite r = true /\
    fle (fdiv (fneg TAU) f_2) r = true /\ fle r (fdiv TAU f_2) = true /\
    - PI < F2R r <= PI /\
    exists k1 k2,
      r = Nat.iter k2 (fun y => fadd y TAU)
            (Nat.iter k1 (fun y => fsub y TAU) (float_of_Z 100)).
Proof.
  exact (normalize_yaw_range (float_of_Z 100) eq_refl eq_refl eq_refl eq_refl).
Defined.

End RealRange.

(** C10, as the code has it.  The loops end for every finite yaw between
    [-2^56] and [2^56]; they never end for a yaw above [2^56] or below
    [-2^56], finite or infinite, because adding or subtracting [TAU] is
    absorbed by rounding; a NaN yaw fails both loop tests and leaves at
    once. *)
Theorem yaw_loops_end_within_2_56 :
  (forall x : float,
     valid x = true -> is_finite x = true ->
     fle (fneg YAW_MAX) x = true -> fle x YAW_MAX = true ->
     exists fuel r,
       forall fuel', (fuel <= fuel')%nat -> normalize_yaw fuel' x = Some r) /\
  (forall x : float,
     valid x = true ->
     flt YAW_MAX x = true \/ flt x (fneg YAW_MAX) = true ->
     forall fuel, normalize_yaw fuel x = None) /\
  (forall fuel, normalize_yaw fuel S754_nan = Some S754_nan).
Proof.
  split; [| split].
  - intros x Hv Hf Hlo Hhi.
    destruct (normalize_yaw_total x Hv Hf Hlo Hhi) as (fuel & r & Hn & _).
    exists fuel, r. exact Hn.
  - exact normalize_yaw_diverges.
  - intros [| fuel]; reflexivity.
Qed.

(** At [2^56] itself the loops still end; at the next float, [2^56 + 16],
    they do not. *)
Lemma yaw_loops_end_within_2_56_witness :
  (exists fuel r,
     forall fuel', (fuel <= fuel')%nat -> normalize_yaw fuel' YAW_MAX = Some r) /\
  (forall fuel,
     normalize_yaw fuel (S754_finite false 4503599627370497 4) = None).
Proof.
  split.
  - exact (proj1 yaw_loops_end_within_2_56 YAW_MAX
             eq_refl eq_refl eq_refl eq_refl).
  - exact (proj1 (proj2 yaw_loops_end_within_2_56)
             (S754_finite false 4503599627370497 4) eq_refl
             (or_introl eq_refl)).
Defined.

(** C2 fails on the code: a yaw of [2^57] radians is finite, and the
    normalization never produces a result from it. *)
Lemma normalize_yaw_no_result :
  is_finite (float_of_Z (2 ^ 57)) = true /\
  ~ exists fuel r, normalize_yaw fuel (float_of_Z (2 ^ 57)) = Some r.
Proof.
  split; [reflexivity |]. intros (fuel & r & Hn).
  rewrite (normalize_yaw_diverges (float_of_Z (2 ^ 57)) eq_refl
             (or_introl eq_refl)) in Hn.
  discriminate.
Qed.

(** Where the loops do end the result is away from the input by a whole
    number of turns only up to rounding: from 20.0, three subtractions
    give a value whose exact distance to 20.0 is no multiple of [TAU]. *)
Lemma normalize_yaw_rounds :
  exists r,
    normalize_yaw 3 (float_of_Z 20) = Some r /\
    (scaled (float_of_Z 20) - scaled r) mod tauV <> 0.
Proof.
  eexists. split; [vm_compute; reflexivity |]. vm_compute. discriminate.
Qed.

(** C10 fails on the code at both ends: the finite yaw [2^60] keeps the
    first loop running for ever, and the non-finite NaN ends at once. *)
Lemma yaw_loop_spins_on_finite :
  (is_finite (float_of_Z (2 ^ 60)) = true /\
   ~ exists fuel r, normalize_yaw fuel (float_of_Z (2 ^ 60)) = Some r) /\
  (is_finite S754_nan = false /\
   normalize_yaw 0 S754_nan = Some S754_nan).
Proof.
  split; [split; [reflexivity |] | split; reflexivity].
  intros (fuel & r & Hn).
  rewrite (normalize_yaw_diverges (float_of_Z (2 ^ 60)) eq_refl
             (or_introl eq_refl)) in Hn.
  discriminate.
Qed.

(** The same through the engine: with the yaw [2^60] in the camera block
    a tick with dx = 1 never leaves the first loop, whatever the budget. *)
Lemma inject_spins :
  forall fuel,
    fst (psp_mohh1_inject fuel (float_of_Z 1) f_0 (float_of_Z 50) false
           (attached spinning_image guest_table (Some guest_base)))
    = Spinning.
Proof.
  intro fuel.
  set (st := attached spinning_image guest_table (Some guest_base)).
  pose proof (inject_run st _ _ _ _ fuel
                (float_of_Z 1) f_0 (float_of_Z 50) false
                0x1000 (float_of_Z 75) (float_of_Z (2 ^ 60)) (float_of_Z 1)
                ltac:(discriminate) eq_refl ltac:(discriminate)
                eq_refl eq_refl eq_refl eq_refl) as Hrun.
  cbv zeta in Hrun. rewrite Hrun. clear Hrun.
  assert (Hy : fsub (float_of_Z (2 ^ 60))
                 (fmul (fdiv (fmul (float_of_Z 1)
                                (fdiv (float_of_Z 50) f_20)) f_20000)
                    (float_of_Z 75))
               = float_of_Z (2 ^ 60)) by (vm_compute; reflexivity).
  rewrite Hy.
  rewrite (normalize_yaw_diverges (float_of_Z (2 ^ 60)) eq_refl
             (or_introl eq_refl)).
  reflexivity.
Qed.

(** * Further properties of the script *)

(** ** [psp_mohh1_status] and [close] *)

Lemma bytes_eqb_length a : forall b,
  bytes_eqb a b = true -> List.length a = List.length b.
Proof.
  induction a as [|x a IH]; intros [|y b] Hab; simpl in *;
    try discriminate; auto.
  apply andb_true_iff in Hab. destruct Hab as [_ Hab].
  f_equal. now apply IH.
Qed.

Lemma fetch_length img n : forall a, (List.length (fetch img a n) <= n)%nat.
Proof.
  induction n as [|n IH]; intros a; simpl; [lia|].
  destruct (img a); simpl; [specialize (IH (a + 1)); lia | lia].
Qed.

Lemma image_read_length (img : image) a n d :
  0 <= n -> stream_read img a n = inr d -> Z.of_nat (List.length d) <= n.
Proof.
  intros Hn. simpl. unfold image_read.
  destruct (a <? 0); [discriminate|].
  destruct (n <=? 0) eqn:E.
  - intros Hd. inversion Hd. simpl. lia.
  - pose proof (fetch_length img (Z.to_nat n) a) as Hl.
    destruct (fetch img a (Z.to_nat n)) eqn:Ef; [discriminate|].
    intros Hd. inversion Hd. subst d. lia.
Qed.

Section Status.

Context {F : Type} `{MemStream F}.

Lemma status_from_spec count : forall i (st : ProcessMemory F),
  (forall f a d, mem_file st = Some f -> stream_read f a 8 = inr d ->
     (List.length d <= 8)%nat) ->
  let r := status_from count i st in
  fst r <> Return true /\
  reads_only st (snd r) /\
  (fst r = Return false ->
   accesses (snd r) =
   accesses st ++
     map (fun k => EvRead (i + 0x1000 * Z.of_nat k) 8) (seq 0 count)).
Proof.
  induction count as [|n IH]; intros i st Hlaw.
  - simpl. split; [discriminate|]. split; [apply reads_only_refl|].
    intros _. now rewrite app_nil_r.
  - cbn [status_from]. unfold bind, read_memory.
    destruct (mem_file st) as [f|] eqn:Ef.
    + destruct (stream_read f i 8) as [e|d] eqn:Er.
      * cbn -[Z.mul]. split; [discriminate|]. split; [|discriminate].
        repeat split; auto. exists [EvRead i 8]. auto.
      * destruct (bytes_eqb d ULUS_1014) eqn:Eq.
        { apply bytes_eqb_length in Eq.
          specialize (Hlaw f i d eq_refl Er). simpl in Eq. lia. }
        set (st1 := log_access (EvRead i 8) st).
        assert (Hlaw1 : forall f a d, mem_file st1 = Some f ->
                  stream_read f a 8 = inr d -> (List.length d <= 8)%nat)
          by (intros f0 a0 d0 Hf0; apply Hlaw; unfold st1 in Hf0;
              cbn in Hf0; rewrite Ef in Hf0; exact Hf0).
        destruct (IH (i + 0x1000) st1 Hlaw1) as (H1 & H2 & H3).
        split; [exact H1|]. split.
        { eapply reads_only_trans; [|exact H2].
          repeat split; auto. exists [EvRead i 8]. auto. }
        intros Hf. rewrite (H3 Hf). unfold st1. cbn [accesses log_access].
        rewrite <- app_assoc. f_equal. cbn [seq map app].
        f_equal; [f_equal; lia|].
        rewrite <- seq_shift, map_map. apply map_ext. intros k.
        f_equal. lia.
    + cbn. split; [discriminate|]. split; [apply reads_only_refl|discriminate].
Qed.

(** X1.  [psp_mohh1_status] never answers [True]: each probe reads at most
    eight bytes and compares them with a nine-byte literal.  It only reads,
    and answers [False] after exactly 65536 reads of eight bytes, one per
    4 KiB page from address 0 on. *)
Theorem psp_mohh1_status_never_true :
  forall st : ProcessMemory F,
    (forall f a d, mem_file st = Some f -> stream_read f a 8 = inr d ->
       (List.length d <= 8)%nat) ->
    let r := psp_mohh1_status st in
    fst r <> Return true /\
    reads_only st (snd r) /\
    (fst r = Return false ->
     accesses (snd r) =
     accesses st ++
       map (fun k => EvRead (0x1000 * Z.of_nat k) 8)
           (seq 0 (Z.to_nat 65536))).
Proof.
  intros st Hlaw. unfold psp_mohh1_status.
  destruct (status_from_spec (Z.to_nat (0x10000000 / 0x1000)) 0 st Hlaw)
    as (H1 & H2 & H3).
  split; [exact H1|]. split; [exact H2|].
  intros Hf. rewrite (H3 Hf). reflexivity.
Qed.


End Status.

(** ** The mouse tracker *)

Lemma run_tracker_conserves calls : forall t,
  let r := run_tracker calls t in
  total (map fst (fst r)) + delta_x (snd r)
  = delta_x t + (prev_x (snd r) - prev_x t) /\
  total (map snd (fst r)) + delta_y (snd r)
  = delta_y t + (prev_y (snd r) - prev_y t) /\
  is_tracking (snd r) = is_tracking t.
Proof.
  induction calls as [|c calls IH]; intros t; cbn zeta.
  - simpl. repeat split; lia || reflexivity.
  - destruct c as [x y|]; cbn [run_tracker].
    + destruct (IH (on_move x y t)) as (Hx & Hy & Ht).
      cbn zeta in Hx, Hy, Ht. rewrite Hx, Hy, Ht. simpl.
      repeat split; lia || reflexivity.
    + unfold get_and_reset_deltas.
      specialize (IH (mkTracker (prev_x t) (prev_y t) 0 0 (is_tracking t))).
      cbn zeta in IH.
      destruct (run_tracker calls
                  (mkTracker (prev_x t) (prev_y t) 0 0 (is_tracking t)))
        as [ds t''].
      destruct IH as (Hx & Hy & Ht). simpl in *.
      repeat split; lia || assumption.
Qed.

(** X3.  No movement is lost or counted twice between the listener and the
    main loop: over any sequence of [on_move] callbacks and
    [get_and_reset_deltas] calls, what the calls handed out plus what is
    still pending equals what was pending at the start plus the
    displacement of the pointer since then, on each axis. *)
Theorem tracker_conserves_motion :
  forall (calls : list tracker_call) (t : MouseTracker),
    let r := run_tracker calls t in
    total (map fst (fst r)) + delta_x (snd r)
    = delta_x t + (prev_x (snd r) - prev_x t) /\
    total (map snd (fst r)) + delta_y (snd r)
    = delta_y t + (prev_y (snd r) - prev_y t) /\
    is_tracking (snd r) = is_tracking t.
Proof. intros calls t. apply run_tracker_conserves. Qed.

(** X20.  A tracking session: from a new tracker started with the pointer
    at [p], whatever callbacks and calls follow, the movement handed out
    plus the pending one is the displacement of the pointer from [p]
    (not from the origin the attributes are initialised with).  Starting
    again while tracking changes nothing, and stopping keeps the pending
    movement, which a later start does not clear. *)
Theorem tracking_session_counts_from_start :
  forall (p : Z * Z) (calls : list tracker_call) (t : MouseTracker),
    let r := run_tracker calls (start_tracking p new_tracker) in
    total (map fst (fst r)) + delta_x (snd r) = prev_x (snd r) - fst p /\
    total (map snd (fst r)) + delta_y (snd r) = prev_y (snd r) - snd p /\
    (is_tracking t = true -> start_tracking p t = t) /\
    delta_x (start_tracking p (stop_tracking t)) = delta_x t /\
    delta_y (start_tracking p (stop_tracking t)) = delta_y t.
Proof.
  intros p calls t.
  destruct (run_tracker_conserves calls (start_tracking p new_tracker))
    as (Hx & Hy & _).
  cbn zeta in *.
  change (delta_x (start_tracking p new_tracker)) with 0 in Hx.
  change (prev_x (start_tracking p new_tracker)) with (fst p) in Hx.
  change (delta_y (start_tracking p new_tracker)) with 0 in Hy.
  change (prev_y (start_tracking p new_tracker)) with (snd p) in Hy.
  split; [lia|]. split; [lia|]. split; [|split; reflexivity].
  intros Ht. unfold start_tracking. now rewrite Ht.
Qed.

(** ** Integers and their bytes *)

Lemma Z_of_byte_range b : 0 <= Z_of_byte b < 256.
Proof. unfold Z_of_byte. pose proof (Byte.to_N_bounded b). lia. Qed.

Lemma Z_of_byte_of_Z z : Z_of_byte (byte_of_Z z) = z mod 256.
Proof.
  unfold byte_of_Z, Z_of_byte.
  pose proof (Z.mod_pos_bound z 256 ltac:(lia)) as Hb.
  destruct (Byte.of_N (Z.to_N (z mod 256))) as [b|] eqn:E.
  - apply Byte.to_of_N in E. rewrite E. lia.
  - apply Byte.of_N_None_iff in E. lia.
Qed.

Lemma byte_of_Z_of_byte b : byte_of_Z (Z_of_byte b) = b.
Proof.
  unfold byte_of_Z. rewrite Z.mod_small by apply Z_of_byte_range.
  unfold Z_of_byte. rewrite N2Z.id, Byte.of_to_N. reflexivity.
Qed.

Lemma le_bytes_length n : forall z, List.length (le_bytes n z) = n.
Proof. induction n; intro z; simpl; [reflexivity | now rewrite IHn]. Qed.

Lemma int_from_bytes_range d :
  0 <= int_from_bytes d < 256 ^ Z.of_nat (List.length d).
Proof.
  induction d as [|b d IH]; [simpl; lia|].
  cbn [int_from_bytes List.length]. rewrite Nat2Z.inj_succ, Z.pow_succ_r by lia.
  pose proof (Z_of_byte_range b). lia.
Qed.

Lemma int_from_le_bytes n : forall z,
  int_from_bytes (le_bytes n z) = z mod 256 ^ Z.of_nat n.
Proof.
  induction n as [|n IH]; intro z.
  - simpl. now rewrite Z.mod_1_r.
  - cbn [le_bytes int_from_bytes]. rewrite Z_of_byte_of_Z, IH.
    rewrite Nat2Z.inj_succ, Z.pow_succ_r by lia.
    rewrite Z.rem_mul_r; [reflexivity | lia |].
    apply Z.pow_pos_nonneg; lia.
Qed.

Lemma le_bytes_int_from d : le_bytes (List.length d) (int_from_bytes d) = d.
Proof.
  induction d as [|b d IH]; [reflexivity|].
  cbn [List.length le_bytes int_from_bytes].
  pose proof (Z_of_byte_range b) as Hb.
  f_equal.
  - transitivity (byte_of_Z (Z_of_byte b)); [|apply byte_of_Z_of_byte].
    unfold byte_of_Z.
    replace ((Z_of_byte b + 256 * int_from_bytes d) mod 256)
      with (Z_of_byte b mod 256); [reflexivity|].
    rewrite (Z.mul_comm 256), Z.mod_add by lia. reflexivity.
  - replace ((Z_of_byte b + 256 * int_from_bytes d) / 256)
      with (int_from_bytes d); [exact IH|].
    rewrite (Z.mul_comm 256), Z.div_add by lia.
    rewrite (Z.div_small (Z_of_byte b)) by lia. reflexivity.
Qed.

Lemma to_bytes_in_range {F} `{MemStream F} value size (st : ProcessMemory F) :
  0 <= value < 256 ^ Z.of_nat size ->
  to_bytes value size st = (Return (le_bytes size value), st).
Proof.
  intros Hv. unfold to_bytes.
  replace ((0 <=? value) && (value <? 256 ^ Z.of_nat size)) with true;
    [reflexivity|].
  symmetry. apply andb_true_iff. split; [apply Z.leb_le|apply Z.ltb_lt]; lia.
Qed.

Lemma to_bytes_out_of_range {F} `{MemStream F} value size
    (st : ProcessMemory F) :
  ~ 0 <= value < 256 ^ Z.of_nat size ->
  to_bytes value size st = (Raise OverflowError, st).
Proof.
  intros Hv. unfold to_bytes.
  replace ((0 <=? value) && (value <? 256 ^ Z.of_nat size)) with false;
    [reflexivity|].
  symmetry. apply andb_false_iff.
  destruct (Z.leb_spec 0 value); [right; apply Z.ltb_ge; lia | now left].
Qed.

Section MoreAccessors.

Context {F : Type} `{MemStream F}.

Lemma base_of_some (st : ProcessMemory F) b :
  base_of st = Some b -> game_memory_base st = Some b /\ b <> 0.
Proof.
  unfold base_of. destruct (game_memory_base st) as [b'|]; [|discriminate].
  destruct (Z.eqb_spec b' 0); [discriminate|].
  intros E. inversion E. subst. auto.
Qed.

(** X4.  An integer is written as exactly [size] little-endian bytes that
    [int.from_bytes] decodes back to it; a negative value or one that does
    not fit raises [OverflowError] before the memory file is reached.
    [write_uint16] is the two-byte case at [game_memory_base + address]. *)
Theorem write_int_encodes :
  forall (st : ProcessMemory F) (base address value : Z) (n : nat),
    base_of st = Some base ->
    (0 <= value < 256 ^ Z.of_nat n ->
     write_int address value n st
     = write_memory address (le_bytes n value) st /\
     List.length (le_bytes n value) = n /\
     int_from_bytes (le_bytes n value) = value) /\
    (~ 0 <= value < 256 ^ Z.of_nat n ->
     write_int address value n st = (Raise OverflowError, st)) /\
    (0 <= value < 65536 ->
     write_uint16 address value st
     = write_memory (base + address) (le_bytes 2 value) st) /\
    (~ 0 <= value < 65536 ->
     write_uint16 address value st = (Raise OverflowError, st)).
Proof.
  intros st base address value n Hb. repeat split.
  - unfold write_int, bind. now rewrite to_bytes_in_range.
  - apply le_bytes_length.
  - rewrite int_from_le_bytes. apply Z.mod_small. assumption.
  - intros Hv. unfold write_int, bind. now rewrite to_bytes_out_of_range.
  - intros Hv. unfold write_uint16, guarded. rewrite Hb. unfold bind.
    now rewrite to_bytes_in_range.
  - intros Hv. unfold write_uint16, guarded. rewrite Hb. unfold bind.
    now rewrite to_bytes_out_of_range.
Qed.

(** X5.  When the file object hands back at most the bytes asked for,
    [read_uint16] answers within [0, 2^16), [read_uint32] within
    [0, 2^32), and [read_pointer] strictly between [-0x08000000] and
    [2^32 - 0x08000000]: a stored pointer below [0x08000000] comes out
    negative. *)
Theorem unsigned_reads_in_range :
  forall (st : ProcessMemory F) (address : Z),
    (forall f a n d, mem_file st = Some f -> 0 <= n ->
       stream_read f a n = inr d -> Z.of_nat (List.length d) <= n) ->
    match fst (read_uint16 address st) with
    | Return v => 0 <= v < 2 ^ 16
    | _ => True
    end /\
    match fst (read_uint32 address st) with
    | Return v => 0 <= v < 2 ^ 32
    | _ => True
    end /\
    match fst (read_pointer address st) with
    | Return v => - 0x08000000 < v < 2 ^ 32 - 0x08000000
    | _ => True
    end.
Proof.
  intros st address Hlaw.
  assert (Hrange : forall a n d f, mem_file st = Some f ->
            stream_read f a n = inr d -> 0 <= n ->
            0 <= int_from_bytes d < 256 ^ n).
  { intros a n d f Hf Hr Hn. specialize (Hlaw f a n d Hf Hn Hr).
    pose proof (int_from_bytes_range d) as Hd.
    assert (256 ^ Z.of_nat (List.length d) <= 256 ^ n)
      by (apply Z.pow_le_mono_r; lia).
    lia. }
  unfold read_pointer, read_uint16, read_uint32, guarded.
  destruct (base_of st) as [b|] eqn:Hb; [|cbn; lia].
  unfold bind, read_uint32, guarded. rewrite Hb.
  unfold read_int, bind, read_memory.
  destruct (mem_file st) as [f|] eqn:Hf; [|cbn; auto].
  destruct (stream_read f (b + address) 2) as [e2|d2] eqn:E2;
  destruct (stream_read f (b + address) 4) as [e4|d4] eqn:E4; cbn -[Z.pow];
    repeat split; auto;
    try (change (2 ^ 16) with (256 ^ 2); eapply Hrange; eauto; lia);
    try (change (2 ^ 32) with (256 ^ 4); eapply Hrange; eauto; lia).
  all: assert (Hr : 0 <= int_from_bytes d4 < 256 ^ 4)
         by (eapply Hrange; eauto; lia).
  all: change (256 ^ 4) with (2 ^ 32) in Hr.
  all: destruct (Z.eqb_spec (int_from_bytes d4) 0); cbn -[Z.pow]; lia.
Qed.

(** X6.  A read that comes back with a number of bytes other than four
    makes [read_float] raise [struct.error], after the read; [read_uint32]
    on the same bytes answers the integer they spell.  On four bytes
    [read_float] answers the binary32 value of their pattern. *)
Theorem read_float_needs_four_bytes :
  forall (st : ProcessMemory F) (f : F) (base address : Z) (data : bytes),
    mem_file st = Some f ->
    base_of st = Some base ->
    stream_read f (base + address) 4 = inr data ->
    let st' := log_access (EvRead (base + address) 4) st in
    read_uint32 address st = (Return (int_from_bytes data), st') /\
    (List.length data = 4%nat ->
     read_float address st
     = (Return (float_of_bits32 (int_from_bytes data)), st')) /\
    (List.length data <> 4%nat ->
     read_float address st = (Raise StructError, st')).
Proof.
  intros st f base address data Hf Hb Hr st'.
  unfold read_uint32, read_float, guarded. rewrite Hb.
  unfold read_int, bind, read_memory. rewrite Hf, Hr. unfold unpack_f.
  split; [reflexivity|]. split; intros Hl.
  - rewrite Hl. reflexivity.
  - apply Nat.eqb_neq in Hl. rewrite Hl. reflexivity.
Qed.

(** X7.  A camera pointer that reads as [0] or as [0x08000000] (which
    rebases to [0]) ends the tick after the one read that fetched it,
    whatever the mouse movement: nothing else is read, nothing is written,
    nothing is printed. *)
Theorem inject_null_pointer_returns :
  forall (st : ProcessMemory F) (f : F) (base : Z) (data : bytes)
         (fuel : nat) (dx dy sensitivity : float) (invertpitch : bool),
    mem_file st = Some f ->
    base_of st = Some base ->
    stream_read f (base + MOHH1_CAMBASE_PTR) 4 = inr data ->
    int_from_bytes data = 0 \/ int_from_bytes data = 0x08000000 ->
    psp_mohh1_inject fuel dx dy sensitivity invertpitch st
    = (Return tt, log_access (EvRead (base + MOHH1_CAMBASE_PTR) 4) st).
Proof.
  intros st f base data fuel dx dy sensitivity invertpitch Hf Hb Hr H0.
  unfold psp_mohh1_inject, guarded. rewrite Hb.
  unfold bind at 1. unfold read_pointer, guarded. rewrite Hb.
  unfold bind at 1. unfold read_uint32, guarded. rewrite Hb.
  unfold read_int, bind, read_memory. rewrite Hf, Hr.
  destruct H0 as [-> | ->]; reflexivity.
Qed.

Lemma qualifies_ext (mf : option F) r r' :
  start r = start r' -> size r = size r' -> qualifies mf r = qualifies mf r'.
Proof.
  intros Hs Hz. unfold qualifies, size_ok, content_ok, first_bytes.
  rewrite Hs, Hz. reflexivity.
Qed.

Lemma find_ext (mf : option F) : forall rs rs',
  map start rs = map start rs' -> map size rs = map size rs' ->
  option_map start (find (qualifies mf) rs)
  = option_map start (find (qualifies mf) rs') /\
  probes mf rs = probes mf rs'.
Proof.
  induction rs as [|r rs IH]; intros [|r' rs'] Hs Hz; try discriminate.
  - split; reflexivity.
  - cbn [map] in Hs, Hz. injection Hs as Hs1 Hs2. injection Hz as Hz1 Hz2.
    destruct (IH rs' Hs2 Hz2) as [IH1 IH2].
    pose proof (qualifies_ext mf r r' Hs1 Hz1) as Hq.
    assert (Hok : size_ok r = size_ok r') by (unfold size_ok; now rewrite Hz1).
    unfold probes in *. cbn [find upto]. rewrite <- Hq.
    destruct (qualifies mf r).
    + split; [cbn; now rewrite Hs1|].
      destruct mf; [|reflexivity]. cbn [filter]. rewrite <- Hok.
      destruct (size_ok r); cbn; now rewrite ?Hs1.
    + split; [exact IH1|].
      destruct mf; [|reflexivity]. cbn [filter]. rewrite <- Hok.
      destruct (size_ok r); cbn [map]; now rewrite ?Hs1, IH2.
Qed.

Lemma find_game_memory_scan (st : ProcessMemory F) regions :
  maps_file st = Some regions ->
  find_game_memory st = scan regions (snd (print MsgScanning st)).
Proof.
  intros Hm. unfold find_game_memory. rewrite Hm. reflexivity.
Qed.

(** X8.  Discovery looks at the start and the size of each row only: two
    mapping tables that agree on them give the same answer, the same base
    and the same reads, whatever permissions and paths the rows carry. *)
Theorem discovery_ignores_perms_and_path :
  forall (st st' : ProcessMemory F) (regions regions' : list region),
    maps_file st = Some regions ->
    maps_file st' = Some regions' ->
    map start regions = map start regions' ->
    map size regions = map size regions' ->
    mem_file st' = mem_file st ->
    game_memory_base st' = game_memory_base st ->
    accesses st' = accesses st ->
    fst (find_game_memory st') = fst (find_game_memory st) /\
    game_memory_base (snd (find_game_memory st'))
    = game_memory_base (snd (find_game_memory st)) /\
    accesses (snd (find_game_memory st'))
    = accesses (snd (find_game_memory st)).
Proof.
  intros st st' regions regions' Hm Hm' Hs Hz Hf Hb Ha.
  rewrite (find_game_memory_scan st regions Hm).
  rewrite (find_game_memory_scan st' regions' Hm').
  destruct (scan_spec regions (snd (print MsgScanning st)))
    as (R1 & _ & _ & R2 & R3).
  destruct (scan_spec regions' (snd (print MsgScanning st')))
    as (R1' & _ & _ & R2' & R3').
  cbn [print snd mem_file game_memory_base accesses] in *.
  rewrite Hf in *.
  destruct (find_ext (mem_file st) regions regions' Hs Hz) as [E1 E2].
  rewrite R1, R1', R2, R2', R3, R3', Ha, Hb, E2, <- E1.
  split; [reflexivity|]. split; [|reflexivity].
  revert E1.
  destruct (find (qualifies (mem_file st)) regions),
           (find (qualifies (mem_file st)) regions'); cbn; congruence.
Qed.


End MoreAccessors.

Section Pattern.

Context {F : Type} `{MemStream F}.

Lemma pack_f_length v d : pack_f v = Some d -> List.length d = 4%nat.
Proof.
  unfold pack_f. destruct (bits32_of_float v); [|discriminate].
  intros E. inversion E. reflexivity.
Qed.

Ltac norm :=
  cbv beta iota;
  cbn [mem_file maps_file game_memory_base accesses stdout];
  repeat match goal with E : (_ =? 0) = false |- _ => rewrite E end;
  cbv beta iota.

Ltac tick_leaf b cam x y n :=
  exists b; exists cam; exists x; exists y; exists n; cbn -[Z.add];
  rewrite <- ?app_assoc, ?app_nil_r;
  repeat split;
  try reflexivity; try (eapply pack_f_length; eassumption);
  try (intros;
       first [discriminate | congruence
             | left; split; reflexivity | right; lia]).

(** X10.  What a tick does to the memory file is an initial segment of one
    fixed sequence: the read of the camera pointer, the reads of the field
    of view, the yaw and the pitch in the block it points to, then the
    write of the yaw and the write of the pitch, four bytes each.  Nothing
    is written before the four reads are done, the field of view and the
    pointer are never written, nothing is printed once a base is
    established, and a tick that returns has stopped after
    no access (no base), one read (null pointer), two reads (no movement)
    or all six steps. *)
Theorem inject_access_pattern :
  forall (st : ProcessMemory F) (fuel : nat) (dx dy sensitivity : float)
         (invertpitch : bool),
    let r := psp_mohh1_inject fuel dx dy sensitivity invertpitch st in
    exists (b cam : Z) (x y : bytes) (n : nat),
      accesses (snd r) =
      accesses st ++
        firstn n [EvRead (b + MOHH1_CAMBASE_PTR) 4;
                  EvRead (b + (cam + MOHH1_FOV)) 4;
                  EvRead (b + (cam + MOHH1_CAMX)) 4;
                  EvRead (b + (cam + MOHH1_CAMY)) 4;
                  EvWrite (b + (cam + MOHH1_CAMX)) x;
                  EvWrite (b + (cam + MOHH1_CAMY)) y] /\
      List.length x = 4%nat /\ List.length y = 4%nat /\
      (forall b0, base_of st = Some b0 -> b = b0) /\
      (base_of st <> None -> stdout (snd r) = stdout st) /\
      (fst r = Return tt ->
       (n = 0 /\ base_of st = None) \/ n = 1 \/ n = 2 \/ n = 6)%nat.
Proof.
  intros [mf maps gb acc out] fuel dx dy sensitivity invertpitch. cbv zeta.
  set (z4 := le_bytes 4 0).
  cbv beta iota delta [psp_mohh1_inject guarded base_of bind read_pointer
    read_uint32 read_int read_memory read_float write_float write_memory
    ret raise spin print log_access].
  cbn [mem_file maps_file game_memory_base accesses stdout].
  destruct gb as [b|]; [|tick_leaf 0%Z 0%Z z4 z4 0%nat].
  destruct (Z.eqb_spec b 0) as [Hb0|Hb0]; [tick_leaf 0%Z 0%Z z4 z4 0%nat|].
  destruct mf as [f|]; [|tick_leaf b 0%Z z4 z4 0%nat].
  assert (Eb : (b =? 0) = false) by now apply Z.eqb_neq.
  destruct (stream_read f (b + MOHH1_CAMBASE_PTR) 4) as [e|d] eqn:E1;
    norm; [tick_leaf b 0%Z z4 z4 1%nat|].
  destruct (int_from_bytes d =? 0) eqn:Eraw; norm;
    [tick_leaf b 0%Z z4 z4 1%nat|].
  change 134217728 with 0x8000000.
  set (cam := int_from_bytes d - 0x8000000).
  destruct (cam =? 0) eqn:Ecam; norm; [tick_leaf b 0%Z z4 z4 1%nat|].
  destruct (stream_read f (b + (cam + MOHH1_FOV)) 4) as [e|d2] eqn:E2;
    norm; [tick_leaf b cam z4 z4 2%nat|].
  destruct (unpack_f d2) as [fov|]; norm; [|tick_leaf b cam z4 z4 2%nat].
  destruct (feq dx f_0 && feq dy f_0); norm; [tick_leaf b cam z4 z4 2%nat|].
  destruct (stream_read f (b + (cam + MOHH1_CAMX)) 4) as [e|d3] eqn:E3;
    norm; [tick_leaf b cam z4 z4 3%nat|].
  destruct (unpack_f d3) as [yaw|]; norm; [|tick_leaf b cam z4 z4 3%nat].
  destruct (stream_read f (b + (cam + MOHH1_CAMY)) 4) as [e|d4] eqn:E4;
    norm; [tick_leaf b cam z4 z4 4%nat|].
  destruct (unpack_f d4) as [pitch|]; norm; [|tick_leaf b cam z4 z4 4%nat].
  destruct (normalize_yaw fuel (new_cam_x dx sensitivity fov yaw))
    as [yaw'|]; norm; [|tick_leaf b cam z4 z4 4%nat].
  destruct (pack_f yaw') as [x|] eqn:Ex; norm;
    [|tick_leaf b cam z4 z4 4%nat].
  destruct (stream_write f (b + (cam + MOHH1_CAMX)) x) as [f' [e|]];
    norm; [tick_leaf b cam x z4 5%nat|].
  destruct (pack_f (clamp_pitch
              (new_cam_y dy sensitivity invertpitch fov pitch)))
    as [y|] eqn:Ey; norm; [|tick_leaf b cam x z4 5%nat].
  destruct (stream_write f' (b + (cam + MOHH1_CAMY)) y) as [f'' [e|]];
    norm; tick_leaf b cam x y 6%nat.
Qed.

End Pattern.

(** ** Rounding to binary32 and back *)

Lemma fexp32 z : fexp 24 128 z = Z.max (z - 24) (-149).
Proof. reflexivity. Qed.

(** A mantissa of at most 53 bits is widened to 53 bits, exactly. *)
Lemma binary_round_widen s m e :
  let d := Zpos (digits2_pos m) in
  d <= 53 -> -1074 <= d + e - 53 -> d + e - 53 <= 971 ->
  exists m', Zpos m' = Zpos m * 2 ^ (53 - d) /\
             binary_round prec emax s m e = S754_finite s m' (d + e - 53).
Proof.
  intros d Hd Hlo Hhi. unfold binary_round. fold d.
  rewrite fexp_normal by lia.
  pose proof (shl_align_fst m e (d + e - 53) ltac:(lia)) as Hm'.
  assert (Hsnd : snd (shl_align m e (d + e - 53)) = d + e - 53).
  { unfold shl_align. destruct (d + e - 53 - e) eqn:E; cbn [snd]; lia. }
  destruct (shl_align m e (d + e - 53)) as [m' e']. cbn [fst snd] in *.
  subst e'. replace (e - (d + e - 53)) with (53 - d) in Hm' by lia.
  assert (Hd' : Zpos (digits2_pos m') = 53).
  { rewrite (digits2_shift m (53 - d) ltac:(lia) m' Hm'). fold d. lia. }
  exists m'. split; [exact Hm'|].
  apply binary_round_aux_canonical; [exact Hd' | lia].
Qed.

(** Rounding the widened mantissa to 24 bits gives back a mantissa and an
    exponent that are canonical for binary32. *)
Lemma binary32_round_back s m e m' :
  let d := Zpos (digits2_pos m) in
  d <= 24 -> fexp 24 128 (d + e) = e -> e <= 104 ->
  Zpos m' = Zpos m * 2 ^ (53 - d) ->
  binary_round 24 128 s m' (d + e - 53) = S754_finite s m e.
Proof.
  intros d Hd Hcan He Hm'.
  assert (Hd' : Zpos (digits2_pos m') = 53).
  { rewrite (digits2_shift m (53 - d) ltac:(lia) m' Hm'). fold d. lia. }
  unfold binary_round. rewrite Hd'.
  replace (53 + (d + e - 53)) with (d + e) by lia. rewrite Hcan.
  assert (Hsh : shl_align m' (d + e - 53) e = (m', d + e - 53)).
  { unfold shl_align. destruct (e - (d + e - 53)) eqn:E; try lia; reflexivity. }
  rewrite Hsh. unfold binary_round_aux, shr_fexp.
  cbn [Zdigits2 shr_record_of_loc]. rewrite Hd'.
  replace (53 + (d + e - 53)) with (d + e) by lia. rewrite Hcan.
  replace (e - (d + e - 53)) with (53 - d) by lia.
  destruct (53 - d) as [| p | p] eqn:Ep; try lia.
  cbn [shr]. rewrite iter_pos_nat, shr_iter by lia.
  rewrite positive_nat_Z, round_shr_after by lia.
  rewrite (rne_exact (Zpos m') (Zpos p) (Zpos m)) by (lia || exact Hm').
  cbn [Zdigits2]. fold d.
  replace (d + e - 53 + Z.pos p) with e by lia.
  rewrite Hcan. replace (e - e) with 0 by lia.
  cbn [shr shr_record_of_loc shr_m].
  replace (e <=? 128 - 24) with true by (symmetry; apply Z.leb_le; lia).
  reflexivity.
Qed.

(** The three fields of a 32-bit pattern. *)
Lemma bits32_fields bits :
  0 <= bits < 2 ^ 32 ->
  let s := Z.testbit bits 31 in
  let e := Z.land (Z.shiftr bits 23) 255 in
  let m := Z.land bits (2 ^ 23 - 1) in
  0 <= e < 256 /\ 0 <= m < 2 ^ 23 /\ bits = sign_bit s + e * 2 ^ 23 + m.
Proof.
  intros Hb s e m.
  assert (Hm : m = bits mod 2 ^ 23).
  { unfold m. change (2 ^ 23 - 1) with (Z.ones 23). apply Z.land_ones. lia. }
  assert (He : e = (bits / 2 ^ 23) mod 2 ^ 8).
  { unfold e. change 255 with (Z.ones 8). rewrite Z.land_ones by lia.
    rewrite Z.shiftr_div_pow2 by lia. reflexivity. }
  assert (Hs : sign_bit s = (bits / 2 ^ 31) * 2 ^ 31).
  { unfold s, sign_bit. rewrite Z.testbit_odd, Z.shiftr_div_pow2 by lia.
    assert (0 <= bits / 2 ^ 31 < 2).
    { split; [apply Z.div_pos; lia | apply Z.div_lt_upper_bound; lia]. }
    assert (Hq : bits / 2 ^ 31 = 0 \/ bits / 2 ^ 31 = 1) by lia.
    destruct Hq as [-> | ->]; reflexivity. }
  pose proof (Z.mod_pos_bound bits (2 ^ 23) ltac:(lia)).
  pose proof (Z.mod_pos_bound (bits / 2 ^ 23) (2 ^ 8) ltac:(lia)).
  pose proof (Z.div_mod bits (2 ^ 23) ltac:(lia)).
  pose proof (Z.div_mod (bits / 2 ^ 23) (2 ^ 8) ltac:(lia)).
  assert (Hdd : bits / 2 ^ 23 / 2 ^ 8 = bits / 2 ^ 31).
  { rewrite Z.div_div by lia. reflexivity. }
  rewrite Hs, He, Hm. change (2 ^ 8) with 256 in *.
  repeat split; try lia.
Qed.

Lemma float_of_bits32_round_trip bits :
  0 <= bits < 2 ^ 32 ->
  bits32_of_float (float_of_bits32 bits)
  = Some (if is_nan (float_of_bits32 bits) then 0x7FC00000 else bits).
Proof.
  intros Hb. destruct (bits32_fields bits Hb) as (He & Hm & Hbits).
  unfold float_of_bits32.
  set (s := Z.testbit bits 31) in *.
  set (e := Z.land (Z.shiftr bits 23) 255) in *.
  set (m := Z.land bits (2 ^ 23 - 1)) in *.
  clearbody s e m.
  destruct (Z.eqb_spec e 255) as [E255 | N255].
  - destruct (Z.eqb_spec m 0) as [M0 | M0]; cbn [is_nan bits32_of_float].
    + f_equal. subst. lia.
    + reflexivity.
  - destruct (Z.eqb_spec e 0) as [E0 | N0].
    + destruct m as [| p | p]; try lia.
      * cbn [is_nan bits32_of_float]. f_equal. lia.
      * set (d := Zpos (digits2_pos p)).
        assert (Hd : 1 <= d <= 23).
        { pose proof (digits2_bounds p) as [Hlo Hhi]. fold d in Hlo, Hhi.
          split; [unfold d; lia|].
          destruct (Z_le_gt_dec d 23); [assumption|].
          assert (2 ^ 23 <= 2 ^ (d - 1)) by (apply Z.pow_le_mono_r; lia).
          lia. }
        destruct (binary_round_widen s p (-149)) as (m' & Hm' & Hw);
          fold d; try lia.
        rewrite Hw. cbn [is_nan bits32_of_float].
        replace (d + -149 - 53) with (d + (-149) - 53) by lia.
        rewrite (binary32_round_back s p (-149) m'); fold d;
          try lia; [| rewrite fexp32; lia | exact Hm'].
        replace (Zpos p <? 2 ^ 23) with true by (symmetry; apply Z.ltb_lt; lia).
        f_equal. lia.
    + destruct (m + 2 ^ 23) as [| p | p] eqn:Ep; try lia.
      set (d := Zpos (digits2_pos p)).
      assert (Hd : d = 24).
      { apply digits2_unique. simpl (24 - 1). lia. }
      destruct (binary_round_widen s p (e - 150)) as (m' & Hm' & Hw);
        fold d; try lia.
      rewrite Hw. cbn [is_nan bits32_of_float].
      rewrite (binary32_round_back s p (e - 150) m'); fold d;
        try lia; [| rewrite fexp32; lia | exact Hm'].
      replace (Zpos p <? 2 ^ 23) with false by (symmetry; apply Z.ltb_ge; lia).
      f_equal. lia.
Qed.

Lemma unpack_pack_f data v :
  unpack_f data = Some v ->
  pack_f v = Some (if is_nan v then le_bytes 4 0x7FC00000 else data).
Proof.
  intros Hu. unfold unpack_f in Hu.
  destruct (Nat.eqb_spec (List.length data) 4) as [Hl|]; [|discriminate].
  injection Hu as Hv.
  pose proof (int_from_bytes_range data) as Hr. rewrite Hl in Hr.
  change (256 ^ Z.of_nat 4) with (2 ^ 32) in Hr.
  pose proof (float_of_bits32_round_trip _ Hr) as Hrt. rewrite Hv in Hrt.
  unfold pack_f. rewrite Hrt. cbn [option_map]. f_equal.
  destruct (is_nan v); [reflexivity|].
  rewrite <- Hl at 1. apply le_bytes_int_from.
Qed.

Lemma unpack_length data v : unpack_f data = Some v -> List.length data = 4%nat.
Proof.
  unfold unpack_f.
  destruct (Nat.eqb_spec (List.length data) 4); [auto|discriminate].
Qed.

(** X11.  The float accessors round-trip on numbers: the four bytes that
    [read_float] decoded to a value other than a NaN are exactly the four
    bytes [write_float] writes for that value, and decoding what
    [write_float] writes gives the value again. *)
Theorem float_bytes_round_trip :
  forall (data : bytes) (v : float),
    unpack_f data = Some v ->
    is_nan v = false ->
    pack_f v = Some data /\
    (forall data', pack_f v = Some data' -> unpack_f data' = Some v).
Proof.
  intros data v Hu Hn. pose proof (unpack_pack_f data v Hu) as Hp.
  rewrite Hn in Hp. split; [exact Hp|].
  intros data' Hp'. rewrite Hp in Hp'. injection Hp' as <-. exact Hu.
Qed.




(** ** What the range adjustments hand to [write_float] *)

Lemma fle_not_flt a b : fle a b = true -> flt b a = false.
Proof.
  unfold fle, flt, SFleb, SFltb. rewrite (SFcompare_antisym a b).
  destruct (SFcompare a b) as [[| |]|]; cbn; congruence.
Qed.

(** What the yaw loops return on a value of the format: a NaN, or a finite
    value between minus half a turn and half a turn. *)
Lemma normalize_yaw_result x fuel r :
  valid x = true -> normalize_yaw fuel x = Some r ->
  r = S754_nan \/
  (valid r = true /\ is_finite r = true /\
   fle (fdiv (fneg TAU) f_2) r = true /\ fle r (fdiv TAU f_2) = true).
Proof.
  intros Hv Hn.
  destruct (is_nan x) eqn:Enan.
  { destruct x; try discriminate. left.
    destruct fuel; cbn in Hn; congruence. }
  destruct (flt YAW_MAX x) eqn:E1.
  { rewrite (normalize_yaw_diverges x Hv (or_introl E1)) in Hn.
    discriminate. }
  destruct (flt x (fneg YAW_MAX)) eqn:E2.
  { rewrite (normalize_yaw_diverges x Hv (or_intror E2)) in Hn.
    discriminate. }
  assert (Hf : is_finite x = true).
  { destruct x as [s | [|] | | s m e]; try reflexivity; discriminate. }
  pose proof (not_flt_fle x YAW_MAX Enan eq_refl E1) as Hhi.
  pose proof (not_flt_fle (fneg YAW_MAX) x eq_refl Enan E2) as Hlo.
  destruct (normalize_yaw_total x Hv Hf Hlo Hhi)
    as (fuel0 & r0 & Hall & Hr0).
  pose proof (normalize_yaw_mono fuel (Nat.max fuel fuel0) x r Hn
                (Nat.le_max_l _ _)) as H1.
  rewrite (Hall (Nat.max fuel fuel0) (Nat.le_max_r _ _)) in H1.
  injection H1 as <-. right. exact Hr0.
Qed.

Lemma clamp_pitch_cases y :
  clamp_pitch y = PITCH_LIMIT \/
  clamp_pitch y = fneg PITCH_LIMIT \/
  (clamp_pitch y = y /\
   flt PITCH_LIMIT y = false /\ flt y (fneg PITCH_LIMIT) = false).
Proof.
  unfold clamp_pitch, py_max, py_min, fgt.
  destruct (flt PITCH_LIMIT y) eqn:E1.
  - left. reflexivity.
  - fold (flt y (fneg PITCH_LIMIT)).
    destruct (flt y (fneg PITCH_LIMIT)) eqn:E2; auto.
Qed.



(** X13.  Both range adjustments are idempotent: a yaw that came out of
    the loops passes through them unchanged without a single iteration,
    and clamping a clamped pitch changes nothing. *)
Theorem range_adjustments_idempotent :
  forall (x y : float) (fuel : nat) (r : float),
    valid x = true ->
    normalize_yaw fuel x = Some r ->
    (forall fuel', normalize_yaw fuel' r = Some r) /\
    clamp_pitch (clamp_pitch y) = clamp_pitch y.
Proof.
  intros x y fuel r Hx Hn. split.
  - intros fuel'.
    destruct (normalize_yaw_result x fuel r Hx Hn)
      as [-> | (Hv & Hf & Hlo & Hhi)];
      [destruct fuel'; reflexivity|].
    apply fle_not_flt in Hlo. apply fle_not_flt in Hhi.
    unfold flt in Hlo, Hhi. unfold normalize_yaw.
    assert (Hd : wrap_down fuel' r = Some r)
      by (destruct fuel'; cbn [wrap_down]; unfold fgt; rewrite Hhi;
          reflexivity).
    rewrite Hd.
    destruct fuel'; cbn [wrap_up]; unfold flt; rewrite Hlo; reflexivity.
  - destruct (clamp_pitch_cases y) as [-> | [-> | (E & H1 & H2)]];
      [reflexivity | reflexivity |].
    rewrite E. unfold clamp_pitch, py_max, py_min, fgt.
    fold (flt PITCH_LIMIT y). rewrite H1.
    fold (flt y (fneg PITCH_LIMIT)). rewrite H2. reflexivity.
Qed.

(** ** One turn is exact *)

Lemma nice_tau : nice TAU /\ scaled TAU = tauV.
Proof. rewrite TAU_eq. split; [cbn; lia | reflexivity]. Qed.

Lemma nice_three_half :
  nice THREE_HALF_TAU /\ scaled THREE_HALF_TAU <= 3 * etaV /\
  nice (fneg THREE_HALF_TAU) /\ - (3 * etaV) <= scaled (fneg THREE_HALF_TAU).
Proof. cbn. unfold etaV. lia. Qed.

(** From above half a turn and at most three half turns, one subtraction
    of [TAU] is exact. *)
Lemma down_step_exact x :
  nice x -> etaV < scaled x <= 3 * etaV ->
  nice (fsub x TAU) /\ scaled (fsub x TAU) = scaled x - tauV.
Proof.
  intros Hn Hv. destruct x as [s | s | | s m e]; cbn [nice] in Hn;
    try contradiction; [cbn [scaled] in Hv; unfold etaV in Hv; lia |].
  assert (He : -51 <= e) by (apply (beyond_half_exponent s m); [exact Hn | lia]).
  rewrite TAU_eq.
  destruct (fsub_scaled s m e false 7074237743944945 (-50) He ltac:(lia))
    as (Mz & ez & Hez & HN & ->).
  change (scaled (S754_finite false 7074237743944945 (-50))) with tauV in HN.
  destruct (binary_normalize_near Mz ez Hez) as (Hr & _ & _ & _ & Hex).
  { rewrite HN. unfold tauV, etaV in *. lia. }
  rewrite HN in *. split; [exact Hr |].
  apply Hex. unfold tauV, etaV in *. lia.
Qed.

Lemma up_step_exact x :
  nice x -> - (3 * etaV) <= scaled x < - etaV ->
  nice (fadd x TAU) /\ scaled (fadd x TAU) = scaled x + tauV.
Proof.
  intros Hn Hv. destruct x as [s | s | | s m e]; cbn [nice] in Hn;
    try contradiction; [cbn [scaled] in Hv; unfold etaV in Hv; lia |].
  assert (He : -51 <= e) by (apply (beyond_half_exponent s m); [exact Hn | lia]).
  rewrite TAU_eq.
  destruct (fadd_scaled s m e false 7074237743944945 (-50) He ltac:(lia))
    as (Mz & ez & Hez & HN & ->).
  change (scaled (S754_finite false 7074237743944945 (-50))) with tauV in HN.
  destruct (binary_normalize_near Mz ez Hez) as (Hr & _ & _ & _ & Hex).
  { rewrite HN. unfold tauV, etaV in *. lia. }
  rewrite HN in *. split; [exact Hr |].
  apply Hex. unfold tauV, etaV in *. lia.
Qed.

Lemma above_half_nice x :
  valid x = true ->
  flt HALF_TAU x = true \/ flt x NEG_HALF_TAU = true ->
  is_finite x = true -> nice x.
Proof.
  intros Hv Hc Hf. destruct x as [s | s | | s m e]; try discriminate;
    [exact I|].
  apply valid_nice; [exact Hv|].
  unfold flt, SFltb, HALF_TAU, NEG_HALF_TAU in Hc. cbn [SFcompare] in Hc.
  destruct s, Hc as [Hc | Hc]; try discriminate.
  - destruct (Z.compare_spec e (-51)); try discriminate; lia.
  - destruct (Z.compare_spec (-51) e); try discriminate; lia.
Qed.

Section ExactTurn.

Import Reals Lra.

Lemma F2R_of_scaled a b c :
  nice a -> nice b -> nice c -> scaled a = scaled b + scaled c ->
  (F2R a = F2R b + F2R c)%R.
Proof.
  intros Ha Hb Hc Hs.
  pose proof (F2R_scaled a Ha) as Ea. pose proof (F2R_scaled b Hb) as Eb.
  pose proof (F2R_scaled c Hc) as Ec.
  rewrite Hs, plus_IZR in Ea.
  assert (Hk : (0 < IZR (2 ^ 103))%R) by (apply IZR_lt; lia).
  apply (Rmult_eq_reg_r (IZR (2 ^ 103))); [|lra].
  rewrite Rmult_plus_distr_r. lra.
Qed.

(** X14.  A yaw that is off by less than a full turn is brought back by a
    single exact step: from above half a turn up to three half turns the
    loops subtract [TAU] once, from below minus half a turn down to minus
    three half turns they add it once, and in both cases the float
    operation makes no rounding error. *)
Theorem single_turn_is_exact :
  forall x : float,
    valid x = true ->
    (flt (fdiv TAU f_2) x = true -> fle x THREE_HALF_TAU = true ->
     normalize_yaw 1 x = Some (fsub x TAU) /\
     (F2R (fsub x TAU) = F2R x - F2R TAU)%R) /\
    (flt x (fdiv (fneg TAU) f_2) = true ->
     fle (fneg THREE_HALF_TAU) x = true ->
     normalize_yaw 1 x = Some (fadd x TAU) /\
     (F2R (fadd x TAU) = F2R x + F2R TAU)%R).
Proof.
  intros x Hv. rewrite half_tau_eq, neg_half_tau_eq.
  destruct nice_three_half as (HB & HBv & HB' & HBv').
  destruct nice_tau as [HT HTv].
  split; intros Hgt Hle.
  - assert (Hf : is_finite x = true).
    { destruct x as [s | [|] | | s m e]; try reflexivity; discriminate. }
    assert (Hn : nice x) by (apply above_half_nice; auto).
    rewrite (flt_scaled _ _ (proj1 nice_half) Hn), (proj2 nice_half),
      Z.ltb_lt in Hgt.
    rewrite (fle_scaled _ _ Hn HB), Z.leb_le in Hle.
    destruct (down_step_exact x Hn ltac:(lia)) as [Hr Hs].
    split.
    + unfold normalize_yaw.
      rewrite (wrap_down_nice_eq 1 x Hn).
      replace (etaV <? scaled x) with true by (symmetry; apply Z.ltb_lt; lia).
      rewrite (wrap_down_nice_eq 0 _ Hr).
      replace (etaV <? scaled (fsub x TAU)) with false
        by (symmetry; apply Z.ltb_ge; unfold tauV, etaV in *; lia).
      rewrite (wrap_up_nice_eq 1 _ Hr).
      replace (scaled (fsub x TAU) <? - etaV) with false
        by (symmetry; apply Z.ltb_ge; unfold tauV, etaV in *; lia).
      reflexivity.
    + assert (E : (F2R x = F2R (fsub x TAU) + F2R TAU)%R)
        by (apply F2R_of_scaled; auto; lia).
      lra.
  - assert (Hf : is_finite x = true).
    { destruct x as [s | [|] | | s m e]; try reflexivity; discriminate. }
    assert (Hn : nice x) by (apply above_half_nice; auto).
    rewrite (flt_scaled _ _ Hn (proj1 nice_neg_half)), (proj2 nice_neg_half),
      Z.ltb_lt in Hgt.
    rewrite (fle_scaled _ _ HB' Hn), Z.leb_le in Hle.
    destruct (up_step_exact x Hn ltac:(lia)) as [Hr Hs].
    split.
    + unfold normalize_yaw.
      rewrite (wrap_down_nice_eq 1 x Hn).
      replace (etaV <? scaled x) with false
        by (symmetry; apply Z.ltb_ge; unfold etaV in *; lia).
      rewrite (wrap_up_nice_eq 1 x Hn).
      replace (scaled x <? - etaV) with true by (symmetry; apply Z.ltb_lt; lia).
      rewrite (wrap_up_nice_eq 0 _ Hr).
      replace (scaled (fadd x TAU) <? - etaV) with false
        by (symmetry; apply Z.ltb_ge; unfold tauV, etaV in *; lia).
      reflexivity.
    + apply F2R_of_scaled; auto.
Qed.

End ExactTurn.

(** ** Writing, then reading back *)

Section ReadBack.

Context {F : Type} `{MemStream F}.

(** X15.  On a file object that hands back what was just written at an
    address, a typed write followed by the typed read at the same guest
    address returns the value written: any integer below [2^16] for the
    16-bit accessors, any number that [read_float] can return for the float
    accessors.  When the write fails, its exception is what the pair
    raises. *)
Theorem write_then_read_back :
  forall (st : ProcessMemory F) (f : F) (base address value : Z)
         (data : bytes) (v : float),
    mem_file st = Some f ->
    base_of st = Some base ->
    (forall d f', stream_write f (base + address) d = (f', None) ->
       stream_read f' (base + address) (Z.of_nat (List.length d)) = inr d) ->
    0 <= value < 65536 ->
    unpack_f data = Some v ->
    is_nan v = false ->
    fst (bind (write_uint16 address value) (fun _ => read_uint16 address) st)
    = match snd (stream_write f (base + address) (le_bytes 2 value)) with
      | Some e => Raise e
      | None => Return value
      end /\
    fst (bind (write_float address v) (fun _ => read_float address) st)
    = match snd (stream_write f (base + address) data) with
      | Some e => Raise e
      | None => Return v
      end.
Proof.
  intros st f base address value data v Hf Hb Hlaw Hv Hu Hnan.
  destruct (base_of_some st base Hb) as [Hg Hb0].
  apply Z.eqb_neq in Hb0.
  split.
  - unfold bind at 1. unfold write_uint16, guarded. rewrite Hb.
    unfold bind at 1. rewrite to_bytes_in_range by (simpl; lia).
    unfold write_memory. rewrite Hf.
    destruct (stream_write f (base + address) (le_bytes 2 value))
      as [f' [e|]] eqn:Ew; cbn [snd fst]; [reflexivity|].
    unfold read_uint16, guarded, base_of. cbn [game_memory_base].
    rewrite Hg, Hb0. unfold bind, read_memory. cbn [mem_file].
    rewrite (Hlaw _ _ Ew : stream_read f' (base + address) 2 = inr _).
    cbn [fst ret]. f_equal. rewrite int_from_le_bytes.
    apply Z.mod_small. simpl. lia.
  - pose proof (unpack_pack_f data v Hu) as Hp. rewrite Hnan in Hp.
    pose proof (unpack_length data v Hu) as Hlen.
    unfold bind at 1. unfold write_float, guarded. rewrite Hb, Hp.
    unfold write_memory. rewrite Hf.
    destruct (stream_write f (base + address) data)
      as [f' [e|]] eqn:Ew; cbn [snd fst]; [reflexivity|].
    unfold read_float, guarded, base_of. cbn [game_memory_base].
    rewrite Hg, Hb0. unfold bind, read_memory. cbn [mem_file].
    pose proof (Hlaw _ _ Ew) as Hr. rewrite Hlen in Hr.
    change (Z.of_nat 4) with 4 in Hr. rewrite Hr, Hu. reflexivity.
Qed.

End ReadBack.

(** ** The main loop *)

Section MainLoopFacts.

Context {F : Type} `{MemStream F}.

Lemma same_base_reads_then_overflow :
  preserves same_base (@reads_then_overflow F _).
Proof.
  unfold reads_then_overflow.
  apply preserves_guarded; [apply same_base_print |].
  intros _. apply preserves_bind; eauto with frames.
  { apply same_base_of_reads, reads_only_read_pointer. }
  intro cam_base. destruct (cam_base =? 0).
  { apply preserves_ret; eauto with frames. }
  repeat (apply preserves_bind; eauto with frames;
          [apply same_base_of_reads, reads_only_read_float | intros _]).
  apply preserves_raise; eauto with frames.
Qed.

Lemma same_base_inject_ints fuel dx dy sensitivity :
  preserves same_base (@inject_ints F _ fuel dx dy sensitivity).
Proof.
  unfold inject_ints.
  destruct (is_finite (float_of_Z dx) && is_finite (float_of_Z dy));
    [apply same_base_inject | apply same_base_reads_then_overflow].
Qed.

Lemma main_pass_spec fuel t (st : ProcessMemory F) :
  let r := main_pass fuel t st in
  snd (fst r) = mkTracker (prev_x t) (prev_y t) 0 0 (is_tracking t) /\
  game_memory_base (snd r) = game_memory_base st /\
  (delta_x t = 0 -> delta_y t = 0 -> fst (fst r) = Slept /\ snd r = st).
Proof.
  unfold main_pass, get_and_reset_deltas. cbn [fst snd].
  destruct (negb (delta_x t =? 0) || negb (delta_y t =? 0)) eqn:E.
  - pose proof (same_base_inject_ints fuel (delta_x t) (delta_y t)
                  main_sensitivity st) as Hb.
    unfold same_base in Hb.
    destruct (inject_ints fuel (delta_x t) (delta_y t) main_sensitivity st)
      as [[u | e |] st']; cbn [fst snd] in *;
      (split; [reflexivity|]); (split; [exact Hb|]);
      intros Hx Hy; rewrite Hx, Hy in E; discriminate.
  - cbn [fst snd]. repeat split.
Qed.

Lemma main_pass_idle fuel t (st : ProcessMemory F) :
  delta_x t = 0 -> delta_y t = 0 -> main_pass fuel t st = (Slept, t, st).
Proof.
  intros Hx Hy. destruct (main_pass_spec fuel t st) as (P1 & _ & P3).
  cbn zeta in P1, P3. destruct (P3 Hx Hy) as [E1 E2].
  destruct (main_pass fuel t st) as [[e t'] st']. cbn [fst snd] in *.
  subst. f_equal. f_equal. destruct t; cbn in *. congruence.
Qed.

Lemma main_loop_spec fuel calls : forall t (st : ProcessMemory F),
  let r := main_loop fuel calls t st in
  game_memory_base (snd r) = game_memory_base st /\
  (~ In Hung (fst (fst r)) ->
   List.length (fst (fst r)) = passes calls /\
   forall before, calls = before ++ [Drain] ->
     delta_x (snd (fst r)) = 0 /\ delta_y (snd (fst r)) = 0).
Proof.
  induction calls as [|c calls IH]; intros t st; cbn zeta.
  - cbn [main_loop fst snd]. split; [reflexivity|]. intros _.
    split; [reflexivity|]. intros [|? ?] Hc; discriminate.
  - destruct c as [x y|]; cbn [main_loop].
    + destruct (IH (on_move x y t) st) as (H1 & H2).
      split; [exact H1|]. intros Hh. destruct (H2 Hh) as [H3 H4].
      split; [exact H3|].
      intros before Hc. destruct before as [|c0 before]; [discriminate|].
      cbn [app] in Hc. injection Hc as _ Hc. exact (H4 before Hc).
    + destruct (main_pass_spec fuel t st) as (P1 & P2 & _).
      cbn zeta in P1, P2.
      destruct (main_pass fuel t st) as [[e t'] st'] eqn:Emp.
      cbn [fst snd] in P1, P2.
      destruct (IH t' st') as (H1 & H2).
      destruct (main_loop fuel calls t' st') as [[rs t''] st''] eqn:Eml.
      cbn [fst snd] in H1, H2.
      assert (Hrun : forall e0, e0 <> Hung ->
                game_memory_base st'' = game_memory_base st /\
                (~ In Hung (e0 :: rs) ->
                 List.length (e0 :: rs) = passes (Drain :: calls) /\
                 forall before, Drain :: calls = before ++ [Drain] ->
                   delta_x t'' = 0 /\ delta_y t'' = 0)).
      { intros e0 He0. split; [congruence|]. intros Hh.
        assert (Hh' : ~ In Hung rs) by (intros Hin; apply Hh; right; exact Hin).
        destruct (H2 Hh') as [H3 H4]. split.
        - unfold passes in *. cbn [filter List.length]. now rewrite H3.
        - intros [|c0 before] Hc; cbn [app] in Hc.
          + assert (calls = []) by congruence. subst calls.
            cbn in Eml. injection Eml as _ <- _. rewrite P1. cbn. auto.
          + injection Hc as _ Hc. exact (H4 before Hc). }
      destruct e as [| e |]; cbn [fst snd].
      * apply Hrun. discriminate.
      * apply Hrun. discriminate.
      * split; [exact P2|]. intros Hh. exfalso. apply Hh. left. reflexivity.
Qed.

(** X16.  The main loop under any schedule of mouse callbacks and passes:
    an exception raised inside a pass never ends the loop (as long as no
    pass hangs, every pass of the schedule is run and ends with a sleep or
    a caught exception), a pass leaves the tracker with no pending
    movement whether or not the injection succeeded, the base found at
    start-up is never changed, and a pass without pending movement touches
    neither the tracker, nor the memory file, nor the output. *)
Theorem main_loop_keeps_going :
  forall (fuel : nat) (calls : list tracker_call) (t : MouseTracker)
         (st : ProcessMemory F),
    let r := main_loop fuel calls t st in
    game_memory_base (snd r) = game_memory_base st /\
    (~ In Hung (fst (fst r)) ->
     List.length (fst (fst r)) = passes calls /\
     forall before, calls = before ++ [Drain] ->
       delta_x (snd (fst r)) = 0 /\ delta_y (snd (fst r)) = 0) /\
    (delta_x t = 0 -> delta_y t = 0 ->
     main_pass fuel t st = (Slept, t, st)).
Proof.
  intros fuel calls t st r.
  destruct (main_loop_spec fuel calls t st) as [H1 H2].
  split; [exact H1|]. split; [exact H2|]. apply main_pass_idle.
Qed.

End MainLoopFacts.

(** ** [hexdump] *)

Section HexdumpFacts.

Import Ascii.

Lemma length_append (s1 s2 : string) :
  String.length (s1 ++ s2) = (String.length s1 + String.length s2)%nat.
Proof. induction s1; simpl; [reflexivity | now rewrite IHs1]. Qed.

Lemma length_repeat_char c k : String.length (repeat_char c k) = k.
Proof. induction k; simpl; [reflexivity | now rewrite IHk]. Qed.

Lemma hex_digit_value_digit d :
  0 <= d < 16 -> hex_digit_value (hex_digit d) = d.
Proof.
  intros Hd.
  assert (Hc : d = 0 \/ d = 1 \/ d = 2 \/ d = 3 \/ d = 4 \/ d = 5 \/ d = 6 \/
               d = 7 \/ d = 8 \/ d = 9 \/ d = 10 \/ d = 11 \/ d = 12 \/
               d = 13 \/ d = 14 \/ d = 15) by lia.
  repeat (destruct Hc as [-> | Hc]; [reflexivity|]). subst. reflexivity.
Qed.

Lemma hex_digits_grows f : forall n acc,
  (String.length acc <= String.length (hex_digits f n acc))%nat.
Proof.
  induction f as [|f IH]; intros n acc; cbn [hex_digits]; [lia|].
  destruct (n / 16 =? 0); cbn [String.length]; [lia|].
  specialize (IH (n / 16) (String (hex_digit (n mod 16)) acc)).
  cbn [String.length] in IH. lia.
Qed.

Lemma hex_digits_length f : forall n acc k,
  0 <= n < 16 ^ Z.of_nat k -> (1 <= k)%nat ->
  (String.length (hex_digits f n acc) <= String.length acc + k)%nat.
Proof.
  induction f as [|f IH]; intros n acc k Hn Hk; cbn [hex_digits]; [lia|].
  destruct (Z.eqb_spec (n / 16) 0) as [E|E]; cbn [String.length]; [lia|].
  assert (Hq : 0 < n / 16).
  { assert (0 <= n / 16) by (apply Z.div_pos; lia). lia. }
  destruct k as [|[|k]]; [lia | |].
  - exfalso. change (16 ^ Z.of_nat 1) with 16 in Hn.
    rewrite Z.div_small in Hq by lia. lia.
  - assert (Hn' : 0 <= n / 16 < 16 ^ Z.of_nat (Datatypes.S k)).
    { split; [lia|]. apply Z.div_lt_upper_bound; [lia|].
      rewrite <- Z.pow_succ_r by lia.
      rewrite <- Nat2Z.inj_succ. lia. }
    specialize (IH (n / 16) (String (hex_digit (n mod 16)) acc)
                  (Datatypes.S k) Hn' ltac:(lia)).
    cbn [String.length] in IH. lia.
Qed.

Lemma hex_value_digits f : forall n acc,
  0 <= n < 16 ^ Z.of_nat f ->
  hex_value (hex_digits f n acc) = hex_value_from n acc.
Proof.
  unfold hex_value.
  induction f as [|f IH]; intros n acc Hn; cbn [hex_digits].
  - change (16 ^ Z.of_nat 0) with 1 in Hn. replace n with 0 by lia.
    reflexivity.
  - pose proof (Z.mod_pos_bound n 16 ltac:(lia)) as Hm.
    pose proof (Z.div_mod n 16 ltac:(lia)) as Hdm.
    destruct (Z.eqb_spec (n / 16) 0) as [E|E].
    + cbn [hex_value_from]. rewrite hex_digit_value_digit by lia.
      f_equal. lia.
    + rewrite IH.
      * cbn [hex_value_from]. rewrite hex_digit_value_digit by lia.
        f_equal. lia.
      * split; [apply Z.div_pos; lia|].
        apply Z.div_lt_upper_bound; [lia|].
        rewrite <- Z.pow_succ_r by lia. rewrite <- Nat2Z.inj_succ. lia.
Qed.

Lemma hex_fuel n :
  0 <= n -> n < 16 ^ Z.of_nat (Datatypes.S (Z.to_nat (Z.log2 n))).
Proof.
  intros Hn. rewrite Nat2Z.inj_succ, Z2Nat.id by apply Z.log2_nonneg.
  destruct (Z.eq_dec n 0) as [->|Hz]; [reflexivity|].
  pose proof (Z.log2_spec n ltac:(lia)) as [_ Hhi].
  assert (2 ^ Z.succ (Z.log2 n) <= 16 ^ Z.succ (Z.log2 n)).
  { apply Z.pow_le_mono_l. lia. }
  lia.
Qed.

Lemma hex_value_hex n : 0 <= n -> hex_value (hex n) = n.
Proof.
  intros Hn. unfold hex. rewrite hex_value_digits; [reflexivity|].
  split; [exact Hn | apply hex_fuel; exact Hn].
Qed.

Lemma hex_value_zeros k : forall s a,
  hex_value_from a (repeat_char "0"%char k ++ s)
  = hex_value_from (a * 16 ^ Z.of_nat k) s.
Proof.
  induction k as [|k IH]; intros s a.
  - cbn. f_equal. lia.
  - cbn [repeat_char append hex_value_from]. rewrite IH.
    f_equal. change (hex_digit_value "0") with 0.
    rewrite Nat2Z.inj_succ, Z.pow_succ_r by lia. lia.
Qed.

Lemma hex_length n k :
  0 <= n < 16 ^ Z.of_nat k -> (1 <= k)%nat ->
  (1 <= String.length (hex n) <= k)%nat.
Proof.
  intros Hn Hk. unfold hex. split.
  - cbn [hex_digits]. destruct (n / 16 =? 0); cbn [String.length]; [lia|].
    pose proof (hex_digits_grows (Z.to_nat (Z.log2 n)) (n / 16)
                  (String (hex_digit (n mod 16)) EmptyString)) as Hg.
    cbn [String.length] in Hg. lia.
  - pose proof (hex_digits_length (Datatypes.S (Z.to_nat (Z.log2 n))) n
                  EmptyString k Hn Hk) as Hu.
    cbn [String.length] in Hu. lia.
Qed.

Lemma format_0x_length w n :
  0 <= n < 16 ^ Z.of_nat w -> (1 <= w)%nat ->
  String.length (format_0x w n) = w.
Proof.
  intros Hn Hw. unfold format_0x.
  replace (n <? 0) with false by (symmetry; apply Z.ltb_ge; lia).
  rewrite length_append, length_repeat_char.
  pose proof (hex_length n w Hn Hw). lia.
Qed.

Lemma format_0x_value w n : 0 <= n -> hex_value (format_0x w n) = n.
Proof.
  intros Hn. unfold format_0x, hex_value.
  replace (n <? 0) with false by (symmetry; apply Z.ltb_ge; lia).
  rewrite hex_value_zeros. cbn [Z.mul]. apply hex_value_hex. exact Hn.
Qed.

Lemma append_assoc3 (s1 s2 s3 : string) :
  ((s1 ++ s2) ++ s3 = s1 ++ s2 ++ s3)%string.
Proof. induction s1; simpl; [reflexivity | now rewrite IHs1]. Qed.

Lemma substring_prefix s1 : forall s2,
  substring 0 (String.length s1) (s1 ++ s2) = s1.
Proof.
  induction s1 as [|c s1 IH]; intros s2; cbn.
  - destruct s2; reflexivity.
  - now rewrite IH.
Qed.

Lemma substring_skip s1 : forall n m s2,
  substring (String.length s1 + n) m (s1 ++ s2) = substring n m s2.
Proof. induction s1 as [|c s1 IH]; intros n m s2; cbn; auto. Qed.

Lemma get_skip s1 : forall n s2,
  String.get (String.length s1 + n) (s1 ++ s2) = String.get n s2.
Proof. induction s1 as [|c s1 IH]; intros n s2; cbn; auto. Qed.

Lemma length_string_of_chars l :
  String.length (string_of_chars l) = List.length l.
Proof. induction l; simpl; [reflexivity | now rewrite IHl]. Qed.

Lemma get_string_of_chars l : forall j,
  String.get j (string_of_chars l) = nth_error l j.
Proof.
  induction l as [|c l IH]; intros [|j]; cbn; auto.
Qed.

Lemma concat_cons sep x y (l : list string) :
  String.concat sep (x :: y :: l)
  = (x ++ sep ++ String.concat sep (y :: l))%string.
Proof. reflexivity. Qed.

Lemma length_hex_str (f : byte -> string) chunk :
  (forall b, String.length (f b) = 2%nat) ->
  chunk <> [] ->
  (String.length (String.concat " " (map f chunk)) + 1
   = 3 * List.length chunk)%nat.
Proof.
  intros Hf. induction chunk as [|b chunk IH]; [congruence|]. intros _.
  destruct chunk as [|b' chunk].
  - cbn. rewrite Hf. reflexivity.
  - cbn [map]. rewrite concat_cons, !length_append, Hf.
    cbn [map] in IH. specialize (IH ltac:(discriminate)).
    cbn [String.length List.length] in *. lia.
Qed.

Lemma substring_hex_str (f : byte -> string) chunk :
  (forall b, String.length (f b) = 2%nat) ->
  forall j b tail,
    nth_error chunk j = Some b ->
    substring (3 * j) 2 (String.concat " " (map f chunk) ++ tail) = f b.
Proof.
  intros Hf. induction chunk as [|b0 chunk IH]; intros j b tail Hj.
  - destruct j; discriminate.
  - destruct j as [|j].
    + cbn in Hj. injection Hj as <-.
      destruct chunk as [|b' chunk]; cbn [map].
      * cbn [String.concat]. change (3 * 0)%nat with 0%nat.
        pose proof (substring_prefix (f b0) tail) as P.
        rewrite Hf in P. exact P.
      * rewrite concat_cons, append_assoc3. change (3 * 0)%nat with 0%nat.
        pose proof (substring_prefix (f b0)
                      (" " ++ String.concat " " (f b' :: map f chunk) ++ tail))
          as P.
        rewrite Hf in P. exact P.
    + cbn [nth_error] in Hj.
      destruct chunk as [|b' chunk]; [destruct j; discriminate|].
      cbn [map]. rewrite concat_cons, !append_assoc3.
      replace (3 * Datatypes.S j)%nat
        with (String.length (f b0) + (1 + 3 * j))%nat by (rewrite Hf; lia).
      rewrite substring_skip.
      change (substring (1 + 3 * j) 2
                (" " ++ String.concat " " (map f (b' :: chunk)) ++ tail))
        with (substring (3 * j) 2
                (String.concat " " (map f (b' :: chunk)) ++ tail)).
      apply IH. exact Hj.
Qed.

Lemma format_byte_length b : String.length (format_0x 2 (Z_of_byte b)) = 2%nat.
Proof.
  apply format_0x_length; [|lia].
  pose proof (Z_of_byte_range b). change (16 ^ Z.of_nat 2) with 256. lia.
Qed.

Lemma length_ljust w s :
  (String.length s <= w)%nat -> String.length (ljust w s) = w.
Proof.
  intros Hs. unfold ljust. rewrite length_append, length_repeat_char. lia.
Qed.

(** The shape of one line. *)
Lemma hexdump_line_parts chunk address :
  0 <= address < 2 ^ 32 -> chunk <> [] -> (List.length chunk <= 16)%nat ->
  exists A L,
    String.length A = 8%nat /\ hex_value A = address /\
    String.length L = 48%nat /\
    (forall j b tail, nth_error chunk j = Some b ->
       hex_value (substring (3 * j) 2 (L ++ tail)) = Z_of_byte b) /\
    hexdump_line chunk address
    = (A ++ "  " ++ L ++ "  " ++ string_of_chars (map printable chunk))%string.
Proof.
  intros Ha Hne Hlen.
  exists (format_0x 8 address).
  exists (ljust 48 (String.concat " "
            (map (fun b => format_0x 2 (Z_of_byte b)) chunk))).
  pose proof (length_hex_str (fun b => format_0x 2 (Z_of_byte b)) chunk
                format_byte_length Hne) as Hhs.
  split; [apply format_0x_length; [exact Ha | lia]|].
  split; [apply format_0x_value; lia|].
  split; [apply length_ljust; lia|].
  split; [|reflexivity].
  intros j b tail Hj. unfold ljust. rewrite append_assoc3.
  rewrite (substring_hex_str (fun b => format_0x 2 (Z_of_byte b)) chunk
             format_byte_length j b _ Hj).
  apply format_0x_value. pose proof (Z_of_byte_range b). lia.
Qed.

Lemma hexdump_lines_nth f : forall data a k line,
  (List.length data <= f)%nat ->
  nth_error (hexdump_lines f data a) k = Some line ->
  line = hexdump_line (firstn 16 (skipn (16 * k) data))
           (a + 16 * Z.of_nat k) /\
  (16 * k < List.length data)%nat.
Proof.
  induction f as [|f IH]; intros data a k line Hf Hn.
  - destruct k; discriminate.
  - cbn [hexdump_lines] in Hn. destruct data as [|b data];
      [destruct k; discriminate|].
    destruct k as [|k].
    + cbn [nth_error] in Hn. injection Hn as <-.
      rewrite skipn_0. split; [f_equal; lia | cbn [List.length]; lia].
    + cbn [nth_error] in Hn.
      apply IH in Hn; [|rewrite length_skipn; cbn [List.length] in *; lia].
      destruct Hn as [-> Hk]. rewrite length_skipn in Hk.
      rewrite skipn_skipn.
      replace (16 * k + 16)%nat with (16 * Datatypes.S k)%nat by lia.
      split; [f_equal; lia | lia].
Qed.

Lemma hexdump_lines_count f : forall data a,
  (List.length data <= f)%nat ->
  Z.of_nat (List.length (hexdump_lines f data a))
  = (Z.of_nat (List.length data) + 15) / 16.
Proof.
  induction f as [|f IH]; intros data a Hf.
  - destruct data; [reflexivity | cbn in Hf; lia].
  - cbn [hexdump_lines]. destruct data as [|b data]; [reflexivity|].
    set (d := b :: data) in *.
    assert (Hn : (1 <= List.length d)%nat) by (unfold d; cbn; lia).
    clearbody d. cbn [List.length]. rewrite Nat2Z.inj_succ.
    rewrite IH by (rewrite length_skipn; lia).
    rewrite length_skipn.
    destruct (Nat.le_gt_cases 16 (List.length d)) as [Hge|Hlt].
    + rewrite Nat2Z.inj_sub by lia. change (Z.of_nat 16) with 16.
      Z.div_mod_to_equations. lia.
    + replace (List.length d - 16)%nat with O by lia.
      change (Z.of_nat 0) with 0. Z.div_mod_to_equations. lia.
Qed.

Lemma chunk_bounds (data : bytes) k :
  (16 * k < List.length data)%nat ->
  firstn 16 (skipn (16 * k) data) <> [] /\
  List.length (firstn 16 (skipn (16 * k) data))
  = Nat.min 16 (List.length data - 16 * k).
Proof.
  intros Hk.
  assert (Hl : List.length (firstn 16 (skipn (16 * k) data))
               = Nat.min 16 (List.length data - 16 * k))
    by (rewrite length_firstn, length_skipn; reflexivity).
  split; [|exact Hl].
  intros E. rewrite E in Hl. cbn [List.length] in Hl. lia.
Qed.

(** X17.  The layout of a dump whose addresses fit 32 bits: one line per
    started group of 16 bytes, in order, and every line is 60 characters
    (the 8-digit address, the hex column padded to 48, and the separators)
    followed by one character per byte shown. *)
Theorem hexdump_layout :
  forall (data : bytes) (address : Z),
    0 <= address -> address + Z.of_nat (List.length data) <= 2 ^ 32 ->
    let lines := hexdump_lines (List.length data) data address in
    hexdump data address = String.concat (String "010"%char EmptyString) lines /\
    Z.of_nat (List.length lines) = (Z.of_nat (List.length data) + 15) / 16 /\
    forall k line,
      nth_error lines k = Some line ->
      String.length line
      = (60 + Nat.min 16 (List.length data - 16 * k))%nat.
Proof.
  intros data address Ha Hend lines. split; [reflexivity|].
  split; [apply hexdump_lines_count; lia|].
  intros k line Hn.
  destruct (hexdump_lines_nth _ _ _ _ _ (Nat.le_refl _) Hn) as [-> Hk].
  destruct (chunk_bounds data k Hk) as [Hne Hlen].
  destruct (hexdump_line_parts (firstn 16 (skipn (16 * k) data))
              (address + 16 * Z.of_nat k)) as (A & L & HA & _ & HL & _ & ->);
    [lia | exact Hne | rewrite Hlen; lia |].
  rewrite !length_append, HA, HL, length_string_of_chars, length_map, Hlen.
  cbn [String.length]. lia.
Qed.

(** X18.  A dump can be read back: in the line of each group, the first
    eight characters spell the address of the group in hexadecimal, the
    two characters at column [10 + 3 j] spell byte [j] of the group, and
    the character at column [60 + j] is that byte itself when it is
    printable ASCII and a dot otherwise. *)
Theorem hexdump_decodes :
  forall (data : bytes) (address : Z) (k j : nat) (line : string) (b : byte),
    0 <= address -> address + Z.of_nat (List.length data) <= 2 ^ 32 ->
    nth_error (hexdump_lines (List.length data) data address) k = Some line ->
    (j < 16)%nat ->
    nth_error data (16 * k + j) = Some b ->
    hex_value (substring 0 8 line) = address + 16 * Z.of_nat k /\
    hex_value (substring (10 + 3 * j) 2 line) = Z_of_byte b /\
    String.get (60 + j) line
    = Some (if (32 <=? Z_of_byte b) && (Z_of_byte b <=? 126)
            then ascii_of_byte b else "."%char).
Proof.
  intros data address k j line b Ha Hend Hn Hj Hb.
  destruct (hexdump_lines_nth _ _ _ _ _ (Nat.le_refl _) Hn) as [-> Hk].
  destruct (chunk_bounds data k Hk) as [Hne Hlen].
  assert (Hcb : nth_error (firstn 16 (skipn (16 * k) data)) j = Some b).
  { rewrite nth_error_firstn.
    replace (j <? 16)%nat with true by (symmetry; apply Nat.ltb_lt; lia).
    rewrite nth_error_skipn. exact Hb. }
  destruct (hexdump_line_parts (firstn 16 (skipn (16 * k) data))
              (address + 16 * Z.of_nat k)) as (A & L & HA & HAv & HL & HLv & ->);
    [lia | exact Hne | rewrite Hlen; lia |].
  split; [|split].
  - pose proof (substring_prefix A
                  ("  " ++ L ++ "  "
                   ++ string_of_chars
                        (map printable (firstn 16 (skipn (16 * k) data)))))
      as P.
    rewrite HA in P. rewrite P. exact HAv.
  - replace (10 + 3 * j)%nat with (String.length A + (2 + 3 * j))%nat
      by (rewrite HA; lia).
    rewrite substring_skip.
    change (substring (2 + 3 * j) 2 ("  " ++ ?x))
      with (substring (3 * j) 2 x).
    apply HLv. exact Hcb.
  - replace (60 + j)%nat
      with (String.length A + (2 + (String.length L + (2 + j))))%nat
      by (rewrite HA, HL; lia).
    rewrite get_skip.
    change (String.get (2 + ?n) ("  " ++ ?x)) with (String.get n x).
    rewrite get_skip.
    change (String.get (2 + j) ("  " ++ ?x)) with (String.get j x).
    rewrite get_string_of_chars, nth_error_map, Hcb. reflexivity.
Qed.

End HexdumpFacts.

(** ** The size window of the discovery *)

(** X19.  The size test of [find_game_memory] in bytes: a row gets its
    start probed exactly when its size lies between 30198989 and 36909875,
    the integers within a tenth of 32 MiB; the 1 MiB minimum never
    decides. *)
Theorem size_window_is_exact :
  forall sz : Z,
    (sz >=? MIN_SIZE) && size_close sz
    = (30198989 <=? sz) && (sz <=? 36909875).
Proof.
  intros sz. apply Bool.eq_true_iff_eq. unfold size_close.
  rewrite !andb_true_iff, Z.geb_le, !Z.leb_le.
  unfold MIN_SIZE, TARGET_SIZE.
  change (2 ^ 55) with 36028797018963968. lia.
Qed.

(** ** The first pass of [find_game_memory] *)

Section MapsTextFacts.

Import Ascii.










(** *** [split] *)







(** *** [int(_, 16)] on the digits [format(_, 'x')] writes *)










End MapsTextFacts.

(** ** The deltas the main loop hands over *)

Section Deltas.

Import Reals Lra.

(** X22.  The [int] deltas of the tracker enter the float arithmetic of
    [psp_mohh1_inject] without rounding as long as they are below [2^53]
    in magnitude, and the zero test of the main loop on the integers
    agrees with the zero test of the engine on their conversions. *)
Theorem mouse_deltas_convert_exactly :
  forall d : Z,
    (Z.abs d < 2 ^ 53)%Z ->
    is_finite (float_of_Z d) = true /\
    F2R (float_of_Z d) = IZR d /\
    feq (float_of_Z d) f_0 = (d =? 0)%Z.
Proof.
  intros d Hd. unfold float_of_Z.
  assert (Hdig : (Zdigits2 d <= 53)%Z).
  { destruct (Z.eq_dec d 0) as [->|Hz]; [cbn; lia|].
    pose proof (Zdigits2_bounds d Hz) as [Hlo _].
    destruct (Z_le_gt_dec (Zdigits2 d) 53) as [|Hgt]; [assumption|].
    assert ((2 ^ 53 <= 2 ^ (Zdigits2 d - 1))%Z)
      by (apply Z.pow_le_mono_r; lia).
    lia. }
  destruct (binary_normalize_spec d 0 ltac:(lia) ltac:(lia) ltac:(lia))
    as (Hn & Hs & _).
  specialize (Hs Hdig). cbn zeta in Hn, Hs.
  set (r := binary_normalize prec emax d 0 false) in *.
  destruct (nice_valid r Hn) as [_ Hf].
  split; [exact Hf|]. split.
  - pose proof (F2R_scaled r Hn) as E. rewrite Hs, mult_IZR in E.
    assert (Hk : (0 < IZR (2 ^ (0 + 103)))%R) by (apply IZR_lt; reflexivity).
    change (2 ^ 103)%Z with (2 ^ (0 + 103))%Z in E.
    apply (Rmult_eq_reg_r (IZR (2 ^ (0 + 103)))); [exact E | lra].
  - assert (Hp : (0 < 2 ^ (0 + 103))%Z) by reflexivity.
    destruct r as [s | s | | s m e]; cbn [nice] in Hn; try contradiction.
    + cbn [scaled] in Hs.
      replace d with 0%Z by nia. destruct s; reflexivity.
    + cbn [scaled] in Hs.
      assert (He : (0 < 2 ^ (e + 103))%Z) by (apply Z.pow_pos_nonneg; lia).
      assert (Hnz : d <> 0%Z) by (destruct s; cbn [cond_Zopp] in Hs; nia).
      apply Z.eqb_neq in Hnz. rewrite Hnz. destruct s; reflexivity.
Qed.

Lemma mouse_deltas_convert_exactly_witness :
  is_finite (float_of_Z (-5)) = true /\
  F2R (float_of_Z (-5)) = IZR (-5) /\
  feq (float_of_Z (-5)) f_0 = false.
Proof. apply (mouse_deltas_convert_exactly (-5)). reflexivity. Defined.

End Deltas.

(** ** Concrete runs of the further properties *)

Lemma store_below d : forall (img : image) a x,
  x < a -> store img a d x = img x.
Proof.
  induction d as [|b d IH]; intros img a x Hx; [reflexivity|].
  cbn [store]. rewrite IH by lia.
  destruct (Z.eqb_spec x a); [lia | reflexivity].
Qed.

Lemma fetch_store d : forall (img : image) a,
  fetch (store img a d) a (List.length d) = d.
Proof.
  induction d as [|b d IH]; intros img a; [reflexivity|].
  cbn [store List.length fetch]. rewrite store_below by lia.
  rewrite Z.eqb_refl. f_equal. apply IH.
Qed.

(** The image hands back what was just written. *)
Lemma image_write_read (img img' : image) a d :
  stream_write img a d = (img', None) ->
  stream_read img' a (Z.of_nat (List.length d)) = inr d.
Proof.
  simpl. unfold image_write, image_read.
  destruct (Z.leb_spec 0 a) as [Ha|Ha]; [|discriminate].
  cbn [andb]. destruct (mapped img a (List.length d)); [|discriminate].
  intros E. injection E as <-.
  replace (a <? 0) with false by (symmetry; apply Z.ltb_ge; lia).
  destruct d as [|b d]; [reflexivity|].
  replace (Z.of_nat (List.length (b :: d)) <=? 0) with false
    by (symmetry; apply Z.leb_gt; cbn [List.length]; lia).
  rewrite Nat2Z.id, fetch_store. reflexivity.
Qed.

Lemma psp_mohh1_status_never_true_witness :
  let st := attached (store empty_image 0 ULUS_1014) [] None in
  fst (psp_mohh1_status st) <> Return true /\
  fst (psp_mohh1_status st) = Raise OSError /\
  accesses (snd (psp_mohh1_status st)) = [EvRead 0 8; EvRead 0x1000 8].
Proof.
  cbv zeta. split; [|split; vm_compute; reflexivity].
  apply (psp_mohh1_status_never_true
           (attached (store empty_image 0 ULUS_1014) [] None)).
  intros f a d _ Hr. apply (image_read_length f a 8 d) in Hr; lia.
Defined.


Lemma write_int_encodes_witness :
  write_uint16 0x1000 0x1234 ready
  = write_memory (guest_base + 0x1000) (le_bytes 2 0x1234) ready /\
  write_uint16 0x1000 65536 ready = (Raise OverflowError, ready) /\
  write_uint16 0x1000 (-1) ready = (Raise OverflowError, ready).
Proof.
  split; [|split].
  - destruct (write_int_encodes ready guest_base 0x1000 0x1234 2 eq_refl)
      as (_ & _ & Hw & _).
    apply Hw. lia.
  - destruct (write_int_encodes ready guest_base 0x1000 65536 2 eq_refl)
      as (_ & _ & _ & Hw).
    apply Hw. lia.
  - destruct (write_int_encodes ready guest_base 0x1000 (-1) 2 eq_refl)
      as (_ & _ & _ & Hw).
    apply Hw. lia.
Defined.

Lemma unsigned_reads_in_range_witness :
  match fst (read_uint32 MOHH1_CAMBASE_PTR ready) with
  | Return v => 0 <= v < 2 ^ 32
  | _ => True
  end /\
  match fst (read_pointer MOHH1_CAMBASE_PTR ready) with
  | Return v => - 0x08000000 < v < 2 ^ 32 - 0x08000000
  | _ => True
  end.
Proof.
  destruct (unsigned_reads_in_range ready MOHH1_CAMBASE_PTR)
    as (_ & H1 & H2).
  - intros f a n d _ Hn Hr. exact (image_read_length f a n d Hn Hr).
  - split; [exact H1 | exact H2].
Defined.

Lemma read_float_needs_four_bytes_witness :
  let short := store empty_image 0x2000 (le_bytes 2 0x4241) in
  let st := attached short [] (Some 0x1000) in
  read_float 0x1000 st
  = (Raise StructError, log_access (EvRead 0x2000 4) st) /\
  read_uint32 0x1000 st
  = (Return 0x4241, log_access (EvRead 0x2000 4) st).
Proof.
  cbv zeta.
  destruct (read_float_needs_four_bytes
              (attached (store empty_image 0x2000 (le_bytes 2 0x4241)) []
                 (Some 0x1000))
              (store empty_image 0x2000 (le_bytes 2 0x4241))
              0x1000 0x1000 (le_bytes 2 0x4241))
    as (H1 & _ & H3); [reflexivity | reflexivity | reflexivity |].
  split; [apply H3; discriminate | exact H1].
Defined.

Lemma inject_null_pointer_returns_witness :
  let img := store empty_image (guest_base + MOHH1_CAMBASE_PTR)
               (le_bytes 4 0x08000000) in
  let st := attached img [] (Some guest_base) in
  psp_mohh1_inject 0 (float_of_Z 5) (float_of_Z 3) (float_of_Z 50) false st
  = (Return tt, log_access (EvRead (guest_base + MOHH1_CAMBASE_PTR) 4) st).
Proof.
  cbv zeta.
  apply (inject_null_pointer_returns _
           (store empty_image (guest_base + MOHH1_CAMBASE_PTR)
              (le_bytes 4 0x08000000))
           guest_base (le_bytes 4 0x08000000));
    [reflexivity | reflexivity | reflexivity | right; reflexivity].
Defined.

Lemma discovery_ignores_perms_and_path_witness :
  let bare := map (fun r => mkRegion (start r) (size r) EmptyString EmptyString) guest_table in
  let st' := attached guest_image bare None in
  fst (find_game_memory st') = fst (find_game_memory fresh) /\
  game_memory_base (snd (find_game_memory st'))
  = game_memory_base (snd (find_game_memory fresh)) /\
  accesses (snd (find_game_memory st'))
  = accesses (snd (find_game_memory fresh)).
Proof.
  cbv zeta.
  apply (discovery_ignores_perms_and_path fresh
           (attached guest_image
              (map (fun r => mkRegion (start r) (size r) EmptyString EmptyString) guest_table)
              None)
           guest_table
           (map (fun r => mkRegion (start r) (size r) EmptyString EmptyString) guest_table));
    reflexivity.
Defined.


Lemma float_bytes_round_trip_witness :
  pack_f (float_of_Z 1) = Some (le_bytes 4 0x3F800000) /\
  unpack_f (le_bytes 4 0x3F800000) = Some (float_of_Z 1).
Proof.
  destruct (float_bytes_round_trip (le_bytes 4 0x3F800000) (float_of_Z 1)
              eq_refl eq_refl) as [H1 H2].
  split; [exact H1 | apply H2; exact H1].
Defined.


Lemma range_adjustments_idempotent_witness :
  (forall fuel',
     normalize_yaw fuel' (fsub (float_of_Z 4) TAU)
     = Some (fsub (float_of_Z 4) TAU)) /\
  clamp_pitch (clamp_pitch (float_of_Z 2)) = clamp_pitch (float_of_Z 2).
Proof.
  apply (range_adjustments_idempotent (float_of_Z 4) (float_of_Z 2) 1%nat
           (fsub (float_of_Z 4) TAU)); vm_compute; reflexivity.
Defined.

Lemma single_turn_is_exact_witness :
  normalize_yaw 1 (float_of_Z 4) = Some (fsub (float_of_Z 4) TAU) /\
  Rdefinitions.Rminus (F2R (float_of_Z 4)) (F2R TAU)
  = F2R (fsub (float_of_Z 4) TAU).
Proof.
  destruct (single_turn_is_exact (float_of_Z 4) eq_refl) as [Hd _].
  destruct Hd as [H1 H2]; [vm_compute; reflexivity .. |].
  split; [exact H1 | symmetry; exact H2].
Defined.

Lemma write_then_read_back_witness :
  fst (bind (write_uint16 (0x1000 + MOHH1_CAMX) 0x1234)
         (fun _ => read_uint16 (0x1000 + MOHH1_CAMX)) ready)
  = Return 0x1234 /\
  fst (bind (write_float (0x1000 + MOHH1_CAMX) (float_of_Z 1))
         (fun _ => read_float (0x1000 + MOHH1_CAMX)) ready)
  = Return (float_of_Z 1).
Proof.
  destruct (write_then_read_back ready guest_image guest_base
              (0x1000 + MOHH1_CAMX) 0x1234 (le_bytes 4 0x3F800000)
              (float_of_Z 1)) as [H1 H2].
  - reflexivity.
  - reflexivity.
  - intros d f' Hw. exact (image_write_read guest_image f' _ d Hw).
  - lia.
  - reflexivity.
  - reflexivity.
  - split; [exact H1 | exact H2].
Defined.

Lemma main_loop_keeps_going_witness :
  let t := start_tracking (640, 360) new_tracker in
  let r := main_loop 0 [Move 645 360; Drain; Drain] t ready in
  fst (fst r) = [Slept; Slept] /\
  game_memory_base (snd r) = Some guest_base /\
  delta_x (snd (fst r)) = 0 /\ delta_y (snd (fst r)) = 0.
Proof.
  cbv zeta.
  destruct (main_loop_keeps_going 0 [Move 645 360; Drain; Drain]
              (start_tracking (640, 360) new_tracker) ready)
    as (H1 & H2 & _).
  assert (Hr : fst (fst (main_loop 0 [Move 645 360; Drain; Drain]
                   (start_tracking (640, 360) new_tracker) ready))
               = [Slept; Slept]) by (vm_compute; reflexivity).
  split; [exact Hr|]. split; [exact H1|].
  destruct H2 as [_ H3].
  - rewrite Hr. intros [E | [E | []]]; discriminate.
  - exact (H3 [Move 645 360; Drain] eq_refl).
Defined.

Lemma tracking_session_counts_from_start_witness :
  let r := run_tracker [Move 645 362; Drain; Move 650 360]
             (start_tracking (640, 360) new_tracker) in
  fst r = [(5, 2)] /\
  total (map fst (fst r)) + delta_x (snd r) = 650 - 640 /\
  total (map snd (fst r)) + delta_y (snd r) = 360 - 360.
Proof.
  cbv zeta. split; [reflexivity|].
  destruct (tracking_session_counts_from_start (640, 360)
              [Move 645 362; Drain; Move 650 360] new_tracker)
    as (Hx & Hy & _).
  split; [exact Hx | exact Hy].
Defined.

Section HexdumpRuns.

Import Ascii.

Lemma hexdump_layout_witness :
  let data := ULUS_1014 ++ ULUS_1014 in
  let lines := hexdump_lines (List.length data) data 0x1000 in
  hexdump ULUS_1014 0
  = "00000000  55 4c 55 53 2d 31 30 31 34                        ULUS-1014"%string /\
  Z.of_nat (List.length lines) = 2 /\
  forall k line,
    nth_error lines k = Some line ->
    String.length line = (60 + Nat.min 16 (List.length data - 16 * k))%nat.
Proof.
  cbv zeta. split; [vm_compute; reflexivity|].
  destruct (hexdump_layout (ULUS_1014 ++ ULUS_1014) 0x1000) as (_ & H1 & H2).
  - lia.
  - vm_compute. discriminate.
  - split; [exact H1 | exact H2].
Defined.

Lemma hexdump_decodes_witness :
  let data := ULUS_1014 ++ ULUS_1014 in
  let line := hexdump_line (skipn 16 data) 0x1010 in
  hex_value (substring 0 8 line) = 0x1010 /\
  hex_value (substring 13 2 line) = 0x34 /\
  String.get 61 line = Some "4"%char.
Proof.
  cbv zeta.
  apply (hexdump_decodes (ULUS_1014 ++ ULUS_1014) 0x1000 1 1
           (hexdump_line (skipn 16 (ULUS_1014 ++ ULUS_1014)) 0x1010) x34).
  - lia.
  - vm_compute. discriminate.
  - reflexivity.
  - lia.
  - reflexivity.
Defined.

End HexdumpRuns.
